(** * HyperTemplate: a shallow embedding of [hypertemplate.py]

    The development follows the source file top-down: text primitives,
    the tag locator ([index_ignore_quoted], [find_tag]), the attribute
    parser ([parse_attributes]), the field resolver ([process_template]),
    the document expander ([process_html]), the build planner
    ([template_names], [create_page_builds]) and the driver ([run]).

    Conventions of the embedding.
    - A Python [str] is a list of characters.  Characters are 8-bit
      ([ascii]); the classes [\w] and [\s] are those Python uses on the
      ASCII range, and code points from 128 on are treated as belonging
      to neither class.
    - Offsets are natural numbers: every index the program computes is
      non-negative, so Python's negative indexing never comes into play.
    - A raised exception is a value of [exn]; a function that may raise
      returns a [result].
    - A [while True] loop is a function with a fuel argument; for each of
      them a lemma shows that the fuel handed over by its caller is never
      exhausted. *)

From Stdlib Require Import List Ascii Arith Bool Lia ZArith Permutation Sorted.
From Stdlib Require String.
Import ListNotations String.StringSyntax.

Open Scope string_scope.
Open Scope list_scope.

#[local] Arguments Ascii.eqb : simpl never.

(** ** Text *)

Definition str := list ascii.

Definition lit (s : String.string) : str := String.list_ascii_of_string s.
Coercion lit : String.string >-> str.

(** The double quote character, and a double-quoted piece of text. *)
Definition dquote : ascii := "034"%char.
Definition squote : ascii := "'"%char.
Definition backslash : ascii := "\"%char.
Definition newline : ascii := "010"%char.
Definition carriage_return : ascii := "013"%char.

Definition dq (s : str) : str := dquote :: s ++ [dquote].

Definition str_eqb (a b : str) : bool :=
  if list_eq_dec ascii_dec a b then true else false.

(** [text[a:b]] and [text[a:]] for non-negative [a] and [b]. *)
Definition slice (text : str) (a b : nat) : str := firstn (b - a) (skipn a text).
Definition slice_from (text : str) (a : nat) : str := skipn a text.

Fixpoint starts_with (p s : str) : bool :=
  match p, s with
  | [], _ => true
  | _ :: _, [] => false
  | a :: p', b :: s' => Ascii.eqb a b && starts_with p' s'
  end.

(** ** Exceptions *)

Inductive exn : Type :=
| DocumentError (msg : str)
| BuildError (msg : str)
| ValueError (msg : str)
| KeyError (key : str)
| IndexError
| AttributeError
| RecursionError
| FuelExhausted.

Inductive result (A : Type) : Type :=
| Ok (a : A)
| Raise (e : exn).
Arguments Ok {A} a.
Arguments Raise {A} e.

Definition bind {A B} (r : result A) (k : A -> result B) : result B :=
  match r with
  | Ok a => k a
  | Raise e => Raise e
  end.

Notation "x <- r ;; k" := (bind r (fun x => k))
  (at level 61, r at next level, right associativity).

(** ** The tag locator *)

(** [index_ignore_quoted]: the body of the [for] loop at index [i], with
    [n] iterations of [range(begin_index, len(text) - len(string) + 1)]
    still to run. *)
Fixpoint index_ignore_quoted_loop (text string : str) (quote : option ascii)
    (i n : nat) : result nat :=
  match n with
  | 0 => Raise (ValueError "not present")
  | S n' =>
    match nth_error text i with
    | None => Raise IndexError
    | Some c =>
      match quote with
      | None =>
        if (Ascii.eqb c dquote || Ascii.eqb c squote)
           && negb ((0 <? i) &&
                    match nth_error text (i - 1) with
                    | Some p => Ascii.eqb p backslash
                    | None => false
                    end)
        then index_ignore_quoted_loop text string (Some c) (S i) n'
        else if str_eqb (slice text i (i + length string)) string
        then Ok i
        else index_ignore_quoted_loop text string None (S i) n'
      | Some q =>
        if Ascii.eqb c q
        then index_ignore_quoted_loop text string None (S i) n'
        else index_ignore_quoted_loop text string (Some q) (S i) n'
      end
    end
  end.

Definition index_ignore_quoted (text string : str) (begin_index : nat) : result nat :=
  index_ignore_quoted_loop text string None begin_index
    (length text + 1 - length string - begin_index).

(** [re.search("</?" + tag_name, s)]: the offset of the leftmost place of
    [s] where the opening form [<tag_name] or the closing form
    [</tag_name] starts.  The tag name is matched literally, which is what
    the regular expression does for a name without regex operators, such
    as the only name the program passes, [--template]. *)
Definition tag_at (tag_name s : str) : bool :=
  starts_with (lit "</" ++ tag_name) s || starts_with (lit "<" ++ tag_name) s.

Fixpoint re_search_tag (tag_name s : str) : option nat :=
  if tag_at tag_name s then Some 0
  else match s with
       | [] => None
       | _ :: s' => option_map S (re_search_tag tag_name s')
       end.

(** [find_tag]: the [while True] loop.  Its state is [(start, html_start)];
    [html_end] and [end] are only assigned on the way out. *)
Fixpoint find_tag_loop (fuel : nat) (tag_name text : str) (start html_start : nat)
    : result (option (nat * nat * nat * nat)) :=
  match fuel with
  | 0 => Raise FuelExhausted
  | S fuel' =>
    match re_search_tag tag_name (slice_from text html_start) with
    | None =>
      if (html_start =? 0) then Ok None
      else Raise (DocumentError "opening tag with no matching close")
    | Some off =>
      let new_start := off + html_start in
      match index_ignore_quoted text ">" new_start with
      | Raise (ValueError _) => Raise (DocumentError "missing `>`")
      | Raise e => Raise e
      | Ok gt =>
        let new_html_start := gt + 1 in
        match nth_error text (new_start + 1) with
        | None => Raise IndexError
        | Some c =>
          if Ascii.eqb c "/"
          then if (html_start =? 0)
               then Raise (DocumentError "closing tag with no matching open")
               else Ok (Some (start, html_start, new_start, new_html_start))
          else find_tag_loop fuel' tag_name text new_start new_html_start
        end
      end
    end
  end.

Definition find_tag (tag_name text : str) : result (option (nat * nat * nat * nat)) :=
  find_tag_loop (S (length text)) tag_name text 0 0.

(** ** Dictionaries and sets

    A Python [dict] keeps its keys in insertion order, and [attr.items()]
    is iterated in that order, so a dictionary is an association list
    without repeated keys: assigning to a key that is present replaces
    the value in place, assigning to a new key appends. *)
Module Dict.
Definition t (V : Type) : Type := list (str * V).

Definition empty {V} : t V := [].

Fixpoint get {V} (k : str) (d : t V) : option V :=
  match d with
  | [] => None
  | (k', v) :: d' => if str_eqb k k' then Some v else get k d'
  end.

Fixpoint set {V} (k : str) (v : V) (d : t V) : t V :=
  match d with
  | [] => [(k, v)]
  | (k', v') :: d' =>
    if str_eqb k k' then (k', v) :: d' else (k', v') :: set k v d'
  end.

Definition mem {V} (k : str) (d : t V) : bool :=
  match get k d with Some _ => true | None => false end.

Definition items {V} (d : t V) : list (str * V) := d.
Definition keys {V} (d : t V) : list str := map fst d.
Definition values {V} (d : t V) : list V := map snd d.
End Dict.

(** A Python [set] of strings, kept in order of first insertion. *)
Definition set_add (x : str) (s : list str) : list str :=
  if existsb (str_eqb x) s then s else s ++ [x].

(** ** The attribute parser *)

(** [\s] and [\w] on the ASCII range. *)
Definition is_space (c : ascii) : bool :=
  let n := nat_of_ascii c in
  ((9 <=? n) && (n <=? 13)) || ((28 <=? n) && (n <=? 32)).

Definition is_word (c : ascii) : bool :=
  let n := nat_of_ascii c in
  ((48 <=? n) && (n <=? 57)) || ((65 <=? n) && (n <=? 90))
  || ((97 <=? n) && (n <=? 122)) || (n =? 95).

(** [[\w-]] and [[\$\w-]]. *)
Definition is_tag_char (c : ascii) : bool := is_word c || Ascii.eqb c "-".
Definition is_attr_char (c : ascii) : bool :=
  Ascii.eqb c "$" || is_word c || Ascii.eqb c "-".

Fixpoint take_while (p : ascii -> bool) (s : str) : str :=
  match s with
  | c :: s' => if p c then c :: take_while p s' else []
  | [] => []
  end.

Fixpoint drop_while (p : ascii -> bool) (s : str) : str :=
  match s with
  | c :: s' => if p c then drop_while p s' else s
  | [] => []
  end.

(** The first alternative of the pattern of [parse_attributes], anchored
    at the start of [tag]: a [<], white space, one or more word characters
    or hyphens, white space.  Returns what follows the match.  The classes
    of adjacent repetitions are disjoint, so the greedy match is the only
    one. *)
Definition match_tag_open (tag : str) : option str :=
  match tag with
  | c :: r =>
    if Ascii.eqb c "<" then
      let r1 := drop_while is_space r in
      match take_while is_tag_char r1 with
      | [] => None
      | _ :: _ => Some (drop_while is_space (drop_while is_tag_char r1))
      end
    else None
  | [] => None
  end.

(** [$] without [re.MULTILINE]: the end of the string, or the place just
    before a newline that ends the string. *)
Definition at_dollar (s : str) : bool :=
  match s with
  | [] => true
  | [c] => Ascii.eqb c newline
  | _ => false
  end.

(** The second alternative at the start of [s]: an optional [/], a [>],
    then [$].  Returns what follows the match. *)
Definition match_tag_close (s : str) : option str :=
  match s with
  | c :: r =>
    if Ascii.eqb c "/" then
      match r with
      | d :: r' => if Ascii.eqb d ">" && at_dollar r' then Some r' else None
      | [] => None
      end
    else if Ascii.eqb c ">" && at_dollar r then Some r
    else None
  | [] => None
  end.

(** [re.subn] of the second alternative alone over [s]: the text with the
    matches removed, and their number. *)
Fixpoint subn_tag_close (s : str) : str * nat :=
  match match_tag_close s with
  | Some rest => (rest, 1)
  | None =>
    match s with
    | [] => ([], 0)
    | c :: s' => let (t, n) := subn_tag_close s' in (c :: t, n)
    end
  end.

(** [re.subn] of the two alternatives over [tag], with the empty
    replacement.  The first alternative can only match at offset 0 and is
    tried first there. *)
Definition subn_tag (tag : str) : str * nat :=
  match match_tag_open tag with
  | Some rest => let (t, n) := subn_tag_close rest in (t, S n)
  | None => subn_tag_close tag
  end.

(** [re.match] of the attribute pattern on [text]: a name of one or more
    characters among [$], word characters and hyphens, white space, [=],
    white space, a double quote, the characters up to the next double
    quote, that quote, white space.  Returns the two groups and
    [text[m.end():]]. *)
Definition match_attribute (text : str) : option (str * str * str) :=
  match take_while is_attr_char text with
  | [] => None
  | name =>
    match drop_while is_space (drop_while is_attr_char text) with
    | c :: r =>
      if Ascii.eqb c "=" then
        match drop_while is_space r with
        | q :: r' =>
          if Ascii.eqb q dquote then
            let not_quote := fun x => negb (Ascii.eqb x dquote) in
            match drop_while not_quote r' with
            | _ :: r'' =>
              Some (name, take_while not_quote r', drop_while is_space r'')
            | [] => None
            end
          else None
        | [] => None
        end
      else None
    | [] => None
    end
  end.

Definition invalid_tag (tag : str) : exn :=
  DocumentError (lit "invalid tag `" ++ tag ++ lit "`").

Fixpoint parse_attributes_loop (fuel : nat) (tag text : str) (ret : Dict.t str)
    : result (Dict.t str) :=
  match fuel with
  | 0 => Raise FuelExhausted
  | S fuel' =>
    match text with
    | [] => Ok ret
    | _ :: _ =>
      match match_attribute text with
      | None => Raise (invalid_tag tag)
      | Some (name, value, rest) =>
        parse_attributes_loop fuel' tag rest (Dict.set name value ret)
      end
    end
  end.

Definition parse_attributes (tag : str) : result (Dict.t str) :=
  let (text, n) := subn_tag tag in
  if n =? 2 then parse_attributes_loop (S (length text)) tag text Dict.empty
  else Raise (invalid_tag tag).

(** ** Files *)

(** The two subclasses of [File]: a [Document], with the content of its
    file, and a [Blob]. *)
Inductive file_kind : Type :=
| Document (content : str)
| Blob.

(** A modification time is a float in the source; the program only
    compares them, so any totally ordered type of numbers serves. *)
Record File : Type := mkFile {
  path : str;
  relpath : str;
  mtime : Z;
  kind : file_kind
}.

Definition build_error (doc : File) (msg : str) : exn :=
  BuildError (lit "[ " ++ path doc ++ lit " ] " ++ msg).

(** ** The field resolver *)

Record mapping : Type := mkMapping {
  m_start : nat;
  m_end : nat;
  m_repl : str
}.

Definition is_blank (c : ascii) : bool := Ascii.eqb c " ".
Definition is_value_char (c : ascii) : bool :=
  negb (Ascii.eqb c dquote || Ascii.eqb c newline || Ascii.eqb c carriage_return).

(** One round of the repeated group of the void-tag patterns: one or more
    blanks, a name of word characters and hyphens, blanks, [=], blanks, a
    double quote, characters other than a double quote, a newline or a
    carriage return, a double quote.  Returns what follows it. *)
Definition match_void_attr (s : str) : option str :=
  match take_while is_blank s with
  | [] => None
  | _ :: _ =>
    let s1 := drop_while is_blank s in
    match take_while is_tag_char s1 with
    | [] => None
    | _ :: _ =>
      match drop_while is_blank (drop_while is_tag_char s1) with
      | c :: r =>
        if Ascii.eqb c "=" then
          match drop_while is_blank r with
          | q :: r' =>
            if Ascii.eqb q dquote then
              match drop_while is_value_char r' with
              | q' :: r'' => if Ascii.eqb q' dquote then Some r'' else None
              | [] => None
              end
            else None
          | [] => None
          end
        else None
      | [] => None
      end
    end
  end.

(** The greedy repetition of the group.  A round that matches can be
    matched in one way only, and the tail of the pattern cannot start
    where a round starts, so taking as many rounds as possible is the only
    way the whole pattern can match. *)
Fixpoint match_void_attrs (fuel : nat) (s : str) : str :=
  match fuel with
  | 0 => s
  | S fuel' =>
    match match_void_attr s with
    | Some r => match_void_attrs fuel' r
    | None => s
    end
  end.

(** The tail of the void-tag patterns: blanks, an optional [/], a [>]. *)
Definition match_void_close (s : str) : option str :=
  match drop_while is_blank s with
  | c :: r =>
    if Ascii.eqb c "/" then
      match r with
      | d :: r' => if Ascii.eqb d ">" then Some r' else None
      | [] => None
      end
    else if Ascii.eqb c ">" then Some r
    else None
  | [] => None
  end.

(** A match of a void-tag pattern at the start of [s]: [open_] (which is
    [<--field] or [<--inner-html]), rounds of the group, the tail.
    Returns the length of the match. *)
Definition match_void_tag (open_ s : str) : option nat :=
  if starts_with open_ s then
    let r := skipn (length open_) s in
    match match_void_close (match_void_attrs (length r) r) with
    | Some rest => Some (length s - length rest)
    | None => None
    end
  else None.

(** [re.finditer] of that pattern: [(t.start(), t.end(), t[0])] for each
    match, left to right, the scan resuming where a match ends.  [skip]
    counts the characters of the last match still to be passed. *)
Fixpoint re_finditer_void (open_ s : str) (pos skip : nat)
    : list (nat * nat * str) :=
  match s with
  | [] => []
  | _ :: s' =>
    match skip with
    | S k => re_finditer_void open_ s' (S pos) k
    | 0 =>
      match match_void_tag open_ s with
      | Some len =>
        (pos, pos + len, firstn len s)
          :: re_finditer_void open_ s' (S pos) (len - 1)
      | None => re_finditer_void open_ s' (S pos) 0
      end
    end
  end.

Definition doc_err (template : File) (msg : str) : exn :=
  DocumentError (lit "template " ++ relpath template ++ lit ": " ++ msg).

Definition get_field_dict (template : File) (field_tag : str) : result (Dict.t str) :=
  ret <- parse_attributes field_tag ;;
  if Dict.mem "--name" ret then Ok ret
  else Raise (build_error template "a field tag is missing the attribute `--name`").

Definition get_field_value (template : File) (fields_provided : Dict.t str)
    (field_tag : str) : result str :=
  field <- get_field_dict template field_tag ;;
  match Dict.get "--name" field with
  | None => Raise (KeyError "--name")
  | Some field_name =>
    let field_default_value := Dict.get "--default" field in
    match Dict.get field_name fields_provided with
    | Some value => Ok value
    | None =>
      match field_default_value with
      | Some value => Ok value
      | None =>
        Raise (doc_err template (lit "field `" ++ field_name ++ lit "` required"))
      end
    end
  end.

(** [subs.sort(key=lambda r: r.start)]: a stable sort. *)
Fixpoint insert_by_start (m : mapping) (l : list mapping) : list mapping :=
  match l with
  | [] => [m]
  | x :: l' =>
    if m_start m <=? m_start x then m :: l else x :: insert_by_start m l'
  end.

Definition sort_by_start (l : list mapping) : list mapping :=
  fold_right insert_by_start [] l.

(** The splicing loop over the sorted ranges; [parts] is the list that
    [join] flattens at the end. *)
Fixpoint splice_loop (template : File) (text : str) (cursor : nat)
    (parts : list str) (subs : list mapping) : result str :=
  match subs with
  | [] => Ok (concat (parts ++ map (fun c => [c]) (slice_from text cursor)))
  | m :: rest =>
    if m_start m <? cursor then Raise (doc_err template "overlapping tags")
    else splice_loop template text (m_end m)
           (parts ++ [slice text cursor (m_start m); m_repl m]) rest
  end.

(** The end of [process_template]: the ranges are sorted, then spliced. *)
Definition splice (template : File) (text : str) (subs : list mapping) : result str :=
  splice_loop template text 0 [] (sort_by_start subs).

Fixpoint map_result {A B} (f : A -> result B) (l : list A) : result (list B) :=
  match l with
  | [] => Ok []
  | a :: l' => b <- f a ;; bs <- map_result f l' ;; Ok (b :: bs)
  end.

(** [process_template].  The warnings about unused fields go to the
    global warning stack and have no bearing on what is returned or
    raised; they are left out. *)
Definition process_template (template : File) (fields_provided : Dict.t str)
    (inner_html : str) : result str :=
  match kind template with
  | Blob => Raise AttributeError
  | Document text =>
    let field_tags := re_finditer_void "<--field" text 0 0 in
    let inner_html_tags := re_finditer_void "<--inner-html" text 0 0 in
    subs <- map_result
              (fun t : nat * nat * str =>
                 let '(si, ei, tag) := t in
                 v <- get_field_value template fields_provided tag ;;
                 Ok (mkMapping si ei v))
              field_tags ;;
    let subs :=
      subs ++ map (fun t : nat * nat * str =>
                     let '(si, ei, _) := t in mkMapping si ei inner_html)
                  inner_html_tags in
    splice template text subs
  end.

(** ** The document expander *)

(** [s.split(sep)] for a one-character separator. *)
Fixpoint split_on (sep : ascii) (s : str) : list str :=
  match s with
  | [] => [[]]
  | c :: s' =>
    if Ascii.eqb c sep then [] :: split_on sep s'
    else match split_on sep s' with
         | p :: ps => (c :: p) :: ps
         | [] => [[c]]
         end
  end.

(** [s.strip()]. *)
Definition strip (s : str) : str :=
  rev (drop_while is_space (rev (drop_while is_space s))).

(** The loop over [fields_str.split(";")]. *)
Fixpoint bulk_fields (parts : list str) (fields : Dict.t str) : result (Dict.t str) :=
  match parts with
  | [] => Ok fields
  | field_str :: rest =>
    match split_on ":" field_str with
    | [name; value] => bulk_fields rest (Dict.set (strip name) (strip value) fields)
    | _ => Raise (DocumentError (lit "couldn't parse field `" ++ field_str ++ lit "`"))
    end
  end.

(** The loop over [attr.items()]. *)
Definition dollar_fields (attr : Dict.t str) (fields : Dict.t str) : Dict.t str :=
  fold_left
    (fun fields (item : str * str) =>
       let (name, value) := item in
       if starts_with "$" name then Dict.set (skipn 1 name) value fields
       else fields)
    (Dict.items attr) fields.

(** The field mapping of a usage, as [process_html] builds it from the
    attributes of the opening tag. *)
Definition usage_fields (attr : Dict.t str) : result (Dict.t str) :=
  let fields_str := Dict.get "--fields" attr in
  fields <- match fields_str with
            | None | Some [] => Ok Dict.empty
            | Some s => bulk_fields (split_on ";" s) Dict.empty
            end ;;
  Ok (dollar_fields attr fields).

(** [process_html].  The function calls itself once per usage it
    resolves, with nothing in it to bound the number of calls; [depth] is
    the number of nested calls the interpreter still allows, and Python
    raises [RecursionError] when it is used up. *)
Fixpoint process_html (depth : nat) (html_content : str) (templates : Dict.t File)
    : result str :=
  match depth with
  | 0 => Raise RecursionError
  | S depth' =>
    let text := html_content in
    m <- find_tag "--template" text ;;
    match m with
    | None => Ok text
    | Some (start, html_start, html_end, end_) =>
      let tag := slice text start html_start in
      let html := slice text html_start html_end in
      attr <- parse_attributes tag ;;
      match Dict.get "--name" attr with
      | None => Raise (DocumentError "template name required")
      | Some name =>
        match Dict.get name templates with
        | None => Raise (KeyError name)
        | Some template =>
          fields <- usage_fields attr ;;
          repl <- process_template template fields html ;;
          process_html depth' (slice text 0 start ++ repl ++ slice_from text end_)
            templates
        end
      end
    end
  end.

(** ** The build planner *)

Record PageBuild : Type := mkPageBuild {
  src : File;
  out_path : str;
  replace : option File;
  templates : Dict.t File;
  (** [None]: the build has no attribute [processed]; [Some None]: it has
      one, not yet filled in. *)
  processed : option (option str)
}.

Definition is_document (f : File) : bool :=
  match kind f with Document _ => true | Blob => false end.

(** [PageBuild.__init__]. *)
Definition new_PageBuild (src : File) (out_path : str) (replace : option File)
    (templates : Dict.t File) : PageBuild :=
  mkPageBuild src out_path replace templates
    (if is_document src && negb (match templates with [] => true | _ => false end)
     then Some None else None).

Fixpoint template_names_loop (fuel : nat) (page : File) (names : list str)
    (text : str) : result (list str) :=
  match fuel with
  | 0 => Raise FuelExhausted
  | S fuel' =>
    match find_tag "--template" text with
    | Raise (DocumentError e) => Raise (build_error page e)
    | Raise e => Raise e
    | Ok None => Ok names
    | Ok (Some (start, html_start, html_end, end_)) =>
      attr <- parse_attributes (slice text start html_start) ;;
      match Dict.get "--name" attr with
      | None => Raise (build_error page "template name required")
      | Some name =>
        template_names_loop fuel' page (set_add name names)
          (slice text html_start html_end)
      end
    end
  end.

Definition template_names (page : File) : result (list str) :=
  match kind page with
  | Blob => Ok []
  | Document content =>
    template_names_loop (S (length content)) page [] content
  end.

(** [template_ident]: [re.sub] of a final [.html] or [.htm] by nothing. *)
Definition match_html_suffix (s : str) : option str :=
  if starts_with ".html" s && at_dollar (skipn 5 s) then Some (skipn 5 s)
  else if starts_with ".htm" s && at_dollar (skipn 4 s) then Some (skipn 4 s)
  else None.

Fixpoint sub_html_suffix (s : str) : str :=
  match match_html_suffix s with
  | Some rest => rest
  | None =>
    match s with
    | [] => []
    | c :: s' => c :: sub_html_suffix s'
    end
  end.

Definition template_ident (template : File) : str :=
  sub_html_suffix (relpath template).

Definition get_templates_used (templates : Dict.t File) (page : File)
    : result (Dict.t File) :=
  names <- template_names page ;;
  (fix loop (names : list str) (ret : Dict.t File) : result (Dict.t File) :=
     match names with
     | [] => Ok ret
     | name :: rest =>
       match Dict.get name templates with
       | None =>
         Raise (build_error page (lit "`" ++ name ++ lit "` template doesn't exist"))
       | Some t => loop rest (Dict.set name t ret)
       end
     end) names Dict.empty.

Definition get_existing (built_files : list File) (page : File) : option File :=
  find (fun f => str_eqb (relpath f) (relpath page)) built_files.

(** [max(l, key=lambda doc: doc.mtime)] on the non-empty list [d :: l]:
    the first element of greatest modification time. *)
Definition max_by_mtime (d : File) (l : list File) : File :=
  fold_left (fun best x => if (mtime best <? mtime x)%Z then x else best) l d.

Definition is_required (force_rebuild : bool) (build : PageBuild) : bool :=
  if force_rebuild then true
  else match replace build with
       | None => true
       | Some old =>
         (mtime old <? mtime (max_by_mtime (src build) (Dict.values (templates build))))%Z
       end.

(** [create_page_builds], from the three inventories that [find_files]
    returns.  The warning about stray files is left out. *)
Definition create_page_builds (src_pages built_files templates_list : list File)
    (out_path : str) (force_rebuild : bool) : result (list PageBuild) :=
  let templates :=
    fold_left (fun d doc => Dict.set (template_ident doc) doc d)
      templates_list Dict.empty in
  page_builds <- map_result
                   (fun page =>
                      used <- get_templates_used templates page ;;
                      Ok (new_PageBuild page out_path
                            (get_existing built_files page) used))
                   src_pages ;;
  Ok (filter (is_required force_rebuild) page_builds).

(** ** The driver *)

Definition process (depth : nat) (page_build : PageBuild) : result PageBuild :=
  match processed page_build with
  | None => Ok page_build
  | Some _ =>
    match kind (src page_build) with
    | Blob => Raise AttributeError
    | Document content =>
      match process_html depth content (templates page_build) with
      | Ok text =>
        Ok (mkPageBuild (src page_build) (out_path page_build)
              (replace page_build) (templates page_build) (Some (Some text)))
      | Raise (DocumentError e) => Raise (build_error (src page_build) e)
      | Raise e => Raise e
      end
    end
  end.

(** What a run leaves behind: the value [run] returns, or the exception
    that escapes it, and the calls of [save] it made, in order. *)
Record outcome : Type := mkOutcome {
  returned : result Z;
  save_calls : list PageBuild
}.

Section Run.

(** The interpreter's recursion limit. *)
Variable depth : nat.

(** The writer is an external collaborator: [save_raises saved b] tells
    whether [save b] raises, and with what message, once the builds
    [saved] have been written. *)
Variable save_raises : list PageBuild -> PageBuild -> option str.

(** The [for] loop of the write phase: the calls made and the exception
    caught, if any. *)
Fixpoint save_all (saved page_builds : list PageBuild)
    : list PageBuild * option str :=
  match page_builds with
  | [] => (saved, None)
  | b :: rest =>
    match save_raises saved b with
    | Some err => (saved ++ [b], Some err)
    | None => save_all (saved ++ [b]) rest
    end
  end.

Definition run (src_pages built_files templates_list : list File)
    (out_path : str) (dry_run force_rebuild : bool) : outcome :=
  match
    (page_builds <- create_page_builds src_pages built_files templates_list
                      out_path force_rebuild ;;
     map_result (process depth) page_builds)
  with
  | Raise (BuildError _) => mkOutcome (Ok 1%Z) []
  | Raise e => mkOutcome (Raise e) []
  | Ok page_builds =>
    match page_builds with
    | [] => mkOutcome (Ok 0%Z) []
    | _ :: _ =>
      if dry_run then mkOutcome (Ok 0%Z) []
      else
        match save_all [] page_builds with
        | (calls, Some _) => mkOutcome (Ok 2%Z) calls
        | (calls, None) => mkOutcome (Ok 0%Z) calls
        end
    end
  end.

End Run.

(** ** Notions used to state the properties of the tag locator *)

(** A form of the tag, opening or closing, starts at offset [i]. *)
Definition tag_form_at (tag_name text : str) (i : nat) : bool :=
  tag_at tag_name (slice_from text i).

(** [i] is the first offset from [from] on where a form of the tag
    starts. *)
Definition first_tag_from (tag_name text : str) (from i : nat) : Prop :=
  from <= i /\ tag_form_at tag_name text i = true /\
  forall j, from <= j < i -> tag_form_at tag_name text j = false.

(** The test [find_tag] applies to tell a closing form from an opening
    one. *)
Definition closing_at (text : str) (i : nat) : bool :=
  match nth_error text (i + 1) with
  | Some c => Ascii.eqb c "/"
  | None => false
  end.

(** The offset just after the [>] that ends the tag starting at [i]. *)
Definition tag_end (text : str) (i : nat) : option nat :=
  match index_ignore_quoted text ">" i with
  | Ok gt => Some (gt + 1)
  | Raise _ => None
  end.

(** [opened tag_name text s hs]: scanning from the start of the text,
    [find_tag] has met opening forms only, each ended by a [>], the last
    of them at [s] with its content starting at [hs]. *)
Inductive opened (tag_name text : str) : nat -> nat -> Prop :=
| opened_first s hs :
    first_tag_from tag_name text 0 s ->
    closing_at text s = false ->
    tag_end text s = Some hs ->
    opened tag_name text s hs
| opened_next s0 hs0 s hs :
    opened tag_name text s0 hs0 ->
    first_tag_from tag_name text hs0 s ->
    closing_at text s = false ->
    tag_end text s = Some hs ->
    opened tag_name text s hs.

(** What [find_tag] does, case by case. *)
Inductive find_tag_spec (tag_name text : str)
    : result (option (nat * nat * nat * nat)) -> Prop :=
| spec_absent :
    (forall i, tag_form_at tag_name text i = false) ->
    find_tag_spec tag_name text (Ok None)
| spec_found s hs he e :
    opened tag_name text s hs ->
    first_tag_from tag_name text hs he ->
    closing_at text he = true ->
    tag_end text he = Some e ->
    find_tag_spec tag_name text (Ok (Some (s, hs, he, e)))
| spec_unopened i :
    first_tag_from tag_name text 0 i ->
    closing_at text i = true ->
    tag_end text i <> None ->
    find_tag_spec tag_name text
      (Raise (DocumentError "closing tag with no matching open"))
| spec_unclosed s hs :
    opened tag_name text s hs ->
    (forall j, hs <= j -> tag_form_at tag_name text j = false) ->
    find_tag_spec tag_name text
      (Raise (DocumentError "opening tag with no matching close"))
| spec_missing_gt_first i :
    first_tag_from tag_name text 0 i ->
    tag_end text i = None ->
    find_tag_spec tag_name text (Raise (DocumentError "missing `>`"))
| spec_missing_gt_next s hs i :
    opened tag_name text s hs ->
    first_tag_from tag_name text hs i ->
    tag_end text i = None ->
    find_tag_spec tag_name text (Raise (DocumentError "missing `>`")).

(** ** Notions used to state the properties of the planner *)

(** The greatest modification time among the source of a build and the
    templates it refers to. *)
Definition newest_mtime (build : PageBuild) : Z :=
  fold_right Z.max (mtime (src build))
    (map mtime (Dict.values (templates build))).

(** ** Notions used to state the properties of the field resolver *)

(** The text with the range of [m] replaced by its replacement. *)
Definition replace_range (text : str) (m : mapping) : str :=
  slice text 0 (m_start m) ++ m_repl m ++ slice_from text (m_end m).

(** The text with each range of [subs] replaced, the rightmost first so
    that the offsets of the ranges to its left still hold. *)
Definition replace_ranges (text : str) (subs : list mapping) : str :=
  fold_right (fun m t => replace_range t m) text subs.

(** Some range starts strictly before the end of the range before it. *)
Definition overlapping (subs : list mapping) : Prop :=
  exists l1 a b l2, subs = l1 ++ a :: b :: l2 /\ m_start b < m_end a.

(** The ranges lie within the text. *)
Definition ranges_in (text : str) (subs : list mapping) : Prop :=
  Forall (fun m => m_start m <= m_end m <= length text) subs.

(** The order [sort] sorts by. *)
Definition by_start (a b : mapping) : Prop := m_start a <= m_start b.

(** The ranges, in order, follow one another from [cursor] on. *)
Fixpoint chained (cursor : nat) (subs : list mapping) : Prop :=
  match subs with
  | [] => True
  | m :: rest => cursor <= m_start m /\ chained (m_end m) rest
  end.

(** ** Notions used to state the properties of the field mapping *)

(** The number of colons in a part of the bulk string. *)
Definition colons (part : str) : nat := count_occ ascii_dec part ":"%char.

Definition not_colon (c : ascii) : bool := negb (Ascii.eqb c ":").

(** The trimmed name and value of a part with one colon. *)
Definition part_name (part : str) : str := strip (take_while not_colon part).
Definition part_value (part : str) : str := strip (tl (drop_while not_colon part)).

(** What a part with one colon adds to the mapping. *)
Definition set_part (fields : Dict.t str) (p : str) : Dict.t str :=
  Dict.set (part_name p) (part_value p) fields.

(** The value the bulk string gives to a name: that of the last part
    with this name. *)
Fixpoint bulk_lookup (parts : list str) (k : str) : option str :=
  match parts with
  | [] => None
  | p :: rest =>
    match bulk_lookup rest k with
    | Some v => Some v
    | None => if str_eqb (part_name p) k then Some (part_value p) else None
    end
  end.

(** The field mapping as the specification words it: the bulk attribute,
    when the tag has one, is split and parsed, then the attributes with a
    [$] are applied. *)
Definition usage_fields_as_stated (attr : Dict.t str) : result (Dict.t str) :=
  fields <- match Dict.get "--fields" attr with
            | Some s => bulk_fields (split_on ";" s) Dict.empty
            | None => Ok Dict.empty
            end ;;
  Ok (dollar_fields attr fields).

(** ** Notions used to state the properties of the document expander *)

(** One call of [process_html] up to its recursive call: [None] when the
    text holds no usage, and otherwise the text the function calls itself
    on. *)
Definition expand_step (text : str) (templates : Dict.t File)
    : result (option str) :=
  m <- find_tag "--template" text ;;
  match m with
  | None => Ok None
  | Some (start, html_start, html_end, end_) =>
    attr <- parse_attributes (slice text start html_start) ;;
    match Dict.get "--name" attr with
    | None => Raise (DocumentError "template name required")
    | Some name =>
      match Dict.get name templates with
      | None => Raise (KeyError name)
      | Some template =>
        fields <- usage_fields attr ;;
        repl <- process_template template fields
                  (slice text html_start html_end) ;;
        Ok (Some (slice text 0 start ++ repl ++ slice_from text end_))
      end
    end
  end.

(** The number of offsets of the text where a form of the tag starts. *)
Definition count_tags (tag_name text : str) : nat :=
  length (filter (tag_form_at tag_name text) (seq 0 (length text))).

(** The texts the expansion of [text] goes through. *)
Inductive expands_to (templates : Dict.t File) (text : str) : str -> Prop :=
| expands_refl : expands_to templates text text
| expands_step t t' :
    expands_to templates text t ->
    expand_step t templates = Ok (Some t') ->
    expands_to templates text t'.

(** ** Notions used to relate the void-tag pattern and the attribute parser *)

(** The text [s] is empty or starts with a character outside [p]. *)
Definition stops (p : ascii -> bool) (s : str) : Prop :=
  match s with
  | [] => True
  | c :: _ => p c = false
  end.

(** The text ends with a [/]. *)
Definition ends_with_slash (s : str) : Prop := exists y, s = y ++ ["/"%char].

(** The text of attributes the void-tag pattern accepts between the tag
    name and the closing of the tag: rounds of blanks, a name, an [=]
    with blanks around it and a quoted value, then blanks. *)
Inductive attr_text : str -> Prop :=
| attr_text_blanks b :
    Forall (fun c => is_blank c = true) b -> attr_text b
| attr_text_round sp name sp1 sp2 value rest :
    sp <> [] -> Forall (fun c => is_blank c = true) sp ->
    name <> [] -> Forall (fun c => is_tag_char c = true) name ->
    Forall (fun c => is_blank c = true) sp1 ->
    Forall (fun c => is_blank c = true) sp2 ->
    Forall (fun c => is_value_char c = true) value ->
    attr_text rest ->
    attr_text (sp ++ name ++ sp1 ++ "="%char :: sp2
               ++ dquote :: value ++ dquote :: rest).

(** ** Notions used to state further properties *)

(** [string] occurs in [text] at offset [i]. *)
Definition occurs_at (text string : str) (i : nat) : Prop :=
  slice text i (i + length string) = string.

(** No quote character stands in [text] at or after [from]. *)
Definition quote_free_from (text : str) (from : nat) : Prop :=
  forall i c, from <= i -> nth_error text i = Some c ->
              c <> dquote /\ c <> squote.

(** A tag written out from its name and attributes, each attribute after
    one blank, its value between double quotes. *)
Definition render_attr (kv : str * str) : str :=
  lit " " ++ fst kv ++ lit "=" ++ dq (snd kv).

Definition render_tag (name : str) (attrs : list (str * str)) : str :=
  lit "<" ++ name ++ concat (map render_attr attrs) ++ lit ">".

(** An attribute the parser can read back: a name of one or more
    characters among [$], word characters and hyphens, and a value with no
    double quote. *)
Definition valid_attr (kv : str * str) : Prop :=
  fst kv <> [] /\ Forall (fun c => is_attr_char c = true) (fst kv) /\
  ~ In dquote (snd kv).

(** The dictionary a sequence of assignments builds. *)
Definition dict_of (attrs : list (str * str)) : Dict.t str :=
  fold_left (fun d (kv : str * str) => Dict.set (fst kv) (snd kv) d)
    attrs Dict.empty.

(** The matches, in order, are not empty and follow one another from
    [cursor] on. *)
Fixpoint chained_matches (cursor : nat) (l : list (nat * nat * str)) : Prop :=
  match l with
  | [] => True
  | (si, ei, _) :: rest => cursor <= si /\ si < ei /\ chained_matches ei rest
  end.

(** An attribute of a void tag: a name of word characters and hyphens and
    a value with no double quote, newline or carriage return. *)
Definition void_attr (kv : str * str) : Prop :=
  fst kv <> [] /\ Forall (fun c => is_tag_char c = true) (fst kv) /\
  Forall (fun c => is_value_char c = true) (snd kv).

(** The offsets, counted from [pos], at which [p] occurs in [s]. *)
Fixpoint occurrences (p s : str) (pos : nat) : list nat :=
  match s with
  | [] => []
  | _ :: s' =>
    if starts_with p s then pos :: occurrences p s' (S pos)
    else occurrences p s' (S pos)
  end.

(** * Properties *)

(** ** Text primitives *)

Lemma str_eqb_eq (a b : str) : str_eqb a b = true <-> a = b.
Proof.
  unfold str_eqb. destruct (list_eq_dec ascii_dec a b); split; congruence.
Qed.

Lemma str_eqb_refl (a : str) : str_eqb a a = true.
Proof. now apply str_eqb_eq. Qed.

Lemma str_eqb_neq (a b : str) : str_eqb a b = false <-> a <> b.
Proof.
  unfold str_eqb. destruct (list_eq_dec ascii_dec a b); split; congruence.
Qed.

Lemma starts_with_app (p s : str) :
  starts_with p s = true <-> exists r, s = p ++ r.
Proof.
  revert s. induction p as [|a p IH]; intros s; simpl.
  - split; eauto.
  - destruct s as [|b s]; simpl.
    + split; [discriminate | intros [r H]; discriminate].
    + rewrite andb_true_iff, Ascii.eqb_eq, IH. split.
      * intros [-> [r ->]]. eauto.
      * intros [r H]. injection H as -> ->. eauto.
Qed.

Lemma skipn_skipn_add {A} (a b : nat) (l : list A) :
  skipn a (skipn b l) = skipn (a + b) l.
Proof.
  revert l. induction b as [|b IH]; intros l.
  - now rewrite Nat.add_0_r.
  - rewrite Nat.add_succ_r. destruct l; simpl.
    + now rewrite skipn_nil.
    + apply IH.
Qed.

Lemma nth_error_skipn_head {A} (l : list A) (i : nat) (x : A) (r : list A) :
  skipn i l = x :: r -> nth_error l i = Some x.
Proof.
  revert l. induction i as [|i IH]; intros [|y l] H; simpl in *; try discriminate.
  - congruence.
  - auto.
Qed.

(** ** [index_ignore_quoted] *)

Lemma slice_one (text : str) (i : nat) (c : ascii) :
  slice text i (i + 1) = [c] <-> nth_error text i = Some c.
Proof.
  unfold slice. replace (i + 1 - i) with 1 by lia.
  revert text. induction i as [|i IH]; intros [|x text]; simpl;
    try (split; discriminate).
  - split; congruence.
  - apply IH.
Qed.

Lemma index_ignore_quoted_loop_bounds (text string : str) :
  forall n quote i g,
    index_ignore_quoted_loop text string quote i n = Ok g ->
    i <= g < i + n /\ slice text g (g + length string) = string.
Proof.
  induction n as [|n IH]; intros quote i g H; simpl in H; [discriminate|].
  destruct (nth_error text i) as [c|]; [|discriminate].
  destruct quote as [q|].
  - destruct (Ascii.eqb c q); apply IH in H; lia || (split; [lia | tauto]).
  - match type of H with (if ?b then _ else _) = _ => destruct b end.
    + apply IH in H. split; [lia | tauto].
    + destruct (str_eqb (slice text i (i + length string)) string) eqn:E.
      * injection H as <-. apply str_eqb_eq in E. split; [lia | exact E].
      * apply IH in H. split; [lia | tauto].
Qed.

(** With a needle of one character the loop never reads past the end of
    the text: it returns an offset or raises [ValueError]. *)
Lemma index_ignore_quoted_loop_raises (text : str) (c : ascii) :
  forall n quote i e,
    n = 0 \/ i + n <= length text ->
    index_ignore_quoted_loop text [c] quote i n = Raise e ->
    e = ValueError "not present".
Proof.
  induction n as [|n IH]; intros quote i e Hlen H; simpl in H.
  - injection H as <-. reflexivity.
  - destruct (nth_error text i) as [x|] eqn:Hx.
    + destruct quote as [q|].
      * destruct (Ascii.eqb x q); eapply IH; try eassumption; lia.
      * match type of H with (if ?b then _ else _) = _ => destruct b end.
        -- eapply IH; try eassumption; lia.
        -- match type of H with (if ?b then _ else _) = _ => destruct b end;
             [discriminate|]. eapply IH; try eassumption; lia.
    + apply nth_error_None in Hx. lia.
Qed.

Lemma index_ignore_quoted_gt (text : str) (b g : nat) :
  index_ignore_quoted text ">" b = Ok g ->
  b <= g < length text /\ nth_error text g = Some ">"%char.
Proof.
  unfold index_ignore_quoted. intros H.
  apply index_ignore_quoted_loop_bounds in H. destruct H as [Hb Hs].
  cbn [lit String.list_ascii_of_string length] in Hb, Hs.
  apply (proj1 (slice_one text g ">"%char)) in Hs.
  split; [|exact Hs].
  assert (g < length text) by (apply nth_error_Some; congruence). lia.
Qed.

Lemma index_ignore_quoted_gt_raises (text : str) (b : nat) (e : exn) :
  index_ignore_quoted text ">" b = Raise e -> e = ValueError "not present".
Proof.
  unfold index_ignore_quoted. apply index_ignore_quoted_loop_raises.
  cbn [lit String.list_ascii_of_string length]. lia.
Qed.

Lemma tag_end_bounds (text : str) (i e : nat) :
  tag_end text i = Some e ->
  i < e <= length text /\ nth_error text (e - 1) = Some ">"%char.
Proof.
  unfold tag_end. destruct (index_ignore_quoted text ">" i) as [g|] eqn:H;
    [|discriminate].
  intros [= <-]. apply index_ignore_quoted_gt in H.
  replace (g + 1 - 1) with g by lia. split; [lia | tauto].
Qed.

(** ** The search for the next form of the tag *)

Lemma tag_at_head (tag_name s : str) :
  tag_at tag_name s = true -> exists r, s = "<"%char :: r.
Proof.
  unfold tag_at. rewrite orb_true_iff, !starts_with_app.
  intros [[r ->] | [r ->]]; simpl; eauto.
Qed.

Lemma tag_form_at_head (tag_name text : str) (i : nat) :
  tag_form_at tag_name text i = true -> nth_error text i = Some "<"%char.
Proof.
  unfold tag_form_at, slice_from. intros H.
  apply tag_at_head in H as [r H]. eapply nth_error_skipn_head; eauto.
Qed.

Lemma re_search_tag_Some (tag_name : str) :
  forall s off,
    re_search_tag tag_name s = Some off ->
    tag_at tag_name (skipn off s) = true /\
    forall j, j < off -> tag_at tag_name (skipn j s) = false.
Proof.
  induction s as [|c s IH]; intros off H; cbn [re_search_tag] in H.
  - destruct (tag_at tag_name []) eqn:E; [|discriminate].
    injection H as <-. split; [exact E | intros; lia].
  - destruct (tag_at tag_name (c :: s)) eqn:E.
    + injection H as <-. split; [exact E | intros; lia].
    + destruct (re_search_tag tag_name s) as [k|] eqn:Es; [|discriminate].
      injection H as <-. destruct (IH k eq_refl) as [H1 H2].
      split; [exact H1|]. intros [|j] Hj; [exact E|]. apply H2. lia.
Qed.

Lemma re_search_tag_None (tag_name : str) :
  forall s, re_search_tag tag_name s = None ->
            forall j, tag_at tag_name (skipn j s) = false.
Proof.
  induction s as [|c s IH]; intros H j; cbn [re_search_tag] in H.
  - destruct (tag_at tag_name []) eqn:E; [discriminate|].
    now rewrite skipn_nil.
  - destruct (tag_at tag_name (c :: s)) eqn:E; [discriminate|].
    destruct (re_search_tag tag_name s) eqn:Es; [discriminate|].
    destruct j as [|j]; [exact E|]. now apply IH.
Qed.

Lemma first_tag_from_unique (tag_name text : str) (from i j : nat) :
  first_tag_from tag_name text from i ->
  first_tag_from tag_name text from j -> i = j.
Proof.
  intros (Hi & Ti & Fi) (Hj & Tj & Fj).
  destruct (Nat.lt_trichotomy i j) as [L | [E | L]]; [|exact E|].
  - rewrite (Fj i) in Ti by lia. discriminate.
  - rewrite (Fi j) in Tj by lia. discriminate.
Qed.

Lemma re_search_tag_first (tag_name text : str) (from off : nat) :
  re_search_tag tag_name (slice_from text from) = Some off ->
  first_tag_from tag_name text from (off + from).
Proof.
  intros H. apply re_search_tag_Some in H as [H1 H2].
  unfold first_tag_from, tag_form_at, slice_from in *.
  rewrite skipn_skipn_add in H1. repeat split; [lia | exact H1 |].
  intros j Hj. replace j with ((j - from) + from) by lia.
  rewrite <- skipn_skipn_add. apply H2. lia.
Qed.

Lemma re_search_tag_absent (tag_name text : str) (from : nat) :
  re_search_tag tag_name (slice_from text from) = None <->
  forall j, from <= j -> tag_form_at tag_name text j = false.
Proof.
  split.
  - intros H j Hj. unfold tag_form_at, slice_from in *.
    replace j with ((j - from) + from) by lia.
    rewrite <- skipn_skipn_add. now apply re_search_tag_None.
  - intros H. destruct (re_search_tag _ _) as [off|] eqn:E; [|reflexivity].
    apply re_search_tag_first in E as (_ & T & _).
    rewrite H in T by lia. discriminate.
Qed.

Lemma re_search_tag_complete (tag_name text : str) (from i : nat) :
  first_tag_from tag_name text from i ->
  re_search_tag tag_name (slice_from text from) = Some (i - from).
Proof.
  intros F. destruct (re_search_tag _ _) as [off|] eqn:E.
  - apply re_search_tag_first in E.
    rewrite (first_tag_from_unique _ _ _ _ _ F E). f_equal. lia.
  - destruct F as (Hi & T & _).
    rewrite (proj1 (re_search_tag_absent _ _ _) E) in T by lia. discriminate.
Qed.

(** ** [find_tag], one turn of the loop at a time *)

Lemma tag_end_None (text : str) (i : nat) :
  tag_end text i = None ->
  index_ignore_quoted text ">" i = Raise (ValueError "not present").
Proof.
  unfold tag_end. destruct (index_ignore_quoted text ">" i) eqn:E;
    [discriminate|].
  intros _. f_equal. eapply index_ignore_quoted_gt_raises; eauto.
Qed.

Lemma tag_end_Some (text : str) (i e : nat) :
  tag_end text i = Some e ->
  index_ignore_quoted text ">" i = Ok (e - 1) /\ e - 1 + 1 = e.
Proof.
  unfold tag_end. destruct (index_ignore_quoted text ">" i) eqn:E;
    [|discriminate].
  intros [= <-]. split; [f_equal|]; lia.
Qed.

(** The character the closing test reads is always there. *)
Lemma closing_at_read (tag_name text : str) (i e : nat) :
  tag_form_at tag_name text i = true ->
  tag_end text i = Some e ->
  exists c, nth_error text (i + 1) = Some c /\
            closing_at text i = Ascii.eqb c "/" /\ i + 1 < e.
Proof.
  intros T E. apply tag_form_at_head in T.
  apply tag_end_bounds in E as [Hb Hg].
  assert (i <> e - 1) by (intros ->; rewrite T in Hg; discriminate).
  destruct (nth_error text (i + 1)) as [c|] eqn:Hc.
  - exists c. unfold closing_at. rewrite Hc. repeat split; lia.
  - apply nth_error_None in Hc. lia.
Qed.

Lemma find_tag_loop_absent (tag_name text : str) (fuel s hs : nat) :
  (forall j, hs <= j -> tag_form_at tag_name text j = false) ->
  find_tag_loop (S fuel) tag_name text s hs =
  if hs =? 0 then Ok None
  else Raise (DocumentError "opening tag with no matching close").
Proof.
  intros H. apply re_search_tag_absent in H. cbn [find_tag_loop]. now rewrite H.
Qed.

Lemma find_tag_loop_missing_gt (tag_name text : str) (fuel s hs i : nat) :
  first_tag_from tag_name text hs i ->
  tag_end text i = None ->
  find_tag_loop (S fuel) tag_name text s hs =
  Raise (DocumentError "missing `>`").
Proof.
  intros F E. pose proof F as (Hi & _). apply re_search_tag_complete in F.
  apply tag_end_None in E. cbn [find_tag_loop]. rewrite F.
  replace (i - hs + hs) with i by lia. now rewrite E.
Qed.

Lemma find_tag_loop_closing (tag_name text : str) (fuel s hs i e : nat) :
  first_tag_from tag_name text hs i ->
  tag_end text i = Some e ->
  closing_at text i = true ->
  find_tag_loop (S fuel) tag_name text s hs =
  if hs =? 0 then Raise (DocumentError "closing tag with no matching open")
  else Ok (Some (s, hs, i, e)).
Proof.
  intros F E C. pose proof F as (Hi & T & _).
  destruct (closing_at_read _ _ _ _ T E) as (c & Hc & Hcl & _).
  apply re_search_tag_complete in F. apply tag_end_Some in E as [E He].
  cbn [find_tag_loop]. rewrite F. replace (i - hs + hs) with i by lia.
  rewrite E, Hc, <- Hcl, C, He. reflexivity.
Qed.

Lemma find_tag_loop_opening (tag_name text : str) (fuel s hs i e : nat) :
  first_tag_from tag_name text hs i ->
  tag_end text i = Some e ->
  closing_at text i = false ->
  find_tag_loop (S fuel) tag_name text s hs =
  find_tag_loop fuel tag_name text i e.
Proof.
  intros F E C. pose proof F as (Hi & T & _).
  destruct (closing_at_read _ _ _ _ T E) as (c & Hc & Hcl & _).
  apply re_search_tag_complete in F. apply tag_end_Some in E as [E He].
  cbn [find_tag_loop]. rewrite F. replace (i - hs + hs) with i by lia.
  rewrite E, Hc, <- Hcl, C, He. reflexivity.
Qed.

(** Where the scan stands after some opening tags. *)
Lemma opened_bounds (tag_name text : str) (s hs : nat) :
  opened tag_name text s hs -> s < hs <= length text.
Proof.
  intros H. destruct H as [s hs _ _ E | s0 hs0 s hs _ _ _ E];
    apply tag_end_bounds in E; lia.
Qed.

(** What one turn finds at the state [(s, hs)]. *)
Lemma scan_cases (tag_name text : str) (hs : nat) :
  (forall j, hs <= j -> tag_form_at tag_name text j = false) \/
  exists i, first_tag_from tag_name text hs i.
Proof.
  destruct (re_search_tag tag_name (slice_from text hs)) as [off|] eqn:E.
  - right. eexists. eapply re_search_tag_first; eauto.
  - left. now apply re_search_tag_absent.
Qed.

(** From any state the scan can be in, with fuel for the rest of the
    text, the loop ends in one of the cases of [find_tag_spec]. *)
Lemma find_tag_loop_spec (tag_name text : str) :
  forall fuel s hs,
    length text < hs + fuel ->
    (s = 0 /\ hs = 0) \/ opened tag_name text s hs ->
    find_tag_spec tag_name text (find_tag_loop fuel tag_name text s hs).
Proof.
  induction fuel as [|fuel IH]; intros s hs Hf St.
  - destruct St as [[-> ->] | O]; [lia|]. apply opened_bounds in O. lia.
  - destruct (scan_cases tag_name text hs) as [A | [i F]].
    + rewrite find_tag_loop_absent by exact A.
      destruct St as [[-> ->] | O]; simpl.
      * apply spec_absent. intros i. apply A. lia.
      * pose proof (opened_bounds _ _ _ _ O).
        destruct (Nat.eqb_spec hs 0); [lia|]. now apply spec_unclosed with s hs.
    + destruct (tag_end text i) as [e|] eqn:E.
      * destruct (closing_at text i) eqn:C.
        -- rewrite (find_tag_loop_closing _ _ _ _ _ _ _ F E C).
           destruct St as [[-> ->] | O]; simpl.
           ++ apply spec_unopened with i; auto. congruence.
           ++ pose proof (opened_bounds _ _ _ _ O).
              destruct (Nat.eqb_spec hs 0); [lia|]. now apply spec_found.
        -- rewrite (find_tag_loop_opening _ _ _ _ _ _ _ F E C).
           pose proof (tag_end_bounds _ _ _ E). destruct F as (Hi & F').
           apply IH; [lia|]. right.
           destruct St as [[-> ->] | O].
           ++ apply opened_first; auto. split; auto.
           ++ eapply opened_next; eauto. split; auto.
      * rewrite (find_tag_loop_missing_gt _ _ _ _ _ _ F E).
        destruct St as [[-> ->] | O].
        -- now apply spec_missing_gt_first with i.
        -- now apply spec_missing_gt_next with s hs i.
Qed.

(** [find_tag] never runs out of fuel: it always ends in one of the cases
    of [find_tag_spec]. *)
Lemma find_tag_sound (tag_name text : str) :
  find_tag_spec tag_name text (find_tag tag_name text).
Proof.
  unfold find_tag. apply find_tag_loop_spec; [lia | now left].
Qed.

(** Fuel beyond what the rest of the text needs changes nothing. *)
Lemma find_tag_loop_fuel (tag_name text : str) :
  forall f1 f2 s hs,
    hs <= length text ->
    length text < hs + f1 -> length text < hs + f2 ->
    find_tag_loop f1 tag_name text s hs = find_tag_loop f2 tag_name text s hs.
Proof.
  induction f1 as [|f1 IH]; intros f2 s hs Hh H1 H2; [lia|].
  destruct f2 as [|f2]; [lia|].
  destruct (scan_cases tag_name text hs) as [A | [i F]].
  - now rewrite !find_tag_loop_absent.
  - destruct (tag_end text i) as [e|] eqn:E.
    + destruct (closing_at text i) eqn:C.
      * now rewrite !(find_tag_loop_closing _ _ _ _ _ _ _ F E C).
      * rewrite !(find_tag_loop_opening _ _ _ _ _ _ _ F E C).
        pose proof (tag_end_bounds _ _ _ E). destruct F as (Hi & _).
        apply IH; lia.
    + now rewrite !(find_tag_loop_missing_gt _ _ _ _ _ _ F E).
Qed.

(** The scan from the start passes through every state [opened]
    describes. *)
Lemma find_tag_reaches (tag_name text : str) (s hs : nat) :
  opened tag_name text s hs ->
  forall fuel, length text < hs + fuel ->
    find_tag tag_name text = find_tag_loop fuel tag_name text s hs.
Proof.
  unfold find_tag. induction 1 as [s hs F C E | s0 hs0 s hs O IH F C E];
    intros fuel Hf; pose proof (tag_end_bounds _ _ _ E).
  - rewrite (find_tag_loop_opening _ _ _ _ _ _ _ F E C).
    apply find_tag_loop_fuel; lia.
  - rewrite (IH (S (fuel + length text))) by lia.
    rewrite (find_tag_loop_opening _ _ _ _ _ _ _ F E C).
    apply find_tag_loop_fuel; lia.
Qed.

Lemma find_tag_complete (tag_name text : str) r :
  find_tag_spec tag_name text r -> find_tag tag_name text = r.
Proof.
  intros H. destruct H as [A | s hs he e O F C E | i F C E | s hs O A
                           | i F E | s hs i O F E].
  - unfold find_tag. rewrite find_tag_loop_absent; [reflexivity|].
    intros j _. apply A.
  - pose proof (opened_bounds _ _ _ _ O).
    rewrite (find_tag_reaches _ _ _ _ O (S (length text))) by lia.
    rewrite (find_tag_loop_closing _ _ _ _ _ _ _ F E C).
    destruct (Nat.eqb_spec hs 0); [lia | reflexivity].
  - destruct (tag_end text i) as [e|] eqn:E'; [|congruence].
    unfold find_tag. now rewrite (find_tag_loop_closing _ _ _ _ _ _ _ F E' C).
  - pose proof (opened_bounds _ _ _ _ O).
    rewrite (find_tag_reaches _ _ _ _ O (S (length text))) by lia.
    rewrite find_tag_loop_absent by exact A.
    destruct (Nat.eqb_spec hs 0); [lia | reflexivity].
  - unfold find_tag. now rewrite (find_tag_loop_missing_gt _ _ _ _ _ _ F E).
  - rewrite (find_tag_reaches _ _ _ _ O (S (length text))) by lia.
    now rewrite (find_tag_loop_missing_gt _ _ _ _ _ _ F E).
Qed.

Lemma find_tag_iff (tag_name text : str) r :
  find_tag tag_name text = r <-> find_tag_spec tag_name text r.
Proof.
  split.
  - intros <-. apply find_tag_sound.
  - apply find_tag_complete.
Qed.

Lemma slice_length (text : str) (a b : nat) :
  a <= b <= length text -> length (slice text a b) = b - a.
Proof.
  intros H. unfold slice. rewrite length_firstn, length_skipn. lia.
Qed.

(** For a tag name that does not start with [/], the test [find_tag]
    applies singles out the places where the closing form stands. *)
Lemma closing_at_closing_form (tag_name text : str) (i : nat) :
  starts_with "/" tag_name = false ->
  tag_form_at tag_name text i = true ->
  closing_at text i = starts_with (lit "</" ++ tag_name) (slice_from text i).
Proof.
  unfold tag_form_at, tag_at, closing_at, slice_from. intros Hn T.
  rewrite <- (nth_error_skipn i text 1).
  destruct (skipn i text) as [|a [|b r]];
    cbn [starts_with lit String.list_ascii_of_string app nth_error] in *.
  - discriminate.
  - destruct (Ascii.eqb "<" a); [|discriminate].
    rewrite andb_false_r in *. reflexivity.
  - destruct (Ascii.eqb "<" a); [|discriminate].
    cbn [andb orb] in *. rewrite (Ascii.eqb_sym "/" b).
    destruct (Ascii.eqb_spec b "/") as [->|Hb]; cbn [andb orb] in *.
    + destruct tag_name as [|c n]; [reflexivity|].
      cbn [starts_with] in *. rewrite andb_true_r in Hn.
      rewrite (Ascii.eqb_sym c "/"), Hn, Ascii.eqb_refl in T.
      cbn [andb orb] in T. rewrite orb_false_r in T. exact (eq_sym T).
    + reflexivity.
Qed.

Lemma find_tag_absent_iff (tag_name text : str) :
  find_tag tag_name text = Ok None <->
  forall i, tag_form_at tag_name text i = false.
Proof.
  split; intros H.
  - apply find_tag_iff in H. now inversion H.
  - apply find_tag_iff. now constructor.
Qed.

Lemma find_tag_bounds (tag_name text : str) (s hs he e : nat) :
  find_tag tag_name text = Ok (Some (s, hs, he, e)) ->
  s < hs /\ hs <= he /\ he < e /\ e <= length text.
Proof.
  intros H. apply find_tag_iff in H.
  inversion H as [| ? ? ? ? O F C E | | | |]; subst.
  apply opened_bounds in O. destruct F as (Hh & _).
  apply tag_end_bounds in E as [E _]. lia.
Qed.

(** ** The claims about the tag locator *)

(** C10.  Whenever [find_tag] returns a tuple
    [(start, html_start, html_end, end)], the offsets are ordered,
    [0 <= start < html_start <= html_end < end <= len(text)], so the
    slices for the opening tag, the inner content and the whole usage
    span have the lengths their bounds announce. *)
Theorem find_tag_offsets_ordered (tag_name text : str) (s hs he e : nat) :
  find_tag tag_name text = Ok (Some (s, hs, he, e)) ->
  0 <= s /\ s < hs /\ hs <= he /\ he < e /\ e <= length text /\
  length (slice text s hs) = hs - s /\
  length (slice text hs he) = he - hs /\
  length (slice text s e) = e - s.
Proof.
  intros H. apply find_tag_bounds in H.
  repeat split; try lia; apply slice_length; lia.
Qed.

Lemma find_tag_offsets_ordered_witness :
  let text : str := "a<--template>b</--template>c" in
  0 <= 1 /\ 1 < 13 /\ 13 <= 14 /\ 14 < 27 /\ 27 <= length text /\
  length (slice text 1 13) = 13 - 1 /\
  length (slice text 13 14) = 14 - 13 /\
  length (slice text 1 27) = 27 - 1.
Proof.
  apply (find_tag_offsets_ordered "--template" "a<--template>b</--template>c").
  vm_compute. reflexivity.
Defined.

(** C7, as the code has it.  [find_tag] always ends in one of five ways.
    It returns not-found when and only when no form of the tag occurs.
    It returns four offsets exactly when the scan met opening forms only,
    the last at [start] with content from [html_start], and the first
    form from [html_start] on is a closing one at [html_end], ended by a
    [>] just before [end]; no form of the tag lies inside the content, so
    the occurrence is an innermost one.  It raises the missing [>] error
    exactly when the form just met, opening or closing, has no [>] after
    it outside quotes; this test comes first, so the error for a closing
    tag with no matching open is raised exactly when the first form of
    the text is a closing one that does have its [>].  It raises the error
    for an opening tag with no matching close exactly when, after one or
    more opening forms, no form follows the last opening tag. *)
Theorem find_tag_outcomes (tag_name text : str) :
  (find_tag tag_name text = Ok None <->
   forall i, tag_form_at tag_name text i = false) /\
  (forall s hs he e,
     find_tag tag_name text = Ok (Some (s, hs, he, e)) <->
     opened tag_name text s hs /\ first_tag_from tag_name text hs he /\
     closing_at text he = true /\ tag_end text he = Some e) /\
  (find_tag tag_name text =
     Raise (DocumentError "closing tag with no matching open") <->
   exists i, first_tag_from tag_name text 0 i /\
             closing_at text i = true /\ tag_end text i <> None) /\
  (find_tag tag_name text =
     Raise (DocumentError "opening tag with no matching close") <->
   exists s hs, opened tag_name text s hs /\
                forall j, hs <= j -> tag_form_at tag_name text j = false) /\
  (find_tag tag_name text = Raise (DocumentError "missing `>`") <->
   exists i, (first_tag_from tag_name text 0 i \/
              exists s hs, opened tag_name text s hs /\
                           first_tag_from tag_name text hs i) /\
             tag_end text i = None) /\
  (find_tag tag_name text = Ok None \/
   (exists s hs he e, find_tag tag_name text = Ok (Some (s, hs, he, e))) \/
   find_tag tag_name text =
     Raise (DocumentError "closing tag with no matching open") \/
   find_tag tag_name text =
     Raise (DocumentError "opening tag with no matching close") \/
   find_tag tag_name text = Raise (DocumentError "missing `>`")).
Proof.
  split; [|split; [|split; [|split; [|split]]]].
  - apply find_tag_absent_iff.
  - intros s hs he e. split.
    + intros H. apply find_tag_iff in H. now inversion H.
    + intros (O & F & C & E). apply find_tag_iff. now constructor.
  - split.
    + intros H. apply find_tag_iff in H. inversion H; eauto.
    + intros (i & F & C & E). apply find_tag_iff. eapply spec_unopened; eauto.
  - split.
    + intros H. apply find_tag_iff in H. inversion H; eauto.
    + intros (s & hs & O & A). apply find_tag_iff. eapply spec_unclosed; eauto.
  - split.
    + intros H. apply find_tag_iff in H. inversion H; eauto 8.
    + intros (i & [F | (s & hs & O & F)] & E); apply find_tag_iff.
      * eapply spec_missing_gt_first; eauto.
      * eapply spec_missing_gt_next; eauto.
  - destruct (find_tag_sound tag_name text); eauto 10.
Qed.

Lemma find_tag_outcomes_witness :
  let text : str := "a<--template>b</--template>c" in
  opened "--template" text 1 13 /\
  first_tag_from "--template" text 13 14 /\
  closing_at text 14 = true /\ tag_end text 14 = Some 27.
Proof.
  apply (proj1 (proj1 (proj2 (find_tag_outcomes "--template"
                                "a<--template>b</--template>c"))
                 1 13 14 27)).
  vm_compute. reflexivity.
Defined.

(** C7, as stated, fails on a text that is a closing form with no [>]:
    a closing form is met before any opening form, and the error raised
    is the one for a missing [>], not the one for a closing tag with no
    matching open. *)
Lemma find_tag_closing_first_without_gt :
  let text : str := "</--template" in
  (exists i, first_tag_from "--template" text 0 i /\ closing_at text i = true) /\
  find_tag "--template" text = Raise (DocumentError "missing `>`") /\
  find_tag "--template" text <>
    Raise (DocumentError "closing tag with no matching open").
Proof.
  cbv zeta. split; [|split].
  - exists 0. split; [|reflexivity].
    split; [lia|]. split; [reflexivity | intros j Hj; lia].
  - vm_compute. reflexivity.
  - vm_compute. discriminate.
Qed.

(** C8.  On the example of the specification, a [--field] tag whose
    [--name] value is [a>b], the scan passes over the [>] inside the
    quoted value: the tag ends at offset 22, just after its last
    character.  Inside a quoted value, however, a quote character closes
    the quote whether or not a backslash precedes it (only the test that
    opens a quote looks at the preceding character): when the value is
    [a], backslash, double quote, [>b], the scan stops at the [>] of
    offset 20, inside the value, and not at the final one of offset 23. *)
Theorem index_ignore_quoted_escaped_quote_closes :
  index_ignore_quoted (lit "<--field --name=" ++ dq "a>b" ++ lit ">") ">" 0
    = Ok 21 /\
  let text := lit "<--field --name=" ++ dq (lit "a\" ++ [dquote] ++ lit ">b")
              ++ lit ">" in
  length text = 24 /\
  nth_error text 18 = Some backslash /\
  nth_error text 19 = Some dquote /\
  index_ignore_quoted text ">" 0 = Ok 20.
Proof. vm_compute. repeat split. Qed.

(** ** The build planner: freshness *)

Lemma max_by_mtime_fold (l : list File) :
  forall d, mtime (max_by_mtime d l) = fold_left Z.max (map mtime l) (mtime d).
Proof.
  unfold max_by_mtime. induction l as [|x l IH]; intros d; simpl; [reflexivity|].
  destruct (Z.ltb_spec (mtime d) (mtime x)); rewrite IH; f_equal; lia.
Qed.

Lemma fold_left_max_out (l : list Z) :
  forall a x, fold_left Z.max l (Z.max a x) = Z.max x (fold_left Z.max l a).
Proof.
  induction l as [|y l IH]; intros a x; simpl; [lia|].
  replace (Z.max (Z.max a x) y) with (Z.max (Z.max a y) x) by lia. apply IH.
Qed.

Lemma fold_left_max_right (l : list Z) :
  forall a, fold_left Z.max l a = fold_right Z.max a l.
Proof.
  induction l as [|x l IH]; intros a; simpl; [reflexivity|].
  now rewrite fold_left_max_out, IH.
Qed.

(** [max] with the key [mtime] picks a file of greatest modification
    time. *)
Lemma max_by_mtime_newest (build : PageBuild) :
  mtime (max_by_mtime (src build) (Dict.values (templates build)))
  = newest_mtime build.
Proof.
  unfold newest_mtime. rewrite max_by_mtime_fold. apply fold_left_max_right.
Qed.

(** [newest_mtime] is a maximum: it is one of the times, and none of them
    exceeds it. *)
Lemma newest_mtime_is_max (build : PageBuild) :
  let times := mtime (src build)
               :: map mtime (Dict.values (templates build)) in
  In (newest_mtime build) times /\
  forall t, In t times -> (t <= newest_mtime build)%Z.
Proof.
  unfold newest_mtime. generalize (mtime (src build)) as a.
  generalize (map mtime (Dict.values (templates build))) as l.
  induction l as [|x l IH]; intros a; simpl.
  - split; [now left | intros t [<- | []]; lia].
  - destruct (IH a) as [Hin Hle]. simpl in Hin, Hle. split.
    + destruct (Z.max_spec x (fold_right Z.max a l)) as [[_ ->] | [_ ->]].
      * destruct Hin as [<- | Hin]; [now left | now right; right].
      * now right; left.
    + intros t [<- | [<- | Ht]].
      * specialize (Hle a (or_introl eq_refl)). lia.
      * lia.
      * specialize (Hle t (or_intror Ht)). lia.
Qed.

(** C1.  A build with an existing output is kept for rebuilding if and
    only if the force-rebuild flag is set or the greatest modification
    time over its source and its templates is strictly greater than that
    of the output; a build with no output is always kept; with equal
    times and no flag it is not kept.  The planner returns exactly the
    builds that pass this test. *)
Theorem is_required_freshness (force_rebuild : bool) (build : PageBuild) :
  (forall old, replace build = Some old ->
     (is_required force_rebuild build = true <->
      force_rebuild = true \/ (mtime old < newest_mtime build)%Z)) /\
  (replace build = None -> is_required force_rebuild build = true) /\
  (forall old, replace build = Some old -> force_rebuild = false ->
     newest_mtime build = mtime old ->
     is_required force_rebuild build = false) /\
  (forall src_pages built_files templates_list out builds,
     create_page_builds src_pages built_files templates_list out force_rebuild
       = Ok builds ->
     forall b, In b builds -> is_required force_rebuild b = true).
Proof.
  unfold is_required. rewrite max_by_mtime_newest.
  split; [|split; [|split]].
  - intros old ->. destruct force_rebuild.
    + split; auto.
    + rewrite Z.ltb_lt. split; [now right | intros [H | H]; [discriminate | exact H]].
  - intros ->. now destruct force_rebuild.
  - intros old -> -> ->. apply Z.ltb_irrefl.
  - intros src_pages built_files templates_list out builds H b Hb.
    unfold create_page_builds in H.
    destruct (map_result _ src_pages) as [pbs|]; simpl in H; [|discriminate].
    injection H as <-. apply filter_In in Hb as [_ Hb]. exact Hb.
Qed.

Lemma is_required_freshness_witness :
  let file := fun t => mkFile "p" "index.html" t (Document "x") in
  let build := fun s t o =>
    mkPageBuild (file s) "out" (Some (file o)) [(lit "card", file t)] (Some None) in
  is_required false (build 7 9 8)%Z = true /\
  is_required false (build 7 8 8)%Z = false /\
  is_required true (build 7 8 8)%Z = true /\
  is_required false (mkPageBuild (file 7%Z) "out" None [] None) = true.
Proof.
  cbv zeta. split; [|split; [|split]];
    match goal with
    | |- is_required ?f ?b = _ =>
      destruct (is_required_freshness f b) as (H1 & H2 & H3 & _)
    end.
  - apply (H1 _ eq_refl). right. vm_compute. reflexivity.
  - apply (H3 _ eq_refl); reflexivity.
  - apply (H1 _ eq_refl). now left.
  - apply H2. reflexivity.
Defined.

(** ** The field resolver: sorting and splicing *)

Lemma insert_by_start_perm (m : mapping) (l : list mapping) :
  Permutation (m :: l) (insert_by_start m l).
Proof.
  induction l as [|x l IH]; simpl; [reflexivity|].
  destruct (m_start m <=? m_start x); [reflexivity|].
  rewrite perm_swap. now constructor.
Qed.

Lemma sort_by_start_perm (l : list mapping) : Permutation l (sort_by_start l).
Proof.
  induction l as [|m l IH]; simpl; [reflexivity|].
  rewrite <- insert_by_start_perm. now constructor.
Qed.

Lemma insert_by_start_sorted (m : mapping) (l : list mapping) :
  Sorted by_start l -> Sorted by_start (insert_by_start m l).
Proof.
  induction 1 as [|x l Hs IH Hx]; simpl; [repeat constructor|].
  destruct (Nat.leb_spec (m_start m) (m_start x)).
  - repeat constructor; assumption.
  - constructor; [exact IH|].
    destruct l as [|y l]; simpl.
    + repeat constructor. unfold by_start. lia.
    + destruct (Nat.leb_spec (m_start m) (m_start y)); constructor.
      * unfold by_start. lia.
      * now inversion Hx.
Qed.

Lemma sort_by_start_sorted (l : list mapping) : Sorted by_start (sort_by_start l).
Proof.
  induction l as [|m l IH]; simpl; [constructor|].
  now apply insert_by_start_sorted.
Qed.

Lemma concat_chars (parts : list str) (l : str) :
  concat (parts ++ map (fun c => [c]) l) = concat parts ++ l.
Proof.
  rewrite concat_app. f_equal. induction l as [|c l IH]; simpl; congruence.
Qed.

Lemma chained_overlapping (subs : list mapping) :
  forall cursor,
    (match subs with [] => True | m :: _ => cursor <= m_start m end) ->
    chained cursor subs <-> ~ overlapping subs.
Proof.
  induction subs as [|m rest IH]; intros cursor Hc; simpl.
  - split; [|tauto]. intros _ (l1 & a & b & l2 & E & _).
    destruct l1; discriminate.
  - destruct rest as [|m' rest].
    + split; [|simpl; tauto]. intros _ (l1 & a & b & l2 & E & _).
      destruct l1 as [|? [|? ?]]; discriminate.
    + split.
      * intros [_ H] (l1 & a & b & l2 & E & L).
        pose proof H as [H1 _].
        destruct l1 as [|x l1]; simpl in E.
        -- injection E as <- <- <-. lia.
        -- injection E as <- E. apply (IH (m_end m)) in H; [|exact H1].
           apply H. now exists l1, a, b, l2.
      * intros N. split; [exact Hc|].
        assert (m_end m <= m_start m') as Hle.
        { destruct (Nat.le_gt_cases (m_end m) (m_start m')); [assumption|].
          exfalso. apply N. now exists [], m, m', rest. }
        apply IH; [exact Hle|].
        intros (l1 & a & b & l2 & E & L). apply N.
        exists (m :: l1), a, b, l2. simpl. now rewrite E.
Qed.

Lemma splice_loop_overlap (template : File) (text : str) (subs : list mapping) :
  forall cursor parts,
    ~ chained cursor subs ->
    splice_loop template text cursor parts subs
    = Raise (doc_err template "overlapping tags").
Proof.
  induction subs as [|m rest IH]; intros cursor parts N; simpl in *; [tauto|].
  destruct (Nat.ltb_spec (m_start m) cursor); [reflexivity|].
  apply IH. tauto.
Qed.

Lemma splice_loop_chained (template : File) (text : str) (subs : list mapping) :
  forall cursor parts,
    chained cursor subs ->
    exists r, splice_loop template text cursor parts subs = Ok r.
Proof.
  induction subs as [|m rest IH]; intros cursor parts C; simpl in *; [eauto|].
  destruct C as [C1 C2]. destruct (Nat.ltb_spec (m_start m) cursor); [lia|].
  now apply IH.
Qed.

Lemma replace_ranges_prefix (text : str) (subs : list mapping) :
  forall k,
    chained k subs -> ranges_in text subs -> k <= length text ->
    firstn k (replace_ranges text subs) = firstn k text.
Proof.
  induction subs as [|m rest IH]; intros k C W Hk; simpl; [reflexivity|].
  destruct C as [C1 C2]. inversion W as [|? ? [W1 W2] W']; subst.
  unfold replace_range, slice. rewrite Nat.sub_0_r. simpl skipn.
  assert (firstn (m_start m) (replace_ranges text rest)
          = firstn (m_start m) text) as E.
  { rewrite <- (Nat.min_l (m_start m) (m_end m)) by lia.
    rewrite <- !firstn_firstn. f_equal. now apply IH. }
  rewrite E, firstn_app, length_firstn.
  replace (k - Nat.min (m_start m) (length text)) with 0 by lia.
  rewrite firstn_O, app_nil_r, firstn_firstn. f_equal. lia.
Qed.

Lemma splice_loop_replace (template : File) (text : str) (subs : list mapping) :
  forall cursor parts,
    chained cursor subs -> ranges_in text subs -> cursor <= length text ->
    splice_loop template text cursor parts subs
    = Ok (concat parts ++ skipn cursor (replace_ranges text subs)).
Proof.
  induction subs as [|m rest IH]; intros cursor parts C W Hc; simpl.
  - now rewrite concat_chars.
  - destruct C as [C1 C2]. inversion W as [|? ? [W1 W2] W']; subst.
    destruct (Nat.ltb_spec (m_start m) cursor); [lia|].
    rewrite IH by assumption. f_equal.
    rewrite concat_app. simpl. rewrite app_nil_r, <- !app_assoc. f_equal.
    unfold replace_range, slice at 2. rewrite Nat.sub_0_r. simpl skipn.
    assert (firstn (m_start m) (replace_ranges text rest)
            = firstn (m_start m) text) as E.
    { rewrite <- (Nat.min_l (m_start m) (m_end m)) by lia.
      rewrite <- !firstn_firstn. f_equal. now apply replace_ranges_prefix. }
    rewrite E, skipn_app, length_firstn.
    replace (cursor - Nat.min (m_start m) (length text)) with 0 by lia.
    simpl skipn. f_equal. unfold slice.
    rewrite firstn_skipn_comm. f_equal. f_equal. lia.
Qed.

(** C6.  The ranges are sorted by their start.  If, in that order, some
    range starts strictly before the end of the one before it, the splice
    raises the overlapping-tags defect; otherwise it succeeds (ranges that
    touch are not an error), and for ranges that lie within the text its
    result is the text with each range replaced by its replacement. *)
Theorem splice_overlap_guard (template : File) (text : str) (subs : list mapping) :
  let sorted := sort_by_start subs in
  Permutation subs sorted /\ Sorted by_start sorted /\
  (overlapping sorted ->
   splice template text subs
   = Raise (DocumentError
              (lit "template " ++ relpath template ++ lit ": overlapping tags"))) /\
  (~ overlapping sorted -> exists r, splice template text subs = Ok r) /\
  (~ overlapping sorted -> ranges_in text subs ->
   splice template text subs = Ok (replace_ranges text sorted)).
Proof.
  intros sorted.
  assert (chained 0 sorted <-> ~ overlapping sorted) as Hc.
  { apply chained_overlapping. destruct sorted; [exact I | lia]. }
  split; [apply sort_by_start_perm|].
  split; [apply sort_by_start_sorted|].
  split; [|split].
  - intros O. unfold splice. fold sorted. rewrite splice_loop_overlap; [reflexivity|].
    intros C. now apply Hc in C.
  - intros N. apply splice_loop_chained. now apply Hc.
  - intros N W. unfold splice. fold sorted.
    rewrite splice_loop_replace; [reflexivity | now apply Hc | | lia].
    unfold ranges_in in *. rewrite Forall_forall in *. intros m Hm.
    apply W. eapply Permutation_in; [|exact Hm].
    symmetry. apply sort_by_start_perm.
Qed.

Lemma splice_overlap_guard_witness :
  let t := mkFile "t/t.html" "t.html" 5 (Document "abcdef") in
  splice t "abcdef" [mkMapping 3 5 "Y"; mkMapping 1 3 "X"]
  = Ok (replace_ranges "abcdef" [mkMapping 1 3 "X"; mkMapping 3 5 "Y"]) /\
  replace_ranges "abcdef" [mkMapping 1 3 "X"; mkMapping 3 5 "Y"] = lit "aXYf" /\
  splice t "abcdef" [mkMapping 2 5 "Y"; mkMapping 1 3 "X"]
  = Raise (DocumentError "template t.html: overlapping tags").
Proof.
  cbv zeta. split; [|split].
  - apply (proj2 (proj2 (proj2 (proj2
             (splice_overlap_guard _ "abcdef"
                [mkMapping 3 5 "Y"; mkMapping 1 3 "X"]))))).
    + apply (chained_overlapping _ 0); simpl; lia.
    + repeat constructor; simpl; lia.
  - reflexivity.
  - apply (proj1 (proj2 (proj2
             (splice_overlap_guard
                (mkFile "t/t.html" "t.html" 5 (Document "abcdef")) "abcdef"
                [mkMapping 2 5 "Y"; mkMapping 1 3 "X"])))).
    exists [], (mkMapping 1 3 "X"), (mkMapping 2 5 "Y"), [].
    split; [reflexivity | simpl; lia].
Defined.

(** ** The attribute parser never runs out of fuel *)

Lemma drop_while_length (p : ascii -> bool) (s : str) :
  length (drop_while p s) <= length s.
Proof.
  induction s as [|c s IH]; simpl; [lia|]. destruct (p c); simpl; lia.
Qed.

Lemma match_attribute_shorter (text name value rest : str) :
  match_attribute text = Some (name, value, rest) ->
  length rest < length text.
Proof.
  unfold match_attribute.
  destruct (take_while is_attr_char text); [discriminate|].
  pose proof (drop_while_length is_attr_char text) as H1.
  pose proof (drop_while_length is_space (drop_while is_attr_char text)) as H2.
  destruct (drop_while is_space (drop_while is_attr_char text)) as [|c r];
    [discriminate|].
  destruct (Ascii.eqb c "="); [|discriminate].
  pose proof (drop_while_length is_space r) as H3.
  destruct (drop_while is_space r) as [|q r']; [discriminate|].
  destruct (Ascii.eqb q dquote); [|discriminate].
  pose proof (drop_while_length (fun x => negb (Ascii.eqb x dquote)) r') as H4.
  destruct (drop_while (fun x => negb (Ascii.eqb x dquote)) r') as [|q' r''];
    [discriminate|].
  intros [= _ _ <-]. pose proof (drop_while_length is_space r'') as H5.
  simpl in *. lia.
Qed.

Lemma parse_attributes_loop_total (tag : str) :
  forall fuel text ret,
    length text < fuel ->
    parse_attributes_loop fuel tag text ret <> Raise FuelExhausted.
Proof.
  induction fuel as [|fuel IH]; intros text ret Hf; [lia|]. simpl.
  destruct text as [|c text]; [discriminate|].
  destruct (match_attribute (c :: text)) as [[[name value] rest]|] eqn:E;
    [|discriminate].
  apply IH. apply match_attribute_shorter in E. lia.
Qed.

Lemma parse_attributes_total (tag : str) :
  parse_attributes tag <> Raise FuelExhausted.
Proof.
  unfold parse_attributes. destruct (subn_tag tag) as [text n].
  destruct (n =? 2); [|discriminate].
  apply parse_attributes_loop_total. lia.
Qed.

(** ** The field resolver: the value of a placeholder *)

(** The value of a field tag whose attributes parse. *)
Lemma get_field_value_cases (template : File) (fields_provided : Dict.t str)
    (field_tag : str) (attrs : Dict.t str) :
  parse_attributes field_tag = Ok attrs ->
  get_field_value template fields_provided field_tag =
  match Dict.get "--name" attrs with
  | None =>
    Raise (BuildError
             (lit "[ " ++ path template ++ lit " ] "
              ++ lit "a field tag is missing the attribute `--name`"))
  | Some field_name =>
    match Dict.get field_name fields_provided with
    | Some value => Ok value
    | None =>
      match Dict.get "--default" attrs with
      | Some default => Ok default
      | None =>
        Raise (DocumentError
                 (lit "template " ++ relpath template ++ lit ": "
                  ++ lit "field `" ++ field_name ++ lit "` required"))
      end
    end
  end.
Proof.
  intros H. unfold get_field_value, get_field_dict, Dict.mem. rewrite H.
  cbn [bind]. destruct (Dict.get "--name" attrs) as [name|] eqn:E.
  - cbn [bind]. rewrite E. reflexivity.
  - reflexivity.
Qed.

(** ** Dictionaries *)

Lemma dict_get_set_same {V} (k : str) (v : V) (d : Dict.t V) :
  Dict.get k (Dict.set k v d) = Some v.
Proof.
  induction d as [|[k' v'] d IH]; simpl.
  - now rewrite str_eqb_refl.
  - destruct (str_eqb k k') eqn:E; simpl; rewrite E; [reflexivity | exact IH].
Qed.

Lemma dict_get_set_other {V} (k k' : str) (v : V) (d : Dict.t V) :
  k <> k' -> Dict.get k (Dict.set k' v d) = Dict.get k d.
Proof.
  intros N. induction d as [|[k2 v2] d IH]; simpl.
  - apply str_eqb_neq in N. now rewrite N.
  - destruct (str_eqb k' k2) eqn:E; simpl.
    + apply str_eqb_eq in E. subst k2. apply str_eqb_neq in N. now rewrite N.
    + destruct (str_eqb k k2); [reflexivity | exact IH].
Qed.

Lemma dict_get_None {V} (k : str) (d : Dict.t V) :
  Dict.get k d = None <-> ~ In k (Dict.keys d).
Proof.
  induction d as [|[k' v'] d IH]; simpl; [tauto|].
  destruct (str_eqb k k') eqn:E.
  - apply str_eqb_eq in E. subst. split; [discriminate | tauto].
  - apply str_eqb_neq in E. rewrite IH. split; [intros H [?|?]; auto | tauto].
Qed.

Lemma dict_set_keys {V} (k : str) (v : V) (d : Dict.t V) :
  Dict.keys (Dict.set k v d)
  = if Dict.mem k d then Dict.keys d else Dict.keys d ++ [k].
Proof.
  unfold Dict.mem. induction d as [|[k' v'] d IH]; simpl; [reflexivity|].
  destruct (str_eqb k k') eqn:E; simpl; [reflexivity|].
  rewrite IH. now destruct (Dict.get k d).
Qed.

Lemma dict_set_nodup {V} (k : str) (v : V) (d : Dict.t V) :
  NoDup (Dict.keys d) -> NoDup (Dict.keys (Dict.set k v d)).
Proof.
  intros H. rewrite dict_set_keys. unfold Dict.mem.
  destruct (Dict.get k d) eqn:E; [exact H|].
  apply dict_get_None in E. apply NoDup_app; [exact H | repeat constructor; auto |].
  intros x Hx [<- | []]. contradiction.
Qed.

Lemma parse_attributes_loop_nodup (tag : str) :
  forall fuel text ret attrs,
    NoDup (Dict.keys ret) ->
    parse_attributes_loop fuel tag text ret = Ok attrs ->
    NoDup (Dict.keys attrs).
Proof.
  induction fuel as [|fuel IH]; intros text ret attrs N H; simpl in H;
    [discriminate|].
  destruct text as [|c text]; [now injection H as <-|].
  destruct (match_attribute (c :: text)) as [[[name value] rest]|];
    [|discriminate].
  eapply IH; [|exact H]. now apply dict_set_nodup.
Qed.

(** The attribute parser returns a dictionary: no key occurs twice. *)
Lemma parse_attributes_nodup (tag : str) (attrs : Dict.t str) :
  parse_attributes tag = Ok attrs -> NoDup (Dict.keys attrs).
Proof.
  unfold parse_attributes. destruct (subn_tag tag) as [text n].
  destruct (n =? 2); [|discriminate].
  apply parse_attributes_loop_nodup. constructor.
Qed.

(** ** The field mapping of a usage *)

Lemma split_on_length (sep : ascii) (s : str) :
  length (split_on sep s) = S (count_occ ascii_dec s sep).
Proof.
  induction s as [|c s IH]; simpl; [reflexivity|].
  destruct (Ascii.eqb_spec c sep) as [->|N].
  - destruct (ascii_dec sep sep); [|contradiction]. simpl. now rewrite IH.
  - destruct (ascii_dec c sep); [contradiction|].
    destruct (split_on sep s); simpl in *; lia.
Qed.

Lemma split_on_no_colon (p : str) :
  colons p = 0 -> split_on ":" p = [p].
Proof.
  unfold colons. induction p as [|c p IH]; simpl; [reflexivity|].
  destruct (Ascii.eqb_spec c ":") as [->|N].
  - destruct (ascii_dec ":" ":"); [discriminate | contradiction].
  - destruct (ascii_dec c ":"); [contradiction|]. intros H. now rewrite IH.
Qed.

Lemma split_on_one_colon (p : str) :
  colons p = 1 ->
  split_on ":" p = [take_while not_colon p; tl (drop_while not_colon p)].
Proof.
  unfold colons, not_colon. induction p as [|c p IH]; simpl; [discriminate|].
  destruct (Ascii.eqb_spec c ":") as [->|N]; simpl.
  - destruct (ascii_dec ":" ":"); [|contradiction]. intros [= H].
    now rewrite (split_on_no_colon p H).
  - destruct (ascii_dec c ":"); [contradiction|]. intros H. now rewrite IH.
Qed.

Lemma bulk_fields_ok (parts : list str) :
  forall fields,
    Forall (fun p => colons p = 1) parts ->
    bulk_fields parts fields = Ok (fold_left set_part parts fields).
Proof.
  induction parts as [|p parts IH]; intros fields F; simpl; [reflexivity|].
  inversion F as [|? ? Hp F']; subst.
  rewrite (split_on_one_colon p Hp). now rewrite IH.
Qed.

Lemma bulk_fields_error (parts : list str) :
  forall fields,
    Exists (fun p => colons p <> 1) parts ->
    exists p, In p parts /\ colons p <> 1 /\
      bulk_fields parts fields
      = Raise (DocumentError (lit "couldn't parse field `" ++ p ++ lit "`")).
Proof.
  induction parts as [|p parts IH]; intros fields E; [inversion E|].
  destruct (Nat.eq_dec (colons p) 1) as [Hp | Hp].
  - assert (Exists (fun p => colons p <> 1) parts) as E'
      by (inversion E; [contradiction | assumption]).
    simpl. rewrite (split_on_one_colon p Hp).
    destruct (IH (Dict.set (strip (take_while not_colon p))
                    (strip (tl (drop_while not_colon p))) fields) E')
      as (q & Hq & Cq & R).
    exists q. repeat split; [now right | exact Cq | exact R].
  - exists p. repeat split; [now left | exact Hp |].
    simpl. pose proof (split_on_length ":" p) as L. fold (colons p) in L.
    destruct (split_on ":" p) as [|a [|b [|c l]]]; simpl in L;
      try reflexivity. lia.
Qed.

Lemma fold_set_part_get (parts : list str) (k : str) :
  forall fields,
    Dict.get k (fold_left set_part parts fields)
    = match bulk_lookup parts k with
      | Some v => Some v
      | None => Dict.get k fields
      end.
Proof.
  induction parts as [|p parts IH]; intros fields; simpl; [reflexivity|].
  rewrite IH. destruct (bulk_lookup parts k); [reflexivity|].
  unfold set_part. destruct (str_eqb (part_name p) k) eqn:E.
  - apply str_eqb_eq in E. subst k. apply dict_get_set_same.
  - apply str_eqb_neq in E. apply dict_get_set_other. congruence.
Qed.

Lemma starts_with_dollar (name : str) :
  starts_with "$" name = true -> name = "$"%char :: skipn 1 name.
Proof.
  destruct name as [|c name]; simpl; [discriminate|].
  rewrite andb_true_r. intros H. apply Ascii.eqb_eq in H. now subst.
Qed.

Lemma dollar_fields_get (attr : Dict.t str) (k : str) :
  NoDup (Dict.keys attr) ->
  forall fields,
    Dict.get k (dollar_fields attr fields)
    = match Dict.get ("$"%char :: k) attr with
      | Some v => Some v
      | None => Dict.get k fields
      end.
Proof.
  unfold dollar_fields, Dict.items.
  induction attr as [|[name value] attr IH]; intros N fields; [reflexivity|].
  inversion N as [|? ? Hn N']; subst. cbn [fold_left Dict.get].
  rewrite (IH N'). destruct (str_eqb ("$"%char :: k) name) eqn:E.
  - apply str_eqb_eq in E. subst name.
    apply dict_get_None in Hn. rewrite Hn.
    cbn [starts_with lit String.list_ascii_of_string skipn].
    rewrite Ascii.eqb_refl. apply dict_get_set_same.
  - destruct (Dict.get ("$"%char :: k) attr); [reflexivity|].
    destruct (starts_with "$" name) eqn:S; [|reflexivity].
    apply starts_with_dollar in S. apply str_eqb_neq in E.
    apply dict_get_set_other. intros ->. congruence.
Qed.

(** C9, as the code has it.  The parts of the bulk attribute are those of
    a [--fields] value that is not empty; an empty value is passed over
    like a missing one.  If some part has more or fewer than one colon,
    building the mapping raises the defect for such a part.  Otherwise
    the mapping gives each name the value of the [$] attribute of that
    name if the tag has one, and else the trimmed value of the last part
    whose trimmed name it is.  Apart from the empty value, this is the
    mapping the specification words. *)
Theorem usage_fields_merge (tag : str) (attr : Dict.t str) :
  parse_attributes tag = Ok attr ->
  let parts := match Dict.get "--fields" attr with
               | Some (c :: s) => split_on ";" (c :: s)
               | _ => []
               end in
  (Exists (fun p => colons p <> 1) parts ->
   exists p, In p parts /\ colons p <> 1 /\
     usage_fields attr
     = Raise (DocumentError (lit "couldn't parse field `" ++ p ++ lit "`"))) /\
  (Forall (fun p => colons p = 1) parts ->
   exists fields, usage_fields attr = Ok fields /\
     forall k, Dict.get k fields
               = match Dict.get ("$"%char :: k) attr with
                 | Some v => Some v
                 | None => bulk_lookup parts k
                 end) /\
  (Dict.get "--fields" attr <> Some [] ->
   usage_fields attr = usage_fields_as_stated attr).
Proof.
  intros P parts. apply parse_attributes_nodup in P.
  unfold usage_fields, usage_fields_as_stated.
  subst parts. destruct (Dict.get "--fields" attr) as [[|c s]|];
    cbv beta iota; (split; [|split]).
  - intros E. inversion E.
  - intros _. exists (dollar_fields attr Dict.empty). split; [reflexivity|].
    intros k. now rewrite dollar_fields_get.
  - intros N. now contradiction N.
  - intros E. destruct (bulk_fields_error _ Dict.empty E) as (p & Hp & Cp & R).
    exists p. rewrite R. auto.
  - intros F. rewrite (bulk_fields_ok _ _ F). cbn [bind].
    eexists. split; [reflexivity|]. intros k.
    rewrite dollar_fields_get by exact P.
    destruct (Dict.get ("$"%char :: k) attr); [reflexivity|].
    rewrite fold_set_part_get. now destruct (bulk_lookup _ k).
  - reflexivity.
  - intros E. inversion E.
  - intros _. exists (dollar_fields attr Dict.empty). split; [reflexivity|].
    intros k. now rewrite dollar_fields_get.
  - reflexivity.
Qed.

Lemma usage_fields_merge_witness :
  let tag := lit "<--template --name=" ++ dq "card" ++ lit " --fields="
             ++ dq " title : Bulk ;sub: x " ++ lit " $title=" ++ dq "Hi"
             ++ lit ">" in
  let attr := [(lit "--name", lit "card");
               (lit "--fields", lit " title : Bulk ;sub: x ");
               (lit "$title", lit "Hi")] in
  parse_attributes tag = Ok attr /\
  exists fields, usage_fields attr = Ok fields /\
    Dict.get "title" fields = Some (lit "Hi") /\
    Dict.get "sub" fields = Some (lit "x").
Proof.
  cbv zeta.
  assert (parse_attributes
            (lit "<--template --name=" ++ dq "card" ++ lit " --fields="
             ++ dq " title : Bulk ;sub: x " ++ lit " $title=" ++ dq "Hi"
             ++ lit ">")
          = Ok [(lit "--name", lit "card");
                (lit "--fields", lit " title : Bulk ;sub: x ");
                (lit "$title", lit "Hi")]) as P
    by (vm_compute; reflexivity).
  split; [exact P|].
  destruct (usage_fields_merge _ _ P) as (_ & H & _).
  destruct H as (fields & E & L).
  - vm_compute. repeat constructor.
  - exists fields. split; [exact E|]. rewrite !L. vm_compute. auto.
Defined.

(** C9, as stated, fails on a usage whose [--fields] value is empty:
    splitting the empty string on [;] gives one part, the empty one, which
    has no colon, so parsing it as the claim says is a hard error; the
    code passes the attribute over and builds the empty mapping. *)
Lemma usage_fields_empty_bulk :
  let tag := lit "<--template --name=" ++ dq "t" ++ lit " --fields=" ++ dq []
             ++ lit ">" in
  let attr := [(lit "--name", lit "t"); (lit "--fields", [])] in
  parse_attributes tag = Ok attr /\
  split_on ";" [] = [[]] /\ colons [] = 0 /\
  usage_fields attr = Ok Dict.empty /\
  usage_fields_as_stated attr
  = Raise (DocumentError (lit "couldn't parse field `" ++ [] ++ lit "`")) /\
  usage_fields attr <> usage_fields_as_stated attr.
Proof.
  cbv zeta. repeat split; try (vm_compute; reflexivity).
  vm_compute. discriminate.
Qed.

(** ** The build planner: the scan for template names *)

Lemma starts_with_firstn (p l : str) (k : nat) :
  starts_with p (firstn k l) = true -> starts_with p l = true.
Proof.
  rewrite !starts_with_app. intros [r H].
  exists (r ++ skipn k l). rewrite app_assoc, <- H. symmetry. apply firstn_skipn.
Qed.

Lemma tag_form_at_slice (tag_name text : str) (a b i : nat) :
  tag_form_at tag_name (slice text a b) i = true ->
  tag_form_at tag_name text (i + a) = true /\ i + a < b.
Proof.
  unfold tag_form_at, slice, slice_from. rewrite skipn_firstn_comm.
  rewrite skipn_skipn_add. intros H. split.
  - unfold tag_at in *. rewrite orb_true_iff in *.
    destruct H as [H | H]; [left | right]; eapply starts_with_firstn; eauto.
  - destruct (Nat.lt_ge_cases (i + a) b); [assumption|].
    replace (b - a - i) with 0 in H by lia.
    apply tag_at_head in H as [r H]. discriminate.
Qed.

(** The content of the occurrence [find_tag] returns holds no form of the
    tag: a second search, in the content, finds nothing. *)
Lemma find_tag_content_absent (tag_name text : str) (s hs he e : nat) :
  find_tag tag_name text = Ok (Some (s, hs, he, e)) ->
  find_tag tag_name (slice text hs he) = Ok None.
Proof.
  intros H. apply find_tag_iff in H.
  inversion H as [| ? ? ? ? O F C E | | | |]; subst.
  apply find_tag_iff. apply spec_absent. intros i.
  destruct (tag_form_at tag_name (slice text hs he) i) eqn:T; [|reflexivity].
  apply tag_form_at_slice in T as [T Hi]. destruct F as (Hh & _ & N).
  rewrite N in T by lia. discriminate.
Qed.

(** The scan of [template_names] stops after its first turn: it collects
    the name of the first innermost usage and nothing else. *)
Lemma template_names_first_only (page : File) (content : str) :
  kind page = Document content ->
  template_names page =
  match find_tag "--template" content with
  | Raise (DocumentError e) => Raise (build_error page e)
  | Raise e => Raise e
  | Ok None => Ok []
  | Ok (Some (start, html_start, html_end, end_)) =>
    attr <- parse_attributes (slice content start html_start) ;;
    match Dict.get "--name" attr with
    | None => Raise (build_error page "template name required")
    | Some name => Ok [name]
    end
  end.
Proof.
  intros K. unfold template_names. rewrite K. cbn [template_names_loop].
  destruct (find_tag "--template" content) as [[[[[s hs] he] e]|]|] eqn:F;
    try reflexivity.
  destruct (parse_attributes (slice content s hs)) as [attr|]; [|reflexivity].
  cbn [bind]. destruct (Dict.get "--name" attr) as [name|]; [|reflexivity].
  pose proof (find_tag_bounds _ _ _ _ _ _ F) as (B1 & B2 & B3 & B4).
  destruct (length content) as [|n] eqn:L; [lia|].
  cbn [template_names_loop].
  now rewrite (find_tag_content_absent _ _ _ _ _ _ F).
Qed.

Lemma template_names_at_most_one (page : File) (names : list str) :
  template_names page = Ok names -> length names <= 1.
Proof.
  destruct (kind page) as [content|] eqn:K.
  - rewrite (template_names_first_only _ _ K).
    destruct (find_tag "--template" content) as [[[[[s hs] he] e]|]|].
    + destruct (parse_attributes _) as [attr|]; [|discriminate].
      cbn [bind]. destruct (Dict.get "--name" attr); [|discriminate].
      intros [= <-]. simpl. lia.
    + intros [= <-]. simpl. lia.
    + destruct e; discriminate.
  - unfold template_names. rewrite K. intros [= <-]. simpl. lia.
Qed.

(** A name the scan has collected and that the template mapping does not
    hold is a [BuildError] that names the document. *)
Lemma get_templates_used_unknown (templates : Dict.t File) (page : File)
    (names : list str) :
  template_names page = Ok names ->
  (exists name, In name names /\ Dict.get name templates = None) ->
  exists name, In name names /\ Dict.get name templates = None /\
    get_templates_used templates page
    = Raise (BuildError (lit "[ " ++ path page ++ lit " ] `" ++ name
                         ++ lit "` template doesn't exist")).
Proof.
  intros T. unfold get_templates_used. rewrite T. cbn [bind].
  generalize (@Dict.empty File) as ret. clear T.
  induction names as [|n names IH]; intros ret (name & Hin & Hn).
  - destruct Hin.
  - destruct (Dict.get n templates) as [t|] eqn:G.
    + destruct Hin as [-> | Hin]; [congruence|].
      destruct (IH (Dict.set n t ret)) as (x & Hx & Gx & R); [eauto|].
      exists x. split; [now right|]. split; [exact Gx|].
      exact R.
    + exists n. split; [now left|]. split; [exact G|].
      reflexivity.
Qed.

(** C2.  A document with two usages side by side, of templates [a] and
    [b]: the scan collects [a] alone, so that planning succeeds although
    no template [b] exists.  A document with a usage of [inner] nested in
    a usage of [outer]: the scan collects [inner] alone. *)
Theorem template_names_misses_usages :
  let usage := fun name body : str =>
    lit "<--template --name=" ++ dq name ++ lit ">" ++ body
    ++ lit "</--template>" in
  let a := mkFile "t/a.html" "a.html" 1 (Document "A") in
  let siblings :=
    mkFile "d/index.html" "index.html" 2 (Document (usage "a" [] ++ usage "b" [])) in
  let nested :=
    mkFile "d/index.html" "index.html" 2 (Document (usage "outer" (usage "inner" []))) in
  template_names siblings = Ok [lit "a"] /\
  get_templates_used [(lit "a", a)] siblings = Ok [(lit "a", a)] /\
  template_names nested = Ok [lit "inner"].
Proof. vm_compute. repeat split. Qed.

(** ** The driver *)

(** Whatever happens, the writer is only called in a run that returns 0
    or 2: when [run] returns 1, or lets an exception escape, no file has
    been written. *)
Lemma run_no_write_on_failure (depth : nat)
    (save_raises : list PageBuild -> PageBuild -> option str)
    (src_pages built_files templates_list : list File) (out : str)
    (dry_run force_rebuild : bool) :
  let o := run depth save_raises src_pages built_files templates_list out
             dry_run force_rebuild in
  returned o <> Ok 0%Z -> returned o <> Ok 2%Z -> save_calls o = [].
Proof.
  unfold run.
  destruct (bind _ _) as [[|b builds]|e]; cbn [returned save_calls]; intros H0 H2.
  - reflexivity.
  - destruct dry_run; [reflexivity|].
    destruct (save_all save_raises [] (b :: builds)) as [calls [err|]];
      cbn [returned] in *; congruence.
  - destruct e; reflexivity.
Qed.

(** A [BuildError] raised while planning or expanding makes [run] return 1
    without a call to the writer. *)
Lemma run_build_error (depth : nat)
    (save_raises : list PageBuild -> PageBuild -> option str)
    (src_pages built_files templates_list : list File) (out : str)
    (dry_run force_rebuild : bool) (msg : str) :
  (page_builds <- create_page_builds src_pages built_files templates_list
                    out force_rebuild ;;
   map_result (process depth) page_builds) = Raise (BuildError msg) ->
  run depth save_raises src_pages built_files templates_list out
    dry_run force_rebuild = mkOutcome (Ok 1%Z) [].
Proof. unfold run. now intros ->. Qed.

Lemma save_all_calls (save_raises : list PageBuild -> PageBuild -> option str)
    (page_builds : list PageBuild) :
  forall saved calls err,
    save_all save_raises saved page_builds = (calls, err) ->
    exists done rest, calls = saved ++ done /\ page_builds = done ++ rest /\
      match err with
      | None => rest = []
      | Some _ => done <> []
      end.
Proof.
  induction page_builds as [|b builds IH]; intros saved calls err H; simpl in H.
  - injection H as <- <-. exists [], []. now rewrite app_nil_r.
  - destruct (save_raises saved b) as [e|].
    + injection H as <- <-. exists [b], builds. repeat split. discriminate.
    + apply IH in H as (done & rest & -> & -> & H).
      exists (b :: done), rest. rewrite <- app_assoc. repeat split.
      destruct err; [discriminate | exact H].
Qed.

(** Once planning and expansion have succeeded, [run] returns 2 when a
    call of the writer raises, leaving the files written so far in place,
    and 0 otherwise; the calls made are a prefix of the builds. *)
Lemma run_write_phase (depth : nat)
    (save_raises : list PageBuild -> PageBuild -> option str)
    (src_pages built_files templates_list : list File) (out : str)
    (dry_run force_rebuild : bool) (page_builds : list PageBuild) :
  (builds <- create_page_builds src_pages built_files templates_list
               out force_rebuild ;;
   map_result (process depth) builds) = Ok page_builds ->
  let o := run depth save_raises src_pages built_files templates_list out
             dry_run force_rebuild in
  (returned o = Ok 0%Z \/ returned o = Ok 2%Z) /\
  (exists rest, page_builds = save_calls o ++ rest) /\
  (returned o = Ok 2%Z <->
   dry_run = false /\ exists calls err,
     save_all save_raises [] page_builds = (calls, Some err)).
Proof.
  unfold run. intros ->. destruct page_builds as [|b builds].
  - cbn. split; [now left|]. split; [now exists []|].
    split; [discriminate | intros (_ & c & e & H); discriminate].
  - destruct dry_run.
    + cbn. split; [now left|]. split; [now eexists|].
      split; [discriminate | intros (H & _); discriminate].
    + destruct (save_all save_raises [] (b :: builds)) as [calls [err|]] eqn:S;
        cbn [returned save_calls];
        apply save_all_calls in S as (done & rest & -> & E & _);
        (split; [auto|]); (split; [exists rest; exact E|]).
      * split; [intros _; split; eauto | reflexivity].
      * split; [discriminate | intros (_ & c & e & H); discriminate].
Qed.

(** C3.  A source document whose usage tag has an attribute without a
    value: the attribute parser raises a [DocumentError] inside
    [template_names], which only turns the errors of [find_tag] and a
    missing [--name] into [BuildError]s.  [run] catches [BuildError] alone,
    so the error escapes it: nothing is written, but no status is
    returned. *)
Theorem run_escapes_on_invalid_usage (depth : nat)
    (save_raises : list PageBuild -> PageBuild -> option str)
    (dry_run force_rebuild : bool) :
  let page := mkFile "d/index.html" "index.html" 2
                (Document "<--template x></--template>") in
  find_tag "--template" "<--template x></--template>" = Ok (Some (0, 14, 14, 27)) /\
  parse_attributes "<--template x>"
  = Raise (DocumentError "invalid tag `<--template x>`") /\
  run depth save_raises [page] [] [] "out" dry_run force_rebuild
  = mkOutcome (Raise (DocumentError "invalid tag `<--template x>`")) [].
Proof.
  cbv zeta. split; [vm_compute; reflexivity|]. split; [vm_compute; reflexivity|].
  unfold run.
  replace (create_page_builds _ _ _ _ force_rebuild)
    with (@Raise (list PageBuild) (DocumentError "invalid tag `<--template x>`"))
    by (vm_compute; reflexivity).
  reflexivity.
Qed.

(** ** The document expander *)

Lemma process_html_unfold (depth : nat) (text : str) (templates : Dict.t File) :
  process_html (S depth) text templates =
  match expand_step text templates with
  | Ok None => Ok text
  | Ok (Some text') => process_html depth text' templates
  | Raise e => Raise e
  end.
Proof.
  cbn [process_html]. unfold expand_step.
  destruct (find_tag "--template" text) as [[[[[s hs] he] e]|]|]; cbn [bind];
    try reflexivity.
  destruct (parse_attributes (slice text s hs)) as [attr|]; cbn [bind];
    try reflexivity.
  destruct (Dict.get "--name" attr) as [name|]; try reflexivity.
  destruct (Dict.get name templates) as [template|]; try reflexivity.
  destruct (usage_fields attr) as [fields|]; cbn [bind]; try reflexivity.
  destruct (process_template template fields (slice text hs he)); reflexivity.
Qed.

Lemma expand_step_none (text : str) (templates : Dict.t File) :
  expand_step text templates = Ok None <-> find_tag "--template" text = Ok None.
Proof.
  unfold expand_step.
  destruct (find_tag "--template" text) as [[[[[s hs] he] e]|]|]; cbn [bind].
  - split; [|discriminate].
    destruct (parse_attributes (slice text s hs)) as [attr|]; cbn [bind];
      try discriminate.
    destruct (Dict.get "--name" attr) as [name|]; try discriminate.
    destruct (Dict.get name templates) as [template|]; try discriminate.
    destruct (usage_fields attr) as [fields|]; cbn [bind]; try discriminate.
    destruct (process_template template fields (slice text hs he));
      discriminate.
  - tauto.
  - split; discriminate.
Qed.

(** A text without a usage is returned as it is, at once. *)
Lemma process_html_base (depth : nat) (text : str) (templates : Dict.t File) :
  find_tag "--template" text = Ok None ->
  process_html (S depth) text templates = Ok text.
Proof.
  intros H. rewrite process_html_unfold.
  now rewrite (proj2 (expand_step_none text templates) H).
Qed.

(** What [process_html] returns holds no usage. *)
Lemma process_html_no_tag (templates : Dict.t File) :
  forall depth text r,
    process_html depth text templates = Ok r ->
    find_tag "--template" r = Ok None.
Proof.
  induction depth as [|depth IH]; intros text r H; [discriminate|].
  rewrite process_html_unfold in H.
  destruct (expand_step text templates) as [[text'|]|] eqn:E.
  - eapply IH; eauto.
  - injection H as <-. now apply expand_step_none in E.
  - discriminate.
Qed.

(** A result obtained within some depth is obtained within any greater
    one. *)
Lemma process_html_depth_mono (templates : Dict.t File) :
  forall depth text r k,
    process_html depth text templates = Ok r ->
    process_html (depth + k) text templates = Ok r.
Proof.
  induction depth as [|depth IH]; intros text r k H; [discriminate|].
  rewrite Nat.add_succ_l, process_html_unfold.
  rewrite process_html_unfold in H.
  destruct (expand_step text templates) as [[text'|]|]; auto.
Qed.

(** No step of the expansion raises [RecursionError]: only the depth of
    the recursion of [process_html] can. *)
Lemma find_tag_raises (tag_name text : str) (e : exn) :
  find_tag tag_name text = Raise e -> exists msg, e = DocumentError msg.
Proof.
  intros H. pose proof (find_tag_sound tag_name text) as S. rewrite H in S.
  inversion S; eauto.
Qed.

Lemma parse_attributes_raises (tag : str) (e : exn) :
  parse_attributes tag = Raise e -> e = invalid_tag tag.
Proof.
  intros H. pose proof (parse_attributes_total tag) as T.
  unfold parse_attributes in *. destruct (subn_tag tag) as [text n].
  destruct (n =? 2); [|congruence].
  revert H T. generalize (S (length text)) as fuel. generalize (@Dict.empty str).
  intros ret fuel. revert text ret.
  induction fuel as [|fuel IH]; intros text ret H T; simpl in *; [congruence|].
  destruct text as [|c text]; [discriminate|].
  destruct (match_attribute (c :: text)) as [[[name value] rest]|];
    [eauto | congruence].
Qed.

Lemma bulk_fields_raises (parts : list str) :
  forall fields e,
    bulk_fields parts fields = Raise e -> exists msg, e = DocumentError msg.
Proof.
  induction parts as [|p parts IH]; intros fields e H; simpl in H;
    [discriminate|].
  destruct (split_on ":" p) as [|a [|b [|c l]]]; try (injection H as <-; eauto).
  eauto.
Qed.

Lemma usage_fields_raises (attr : Dict.t str) (e : exn) :
  usage_fields attr = Raise e -> exists msg, e = DocumentError msg.
Proof.
  unfold usage_fields.
  destruct (Dict.get "--fields" attr) as [[|c s]|]; cbn [bind]; try discriminate.
  destruct (bulk_fields _ _) eqn:B; cbn [bind]; [discriminate|].
  intros [= <-]. eapply bulk_fields_raises; eauto.
Qed.

Lemma get_field_value_raises (template : File) (fields : Dict.t str)
    (tag : str) (e : exn) :
  get_field_value template fields tag = Raise e -> e <> RecursionError.
Proof.
  unfold get_field_value, get_field_dict.
  destruct (parse_attributes tag) as [attr|e'] eqn:P; cbn [bind].
  - destruct (Dict.mem "--name" attr); cbn [bind].
    + destruct (Dict.get "--name" attr) as [name|];
        [|intros [= <-]; discriminate].
      destruct (Dict.get name fields); [discriminate|].
      destruct (Dict.get "--default" attr); [discriminate|].
      intros [= <-]. discriminate.
    + intros [= <-]. discriminate.
  - intros [= <-]. apply parse_attributes_raises in P. subst. discriminate.
Qed.

Lemma splice_loop_raises (template : File) (text : str) (subs : list mapping) :
  forall cursor parts e,
    splice_loop template text cursor parts subs = Raise e ->
    e = doc_err template "overlapping tags".
Proof.
  induction subs as [|m rest IH]; intros cursor parts e H; simpl in H;
    [discriminate|].
  destruct (m_start m <? cursor); [injection H as <-; reflexivity | eauto].
Qed.

Lemma map_result_raises {A B} (f : A -> result B) (l : list A) (e : exn) :
  map_result f l = Raise e -> exists a, In a l /\ f a = Raise e.
Proof.
  induction l as [|a l IH]; simpl; [discriminate|].
  destruct (f a) as [b|e'] eqn:F; cbn [bind].
  - destruct (map_result f l); cbn [bind]; [discriminate|].
    intros H. destruct (IH H) as (x & Hx & Fx). eauto.
  - intros [= <-]. eauto.
Qed.

Lemma process_template_raises (template : File) (fields : Dict.t str)
    (inner_html : str) (e : exn) :
  process_template template fields inner_html = Raise e -> e <> RecursionError.
Proof.
  unfold process_template. destruct (kind template) as [text|];
    [|intros [= <-]; discriminate].
  destruct (map_result _ _) as [subs|e'] eqn:M; cbn [bind].
  - intros H. apply splice_loop_raises in H. subst. discriminate.
  - intros [= <-]. apply map_result_raises in M as ([[si ei] tag] & _ & F).
    destruct (get_field_value template fields tag) eqn:G; cbn [bind] in F;
      [discriminate|].
    injection F as <-. eapply get_field_value_raises; eauto.
Qed.

Lemma expand_step_raises (text : str) (templates : Dict.t File) (e : exn) :
  expand_step text templates = Raise e -> e <> RecursionError.
Proof.
  unfold expand_step.
  destruct (find_tag "--template" text) as [[[[[s hs] he] e']|]|e'] eqn:F;
    cbn [bind]; [|discriminate|].
  - destruct (parse_attributes (slice text s hs)) as [attr|e''] eqn:P;
      cbn [bind].
    + destruct (Dict.get "--name" attr) as [name|];
        [|intros [= <-]; discriminate].
      destruct (Dict.get name templates) as [template|];
        [|intros [= <-]; discriminate].
      destruct (usage_fields attr) as [fields|e''] eqn:U; cbn [bind].
      * destruct (process_template template fields (slice text hs he)) eqn:T;
          cbn [bind]; [discriminate|].
        intros [= <-]. eapply process_template_raises; eauto.
      * intros [= <-]. apply usage_fields_raises in U as [msg ->]. discriminate.
    + intros [= <-]. apply parse_attributes_raises in P. subst. discriminate.
  - intros [= <-]. apply find_tag_raises in F as [msg ->]. discriminate.
Qed.



(** If every step of the expansion of a text lowers the number of tag
    forms, the recursion ends within that number of calls, plus one. *)
Lemma process_html_terminates (templates : Dict.t File) (text : str) :
  (forall t t', expands_to templates text t ->
                expand_step t templates = Ok (Some t') ->
                count_tags "--template" t' < count_tags "--template" t) ->
  forall depth,
    count_tags "--template" text < depth ->
    process_html depth text templates <> Raise RecursionError.
Proof.
  intros D depth.
  assert (forall t, expands_to templates text t ->
                    count_tags "--template" t < depth ->
                    process_html depth t templates <> Raise RecursionError)
    as G; [|apply G; constructor].
  induction depth as [|depth IH]; intros t R Hc; [lia|].
  rewrite process_html_unfold.
  destruct (expand_step t templates) as [[t'|]|e] eqn:E.
  - apply IH; [econstructor; eauto|]. specialize (D t t' R E). lia.
  - discriminate.
  - intros [= ->]. now apply expand_step_raises in E.
Qed.

(** C4, as the code has it.  Whenever the expander returns a result, the
    result holds no form of the usage tag, the expander applied to it
    returns it unchanged within one call, whatever the templates, and the
    same result is returned under any greater recursion limit.  A text
    with no usage is returned unchanged within one call.  The recursion
    ends, within the number of tag forms of the text plus one calls,
    whenever every step of the expansion lowers the number of tag forms;
    that the templates hold no usage does not ensure it. *)
Theorem process_html_fixed_point (text : str) (templates : Dict.t File) :
  (forall depth r,
     process_html depth text templates = Ok r ->
     (forall i, tag_form_at "--template" r i = false) /\
     (forall d ts, process_html (S d) r ts = Ok r) /\
     (forall k, process_html (depth + k) text templates = Ok r)) /\
  ((forall i, tag_form_at "--template" text i = false) ->
   forall d, process_html (S d) text templates = Ok text) /\
  ((forall t t', expands_to templates text t ->
                 expand_step t templates = Ok (Some t') ->
                 count_tags "--template" t' < count_tags "--template" t) ->
   forall depth,
     count_tags "--template" text < depth ->
     process_html depth text templates <> Raise RecursionError).
Proof.
  split; [|split].
  - intros depth r H. pose proof (process_html_no_tag _ _ _ _ H) as N.
    split; [|split].
    + now apply find_tag_absent_iff.
    + intros d ts. now apply process_html_base.
    + intros k. now apply process_html_depth_mono.
  - intros A d. apply find_tag_absent_iff in A. now apply process_html_base.
  - apply process_html_terminates.
Qed.

Lemma process_html_fixed_point_witness :
  let card :=
    mkFile "t/card.html" "card.html" 5
      (Document (lit "<h1><--field --name=" ++ dq "title"
                 ++ lit "></h1><--inner-html>")) in
  let text := lit "<--template --name=" ++ dq "card" ++ lit " $title="
              ++ dq "Hi" ++ lit "><p>body</p></--template>" in
  let r : str := "<h1>Hi</h1><p>body</p>" in
  process_html 2 text [(lit "card", card)] = Ok r /\
  (forall i, tag_form_at "--template" r i = false) /\
  (forall d ts, process_html (S d) r ts = Ok r) /\
  (forall k, process_html (2 + k) text [(lit "card", card)] = Ok r) /\
  (forall depth, 2 < depth ->
     process_html depth text [(lit "card", card)] <> Raise RecursionError).
Proof.
  cbv zeta.
  set (card := mkFile "t/card.html" "card.html" 5
                 (Document (lit "<h1><--field --name=" ++ dq "title"
                            ++ lit "></h1><--inner-html>"))).
  set (text := lit "<--template --name=" ++ dq "card" ++ lit " $title="
               ++ dq "Hi" ++ lit "><p>body</p></--template>").
  assert (process_html 2 text [(lit "card", card)]
          = Ok (lit "<h1>Hi</h1><p>body</p>")) as H
    by (vm_compute; reflexivity).
  destruct (process_html_fixed_point text [(lit "card", card)]) as (F & _ & T).
  destruct (F _ _ H) as (A & B & C).
  split; [exact H|]. split; [exact A|]. split; [exact B|]. split; [exact C|].
  intros depth Hd. apply T;
    [|replace (count_tags _ text) with 2 by (vm_compute; reflexivity); exact Hd].
  assert (forall t, expands_to [(lit "card", card)] text t ->
                    t = text \/ t = lit "<h1>Hi</h1><p>body</p>") as R.
  { induction 1 as [|t t' _ IH E]; [now left|]. right.
    destruct IH as [-> | ->]; vm_compute in E;
      [injection E as <-; reflexivity | discriminate]. }
  intros t t' Ht E. destruct (R t Ht) as [-> | ->]; vm_compute in E.
  - injection E as <-. vm_compute. lia.
  - discriminate.
Defined.

(** C4, as stated, fails.  The template below holds no form of the usage
    tag, yet with the field value [--] it resolves to a usage of itself:
    the expander maps the document to itself and never returns, whatever
    the recursion limit. *)
Lemma process_html_never_returns :
  let t :=
    mkFile "t/t.html" "t.html" 5
      (Document (lit "<<--field --name=" ++ dq "a" ++ lit ">template --name="
                 ++ dq "t" ++ lit " $a=" ++ dq "--" ++ lit ">x</<--field --name="
                 ++ dq "a" ++ lit ">template>")) in
  let text := lit "<--template --name=" ++ dq "t" ++ lit " $a=" ++ dq "--"
              ++ lit ">x</--template>" in
  (forall content, kind t = Document content ->
                   forall i, tag_form_at "--template" content i = false) /\
  template_names (mkFile "d/index.html" "index.html" 7 (Document text))
    = Ok [lit "t"] /\
  expand_step text [(lit "t", t)] = Ok (Some text) /\
  forall depth, process_html depth text [(lit "t", t)] = Raise RecursionError.
Proof.
  cbv zeta. split; [|split; [|split]].
  - intros content [= <-]. apply find_tag_absent_iff. vm_compute. reflexivity.
  - vm_compute. reflexivity.
  - vm_compute. reflexivity.
  - induction depth as [|depth IH]; [reflexivity|].
    rewrite process_html_unfold.
    match goal with
    | |- match expand_step ?x ?ts with _ => _ end = _ =>
      replace (expand_step x ts) with (Ok (Some x)) by (vm_compute; reflexivity)
    end.
    exact IH.
Qed.

(** ** Every tag the void-tag pattern matches is accepted by the parser *)

Lemma take_drop_while (p : ascii -> bool) (s : str) :
  s = take_while p s ++ drop_while p s.
Proof.
  induction s as [|c s IH]; simpl; [reflexivity|].
  destruct (p c); simpl; congruence.
Qed.

Lemma take_while_all (p : ascii -> bool) (s : str) :
  Forall (fun c => p c = true) (take_while p s).
Proof.
  induction s as [|c s IH]; simpl; [constructor|].
  destruct (p c) eqn:E; constructor; assumption.
Qed.

Lemma drop_while_stops (p : ascii -> bool) (s : str) :
  stops p (drop_while p s).
Proof.
  induction s as [|c s IH]; simpl; [exact I|].
  destruct (p c) eqn:E; [exact IH | exact E].
Qed.

Lemma take_while_app (p : ascii -> bool) (a b : str) :
  Forall (fun c => p c = true) a -> stops p b ->
  take_while p (a ++ b) = a.
Proof.
  induction 1 as [|c a Hc Ha IH]; intros S; simpl.
  - destruct b as [|c b]; [reflexivity|]. simpl in *. now rewrite S.
  - rewrite Hc. now rewrite IH.
Qed.

Lemma drop_while_app (p : ascii -> bool) (a b : str) :
  Forall (fun c => p c = true) a -> stops p b ->
  drop_while p (a ++ b) = b.
Proof.
  induction 1 as [|c a Hc Ha IH]; intros S; simpl.
  - destruct b as [|c b]; [reflexivity|]. simpl in *. now rewrite S.
  - rewrite Hc. now apply IH.
Qed.

Lemma drop_while_app_stop (p : ascii -> bool) (a b : str) :
  stops p b -> drop_while p (a ++ b) = drop_while p a ++ b.
Proof.
  intros S. induction a as [|c a IH]; simpl.
  - destruct b as [|c b]; [reflexivity|]. simpl in *. now rewrite S.
  - destruct (p c); [exact IH | reflexivity].
Qed.

Lemma blank_space (c : ascii) : is_blank c = true -> is_space c = true.
Proof. unfold is_blank. intros H. apply Ascii.eqb_eq in H. now subst. Qed.

Lemma tag_char_attr_char (c : ascii) :
  is_tag_char c = true -> is_attr_char c = true.
Proof.
  unfold is_tag_char, is_attr_char. intros H.
  rewrite <- orb_assoc, H. apply orb_true_r.
Qed.

Lemma tag_char_not_space (c : ascii) :
  is_tag_char c = true -> is_space c = false.
Proof.
  destruct c as [[] [] [] [] [] [] [] []]; vm_compute; congruence.
Qed.

Lemma space_not_attr_char (c : ascii) :
  is_space c = true -> is_attr_char c = false.
Proof.
  destruct c as [[] [] [] [] [] [] [] []]; vm_compute; congruence.
Qed.

Lemma value_char_not_quote (c : ascii) :
  is_value_char c = true -> negb (Ascii.eqb c dquote) = true.
Proof.
  unfold is_value_char. destruct (Ascii.eqb c dquote); simpl; congruence.
Qed.

Lemma match_void_attr_shape (s r : str) :
  match_void_attr s = Some r ->
  exists sp name sp1 sp2 value,
    s = sp ++ name ++ sp1 ++ "="%char :: sp2 ++ dquote :: value ++ dquote :: r /\
    sp <> [] /\ Forall (fun c => is_blank c = true) sp /\
    name <> [] /\ Forall (fun c => is_tag_char c = true) name /\
    Forall (fun c => is_blank c = true) sp1 /\
    Forall (fun c => is_blank c = true) sp2 /\
    Forall (fun c => is_value_char c = true) value.
Proof.
  unfold match_void_attr. intros H.
  pose proof (take_drop_while is_blank s) as E0.
  pose proof (take_while_all is_blank s) as A0.
  destruct (take_while is_blank s) as [|c0 sp] eqn:T0; [discriminate|].
  set (s1 := drop_while is_blank s) in *.
  pose proof (take_drop_while is_tag_char s1) as E1.
  pose proof (take_while_all is_tag_char s1) as A1.
  destruct (take_while is_tag_char s1) as [|c1 name] eqn:T1; [discriminate|].
  set (s2 := drop_while is_tag_char s1) in *.
  pose proof (take_drop_while is_blank s2) as E2.
  pose proof (take_while_all is_blank s2) as A2.
  destruct (drop_while is_blank s2) as [|c r0] eqn:D2; [discriminate|].
  destruct (Ascii.eqb_spec c "=") as [->|]; [|discriminate].
  pose proof (take_drop_while is_blank r0) as E3.
  pose proof (take_while_all is_blank r0) as A3.
  destruct (drop_while is_blank r0) as [|q r1] eqn:D3; [discriminate|].
  destruct (Ascii.eqb_spec q dquote) as [->|]; [|discriminate].
  pose proof (take_drop_while is_value_char r1) as E4.
  pose proof (take_while_all is_value_char r1) as A4.
  destruct (drop_while is_value_char r1) as [|q' r2] eqn:D4; [discriminate|].
  destruct (Ascii.eqb_spec q' dquote) as [->|]; [|discriminate].
  injection H as <-.
  exists (c0 :: sp), (c1 :: name), (take_while is_blank s2),
         (take_while is_blank r0), (take_while is_value_char r1).
  repeat split; try assumption; try discriminate.
  rewrite <- E4, <- E3, <- E2, <- E1. exact E0.
Qed.

Lemma attr_text_head (x : str) : attr_text x -> stops (fun c => negb (is_blank c)) x.
Proof.
  intros [b Hb | sp name sp1 sp2 value rest Hsp Bsp _ _ _ _ _ _].
  - destruct Hb as [|c b Hc _]; simpl; [exact I | now rewrite Hc].
  - destruct Bsp as [|c sp Hc _]; [contradiction|]. simpl. now rewrite Hc.
Qed.

(** The rounds [match_void_attrs] passes over, followed by a text of
    attributes, make a text of attributes. *)
Lemma match_void_attrs_shape :
  forall fuel s,
  exists g, s = g ++ match_void_attrs fuel s /\
            forall x, attr_text x -> attr_text (g ++ x).
Proof.
  induction fuel as [|fuel IH]; intros s; simpl.
  - exists []. split; [reflexivity | auto].
  - destruct (match_void_attr s) as [r|] eqn:M.
    + apply match_void_attr_shape in M
        as (sp & name & sp1 & sp2 & value & E & H1 & H2 & H3 & H4 & H5 & H6 & H7).
      destruct (IH r) as (g & Eg & Hg).
      exists (sp ++ name ++ sp1 ++ "="%char :: sp2 ++ dquote :: value ++ [dquote] ++ g).
      split.
      * rewrite E at 1. rewrite Eg at 1.
        repeat (rewrite <- ?app_assoc; simpl). reflexivity.
      * intros x Hx.
        replace ((sp ++ name ++ sp1 ++ "="%char :: sp2 ++ dquote :: value
                  ++ [dquote] ++ g) ++ x)
          with (sp ++ name ++ sp1 ++ "="%char :: sp2 ++ dquote :: value
                ++ dquote :: (g ++ x))
          by (repeat (rewrite <- ?app_assoc; simpl); reflexivity).
        apply attr_text_round; auto.
    + exists []. split; [reflexivity | auto].
Qed.

Lemma match_void_close_shape (s rest : str) :
  match_void_close s = Some rest ->
  exists b close, s = b ++ close ++ rest /\
    Forall (fun c => is_blank c = true) b /\
    (close = lit "/>" \/ close = lit ">").
Proof.
  unfold match_void_close. intros H.
  pose proof (take_drop_while is_blank s) as E.
  pose proof (take_while_all is_blank s) as A.
  destruct (drop_while is_blank s) as [|c r] eqn:D; [discriminate|].
  destruct (Ascii.eqb_spec c "/") as [->|].
  - destruct r as [|d r']; [discriminate|].
    destruct (Ascii.eqb_spec d ">") as [->|]; [|discriminate].
    injection H as <-. exists (take_while is_blank s), (lit "/>"). auto.
  - destruct (Ascii.eqb_spec c ">") as [->|]; [|discriminate].
    injection H as <-. exists (take_while is_blank s), (lit ">"). auto.
Qed.

Lemma ends_with_slash_suffix (a b : str) :
  ends_with_slash b -> ends_with_slash (a ++ b).
Proof. intros [y ->]. exists (a ++ y). now rewrite app_assoc. Qed.

Lemma attr_text_no_slash (x : str) : attr_text x -> ~ ends_with_slash x.
Proof.
  induction 1 as [b Hb | sp name sp1 sp2 value rest _ _ _ _ _ _ _ _ IH];
    intros [y E].
  - subst b. apply Forall_app in Hb as [_ Hb].
    inversion Hb as [|? ? Hc _]. discriminate.
  - destruct (exists_last (l := rest)) as (rest' & c & ->).
    + intros ->.
      replace (sp ++ name ++ sp1 ++ "="%char :: sp2 ++ dquote :: value ++ [dquote])
        with ((sp ++ name ++ sp1 ++ "="%char :: sp2 ++ dquote :: value) ++ [dquote])
        in E by (repeat (rewrite <- ?app_assoc; simpl); reflexivity).
      apply app_inj_tail in E as [_ E]. discriminate.
    + replace (sp ++ name ++ sp1 ++ "="%char :: sp2 ++ dquote :: value
               ++ dquote :: rest' ++ [c])
        with ((sp ++ name ++ sp1 ++ "="%char :: sp2 ++ dquote :: value
               ++ dquote :: rest') ++ [c])
        in E by (repeat (rewrite <- ?app_assoc; simpl); reflexivity).
      apply app_inj_tail in E as [_ ->]. apply IH. now exists rest'.
Qed.

Lemma at_dollar_before_close (x close : str) :
  close = lit "/>" \/ close = lit ">" -> at_dollar (x ++ close) = false.
Proof.
  intros [-> | ->]; destruct x as [|a [|b x]]; reflexivity.
Qed.

(** The second alternative of the pattern of [parse_attributes] matches
    once, at the closing of the tag. *)
Lemma subn_tag_close_end (close : str) :
  close = lit "/>" \/ close = lit ">" ->
  forall body,
    close = lit "/>" \/ ~ ends_with_slash body ->
    subn_tag_close (body ++ close) = (body, 1).
Proof.
  intros Hc. induction body as [|c body IH]; intros Hb.
  - destruct Hc as [-> | ->]; reflexivity.
  - assert (match_tag_close ((c :: body) ++ close) = None) as N.
    { cbn [app match_tag_close].
      destruct (Ascii.eqb_spec c "/") as [->|_].
      - destruct body as [|d body].
        + destruct Hb as [-> | Hb]; [reflexivity|].
          exfalso. apply Hb. now exists [].
        + cbn [app]. now rewrite at_dollar_before_close, andb_false_r.
      - now rewrite at_dollar_before_close, andb_false_r. }
    cbn [app subn_tag_close] in *. rewrite N.
    rewrite IH; [reflexivity|].
    destruct Hb as [Hb | Hb]; [now left | right].
    intros E. apply Hb. now apply (ends_with_slash_suffix [c]).
Qed.

(** The loop of [parse_attributes] accepts a text of attributes. *)
Lemma parse_attributes_loop_attr_text (tag : str) (x : str) :
  attr_text x ->
  forall fuel ret,
    length (drop_while is_space x) < fuel ->
    exists attrs,
      parse_attributes_loop fuel tag (drop_while is_space x) ret = Ok attrs.
Proof.
  induction 1 as [b Hb | sp name sp1 sp2 value rest Hsp Bsp Hn Bn B1 B2 Bv _ IH];
    intros fuel ret Hf.
  - assert (drop_while is_space b = []) as ->.
    { rewrite <- (app_nil_r b). apply drop_while_app; [|exact I].
      eapply Forall_impl; [|exact Hb]. apply blank_space. }
    destruct fuel; [simpl in Hf; lia|]. simpl. eauto.
  - destruct name as [|n0 name]; [contradiction|].
    set (tail1 := sp1 ++ "="%char :: sp2 ++ dquote :: value ++ dquote :: rest)
      in *.
    assert (drop_while is_space
              (sp ++ (n0 :: name) ++ tail1) = (n0 :: name) ++ tail1) as E0.
    { apply drop_while_app.
      - eapply Forall_impl; [|exact Bsp]. apply blank_space.
      - simpl. apply tag_char_not_space. now inversion Bn. }
    rewrite E0 in Hf. rewrite E0.
    assert (stops is_attr_char tail1) as S1.
    { unfold tail1. destruct B1 as [|c sp1 Hc _]; simpl; [reflexivity|].
      apply space_not_attr_char. now apply blank_space. }
    assert (match_attribute ((n0 :: name) ++ tail1)
            = Some (n0 :: name, value, drop_while is_space rest)) as M.
    { unfold match_attribute.
      rewrite take_while_app, drop_while_app; try assumption;
        try (eapply Forall_impl; [|exact Bn]; apply tag_char_attr_char).
      unfold tail1.
      rewrite (drop_while_app is_space sp1);
        [|eapply Forall_impl; [|exact B1]; apply blank_space | reflexivity].
      rewrite Ascii.eqb_refl.
      rewrite (drop_while_app is_space sp2);
        [|eapply Forall_impl; [|exact B2]; apply blank_space | reflexivity].
      rewrite Ascii.eqb_refl.
      rewrite (take_while_app _ value), (drop_while_app _ value);
        try (eapply Forall_impl; [|exact Bv]; apply value_char_not_quote).
      - reflexivity.
      - unfold stops. now rewrite Ascii.eqb_refl.
      - unfold stops. now rewrite Ascii.eqb_refl. }
    assert (length rest < length ((n0 :: name) ++ tail1)) as L.
    { unfold tail1. repeat (rewrite ?length_app; cbn [length]). lia. }
    destruct fuel as [|fuel]; [lia|].
    cbn [parse_attributes_loop app]. cbn [app] in M. rewrite M.
    apply IH. pose proof (drop_while_length is_space rest). lia.
Qed.

Lemma drop_while_stops_id (p : ascii -> bool) (s : str) :
  stops p s -> drop_while p s = s.
Proof. destruct s as [|c s]; simpl; [reflexivity|]. now intros ->. Qed.

Lemma firstn_drop_suffix {A} (a b : list A) :
  firstn (length (a ++ b) - length b) (a ++ b) = a.
Proof.
  rewrite length_app. replace (length a + length b - length b) with (length a)
    by lia.
  rewrite firstn_app, Nat.sub_diag, firstn_all. simpl. apply app_nil_r.
Qed.

Lemma skipn_length_app {A} (a r : list A) : skipn (length a) (a ++ r) = r.
Proof. induction a as [|x a IH]; simpl; [reflexivity | exact IH]. Qed.

(** A tag that a void-tag pattern matches is a [<], the name, a text of
    attributes and the closing of the tag. *)
Lemma match_void_tag_shape (nm s : str) (len : nat) :
  match_void_tag ("<"%char :: nm) s = Some len ->
  exists x close,
    firstn len s = "<"%char :: nm ++ x ++ close /\
    attr_text x /\ (close = lit "/>" \/ close = lit ">").
Proof.
  unfold match_void_tag.
  destruct (starts_with ("<"%char :: nm) s) eqn:P; [|discriminate].
  apply starts_with_app in P as [r ->].
  rewrite skipn_length_app.
  destruct (match_void_attrs_shape (length r) r) as (g & Eg & Hg).
  remember (match_void_attrs (length r) r) as r1 eqn:R1. clear R1. subst r.
  destruct (match_void_close r1) as [rest|] eqn:C; [|discriminate].
  apply match_void_close_shape in C as (b & close & -> & Hb & Hc).
  replace (("<"%char :: nm) ++ g ++ b ++ close ++ rest)
    with (("<"%char :: nm ++ (g ++ b) ++ close) ++ rest)
    by (cbn [app]; repeat (rewrite <- ?app_assoc; cbn [app]); reflexivity).
  intros H.
  assert (len = length (("<"%char :: nm ++ (g ++ b) ++ close) ++ rest)
                - length rest) as -> by congruence.
  exists (g ++ b), close. split; [|split].
  - apply firstn_drop_suffix.
  - apply Hg. now constructor.
  - exact Hc.
Qed.

(** Every tag a void-tag pattern matches is accepted by the attribute
    parser. *)
Lemma void_tag_parses (nm s : str) (len : nat) :
  nm <> [] -> Forall (fun c => is_tag_char c = true) nm ->
  match_void_tag ("<"%char :: nm) s = Some len ->
  exists attrs, parse_attributes (firstn len s) = Ok attrs.
Proof.
  intros Hn Bn M.
  apply match_void_tag_shape in M as (x & close & -> & Hx & Hc).
  assert (stops is_tag_char (x ++ close)) as S1.
  { pose proof (attr_text_head x Hx) as Hh.
    destruct x as [|c x]; simpl in *.
    - destruct Hc as [-> | ->]; reflexivity.
    - apply negb_false_iff in Hh. unfold is_blank in Hh.
      apply Ascii.eqb_eq in Hh. now subst. }
  assert (stops is_space (nm ++ x ++ close)) as S2.
  { destruct Bn as [|c nm Hcn _]; [contradiction|]. simpl.
    now apply tag_char_not_space. }
  assert (stops is_space close) as S3
    by (destruct Hc as [-> | ->]; reflexivity).
  set (body := drop_while is_space x).
  assert (match_tag_open ("<"%char :: nm ++ x ++ close) = Some (body ++ close))
    as O.
  { cbn [match_tag_open]. rewrite Ascii.eqb_refl.
    rewrite (drop_while_stops_id is_space _ S2).
    rewrite take_while_app, drop_while_app by assumption.
    destruct nm; [contradiction|].
    now rewrite drop_while_app_stop. }
  assert (subn_tag_close (body ++ close) = (body, 1)) as C.
  { apply subn_tag_close_end; [exact Hc|]. right. intros E.
    apply (attr_text_no_slash x Hx).
    rewrite (take_drop_while is_space x). now apply ends_with_slash_suffix. }
  unfold parse_attributes, subn_tag. rewrite O, C. cbn [Nat.eqb].
  apply parse_attributes_loop_attr_text; [exact Hx | fold body; lia].
Qed.

(** Every tag [process_template] finds parses. *)
Lemma re_finditer_void_parses (nm : str) :
  nm <> [] -> Forall (fun c => is_tag_char c = true) nm ->
  forall s pos skip,
    Forall (fun t : nat * nat * str =>
              exists attrs, parse_attributes (snd t) = Ok attrs)
           (re_finditer_void ("<"%char :: nm) s pos skip).
Proof.
  intros Hn Bn. induction s as [|c s IH]; intros pos skip; [constructor|].
  cbn [re_finditer_void]. destruct skip as [|k]; [|apply IH].
  destruct (match_void_tag ("<"%char :: nm) (c :: s)) as [len|] eqn:M;
    [|apply IH].
  constructor; [|apply IH]. cbn [snd]. eapply void_tag_parses; eauto.
Qed.

(** C5.  A field placeholder is a match of the field pattern.  Its
    attributes always parse.  With no [--name] attribute, resolution
    raises a [BuildError] that carries the path of the template; otherwise
    the value provided under that name is used; failing that, the
    [--default] attribute if the tag has one, empty or not; failing that,
    resolution raises the field-required defect, which names the template
    and the field. *)
Theorem get_field_value_resolution (template : File) (fields_provided : Dict.t str)
    (s : str) (len : nat) :
  match_void_tag "<--field" s = Some len ->
  exists attrs,
    parse_attributes (firstn len s) = Ok attrs /\
    get_field_value template fields_provided (firstn len s) =
    match Dict.get "--name" attrs with
    | None =>
      Raise (BuildError
               (lit "[ " ++ path template ++ lit " ] "
                ++ lit "a field tag is missing the attribute `--name`"))
    | Some field_name =>
      match Dict.get field_name fields_provided with
      | Some value => Ok value
      | None =>
        match Dict.get "--default" attrs with
        | Some default => Ok default
        | None =>
          Raise (DocumentError
                   (lit "template " ++ relpath template ++ lit ": "
                    ++ lit "field `" ++ field_name ++ lit "` required"))
        end
      end
    end.
Proof.
  intros M. change (lit "<--field") with ("<"%char :: lit "--field") in M.
  apply void_tag_parses in M as [attrs P];
    [|discriminate | repeat constructor].
  exists attrs. split; [exact P | now apply get_field_value_cases].
Qed.

Lemma get_field_value_resolution_witness :
  let template := mkFile "t/card.html" "card.html" 5 (Document []) in
  let s := lit "<--field --name=" ++ dq "title" ++ lit " --default="
           ++ dq [] ++ lit "></h1>" in
  let tag := lit "<--field --name=" ++ dq "title" ++ lit " --default="
             ++ dq [] ++ lit ">" in
  match_void_tag "<--field" s = Some 37 /\ firstn 37 s = tag /\
  get_field_value template Dict.empty tag = Ok [] /\
  get_field_value template [(lit "title", lit "Hi")] tag = Ok (lit "Hi").
Proof.
  cbv zeta.
  assert (match_void_tag "<--field"
            (lit "<--field --name=" ++ dq "title" ++ lit " --default="
             ++ dq [] ++ lit "></h1>") = Some 37) as M
    by (vm_compute; reflexivity).
  split; [exact M|]. split; [vm_compute; reflexivity|].
  split.
  - destruct (get_field_value_resolution
                (mkFile "t/card.html" "card.html" 5 (Document []))
                Dict.empty _ _ M) as (attrs & P & V).
    vm_compute in P. injection P as <-. exact V.
  - destruct (get_field_value_resolution
                (mkFile "t/card.html" "card.html" 5 (Document []))
                [(lit "title", lit "Hi")] _ _ M) as (attrs & P & V).
    vm_compute in P. injection P as <-. exact V.
Defined.

(** ** The remaining loops never run out of fuel *)

Lemma match_void_attr_shorter (s r : str) :
  match_void_attr s = Some r -> length r < length s.
Proof.
  unfold match_void_attr.
  destruct (take_while is_blank s) eqn:T; [discriminate|].
  assert (length (drop_while is_blank s) < length s) as H1.
  { destruct s as [|c s]; [discriminate|]. simpl in *.
    destruct (is_blank c); [|discriminate].
    pose proof (drop_while_length is_blank s). lia. }
  destruct (take_while is_tag_char (drop_while is_blank s)); [discriminate|].
  pose proof (drop_while_length is_tag_char (drop_while is_blank s)) as H2.
  pose proof (drop_while_length is_blank
                (drop_while is_tag_char (drop_while is_blank s))) as H3.
  destruct (drop_while is_blank (drop_while is_tag_char (drop_while is_blank s)))
    as [|c r0]; [discriminate|].
  destruct (Ascii.eqb c "="); [|discriminate].
  pose proof (drop_while_length is_blank r0) as H4.
  destruct (drop_while is_blank r0) as [|q r1]; [discriminate|].
  destruct (Ascii.eqb q dquote); [|discriminate].
  pose proof (drop_while_length is_value_char r1) as H5.
  destruct (drop_while is_value_char r1) as [|q' r2]; [discriminate|].
  destruct (Ascii.eqb q' dquote); [|discriminate].
  intros [= <-]. simpl in *. lia.
Qed.

(** [match_void_attrs] with the fuel [match_void_tag] gives it repeats the
    group as long as it matches. *)
Lemma match_void_attrs_fuel :
  forall f1 f2 s,
    length s <= f1 -> length s <= f2 ->
    match_void_attrs f1 s = match_void_attrs f2 s.
Proof.
  induction f1 as [|f1 IH]; intros f2 s H1 H2.
  - destruct s; [|simpl in H1; lia]. destruct f2; reflexivity.
  - destruct f2 as [|f2].
    + destruct s; [|simpl in H2; lia]. reflexivity.
    + simpl. destruct (match_void_attr s) as [r|] eqn:E; [|reflexivity].
      apply match_void_attr_shorter in E. apply IH; lia.
Qed.

(** ** The ranges [process_template] splices lie within the template *)

Lemma match_void_attrs_length (fuel : nat) :
  forall s, length (match_void_attrs fuel s) <= length s.
Proof.
  induction fuel as [|fuel IH]; intros s; simpl; [lia|].
  destruct (match_void_attr s) as [r|] eqn:E; [|lia].
  apply match_void_attr_shorter in E. specialize (IH r). lia.
Qed.

Lemma match_void_close_shorter (s r : str) :
  match_void_close s = Some r -> length r < length s.
Proof.
  unfold match_void_close. pose proof (drop_while_length is_blank s) as H.
  destruct (drop_while is_blank s) as [|c r0]; [discriminate|].
  destruct (Ascii.eqb c "/").
  - destruct r0 as [|d r1]; [discriminate|].
    destruct (Ascii.eqb d ">"); [|discriminate].
    intros [= <-]. simpl in *. lia.
  - destruct (Ascii.eqb c ">"); [|discriminate].
    intros [= <-]. simpl in *. lia.
Qed.

Lemma match_void_tag_length (open_ s : str) (len : nat) :
  match_void_tag open_ s = Some len -> 0 < len <= length s.
Proof.
  unfold match_void_tag. destruct (starts_with open_ s); [|discriminate].
  destruct (match_void_close _) as [rest|] eqn:C; [|discriminate].
  intros [= <-]. apply match_void_close_shorter in C.
  pose proof (match_void_attrs_length
                (length (skipn (length open_) s)) (skipn (length open_) s)).
  rewrite length_skipn in *. lia.
Qed.

Lemma re_finditer_void_bounds (open_ : str) :
  forall s pos skip,
    Forall (fun t : nat * nat * str =>
              let '(si, ei, _) := t in pos <= si /\ si < ei <= pos + length s)
           (re_finditer_void open_ s pos skip).
Proof.
  induction s as [|c s IH]; intros pos skip; simpl; [constructor|].
  destruct skip as [|k].
  - destruct (match_void_tag open_ (c :: s)) as [len|] eqn:M.
    + apply match_void_tag_length in M. simpl in M. constructor; [lia|].
      eapply Forall_impl; [|apply IH]. intros [[si ei] tag]. lia.
    + eapply Forall_impl; [|apply IH]. intros [[si ei] tag]. lia.
  - eapply Forall_impl; [|apply IH]. intros [[si ei] tag]. lia.
Qed.

(** When every field resolves, [process_template] is the splice of
    ranges that lie within the text of the template. *)
Lemma process_template_ranges (template : File) (fields : Dict.t str)
    (inner_html text : str) :
  kind template = Document text ->
  (exists e, process_template template fields inner_html = Raise e /\
             e <> doc_err template "overlapping tags") \/
  exists subs, ranges_in text subs /\
               process_template template fields inner_html
               = splice template text subs.
Proof.
  intros K. unfold process_template. rewrite K.
  pose proof (re_finditer_void_bounds "<--field" text 0 0) as B1.
  pose proof (re_finditer_void_bounds "<--inner-html" text 0 0) as B2.
  revert B1 B2.
  generalize (re_finditer_void "<--field" text 0 0) as ftags.
  generalize (re_finditer_void "<--inner-html" text 0 0) as itags.
  intros itags ftags B1 B2.
  destruct (map_result _ ftags) as [subs|e] eqn:M; cbn [bind].
  - right. eexists. split; [|reflexivity].
    apply Forall_app. split.
    + clear B2. revert subs M. induction B1 as [|[[si ei] tag] l Hb B1 IH];
        intros subs M; simpl in M.
      * injection M as <-. constructor.
      * destruct (get_field_value template fields tag); cbn [bind] in M;
          [|discriminate].
        destruct (map_result _ l) as [bs|]; cbn [bind] in M; [|discriminate].
        injection M as <-. constructor; [simpl; lia | now apply IH].
    + clear B1 M. induction B2 as [|[[si ei] tag] l Hb B2 IH]; simpl;
        constructor; [simpl; lia | exact IH].
  - left. exists e. split; [reflexivity|].
    apply map_result_raises in M as ([[si ei] tag] & _ & F).
    unfold get_field_value, get_field_dict in F.
    destruct (parse_attributes tag) as [attr|e'] eqn:P; cbn [bind] in F.
    + destruct (Dict.mem "--name" attr); cbn [bind] in F;
        [|injection F as <-; discriminate].
      destruct (Dict.get "--name" attr) as [name|];
        [|injection F as <-; discriminate].
      destruct (Dict.get name fields); [discriminate|].
      destruct (Dict.get "--default" attr); [discriminate|].
      cbn [bind] in F. injection F as <-. unfold doc_err. intros [= H].
      repeat (apply app_inv_head in H). discriminate.
    + injection F as <-. apply parse_attributes_raises in P. subst.
      discriminate.
Qed.

Lemma template_names_total (page : File) :
  template_names page <> Raise FuelExhausted.
Proof.
  destruct (kind page) as [content|] eqn:K.
  - rewrite (template_names_first_only _ _ K).
    destruct (find_tag "--template" content) as [[[[[s hs] he] e]|]|e] eqn:F.
    + destruct (parse_attributes _) as [attr|e'] eqn:P; cbn [bind].
      * destruct (Dict.get "--name" attr); discriminate.
      * apply parse_attributes_raises in P. subst. discriminate.
    + discriminate.
    + apply find_tag_raises in F as [msg ->]. discriminate.
  - unfold template_names. rewrite K. discriminate.
Qed.

(** ** Examples *)

(** The end-to-end scenario of the specification. *)
Example run_card :
  let card :=
    mkFile "t/card.html" "card.html" 5
      (Document (lit "<h1><--field --name=" ++ dq "title"
                 ++ lit "></h1><--inner-html>")) in
  let page :=
    mkFile "d/index.html" "index.html" 7
      (Document (lit "<--template --name=" ++ dq "card" ++ lit " $title="
                 ++ dq "Hi" ++ lit "><p>body</p></--template>")) in
  let o := run 10 (fun _ _ => None) [page] [] [card] "out" false false in
  returned o = Ok 0%Z /\
  map processed (save_calls o) = [Some (Some (lit "<h1>Hi</h1><p>body</p>"))].
Proof. vm_compute. split; reflexivity. Qed.

(** A usage of a template that does not exist stops the run with status 1
    and no file written; the message names the document and the
    template. *)
Example run_missing_template :
  let page :=
    mkFile "d/index.html" "index.html" 7
      (Document (lit "<--template --name=" ++ dq "nope" ++ lit "></--template>")) in
  create_page_builds [page] [] [] "out" false
  = Raise (BuildError "[ d/index.html ] `nope` template doesn't exist") /\
  run 10 (fun _ _ => None) [page] [] [] "out" false false = mkOutcome (Ok 1%Z) [].
Proof. vm_compute. split; reflexivity. Qed.

(** Ranges that touch are spliced; a content slot inside the default
    value of a field overlaps the field tag. *)
Example splice_touching :
  let t := mkFile "t/t.html" "t.html" 5 (Document "abcdef") in
  splice t "abcdef" [mkMapping 3 5 "Y"; mkMapping 1 3 "X"] = Ok (lit "aXYf") /\
  splice t "abcdef" [mkMapping 2 5 "Y"; mkMapping 1 3 "X"]
  = Raise (DocumentError "template t.html: overlapping tags").
Proof. vm_compute. split; reflexivity. Qed.

Example process_template_overlap :
  let t := mkFile "t/t.html" "t.html" 5
             (Document (lit "<--field --name=" ++ dq "a" ++ lit " --default="
                        ++ dq "<--inner-html>" ++ lit ">")) in
  process_template t Dict.empty "x"
  = Raise (DocumentError "template t.html: overlapping tags").
Proof. vm_compute. reflexivity. Qed.

(** * Further properties of the code *)

(** ** [index_ignore_quoted] *)

Lemma slice_eq_length (text string : str) (i : nat) :
  slice text i (i + length string) = string -> i + length string <= length text
                                               \/ string = [].
Proof.
  unfold slice. replace (i + length string - i) with (length string) by lia.
  intros H. assert (length (firstn (length string) (skipn i text))
                    = length string) as L by now rewrite H.
  rewrite length_firstn, length_skipn in L.
  destruct string; [now right | left]. cbn [length] in *. lia.
Qed.

Lemma index_ignore_quoted_loop_value_error (text string : str) :
  string <> [] ->
  forall n quote i e,
    n = 0 \/ i + n + length string <= length text + 1 ->
    index_ignore_quoted_loop text string quote i n = Raise e ->
    e = ValueError "not present".
Proof.
  intros Hs. assert (0 < length string) as L by (destruct string; simpl; [congruence | lia]).
  induction n as [|n IH]; intros quote i e Hlen H; simpl in H.
  - injection H as <-. reflexivity.
  - destruct (nth_error text i) as [x|] eqn:Hx.
    + destruct quote as [q|].
      * destruct (Ascii.eqb x q); eapply IH; try eassumption; lia.
      * match type of H with (if ?b then _ else _) = _ => destruct b end.
        -- eapply IH; try eassumption; lia.
        -- match type of H with (if ?b then _ else _) = _ => destruct b end;
             [discriminate|]. eapply IH; try eassumption; lia.
    + apply nth_error_None in Hx. lia.
Qed.

(** X1.  What [index_ignore_quoted] returns is an offset at or after
    [begin_index] where [string] does occur, wholly inside the text; with
    a needle that is not empty, the only exception it raises is the
    [ValueError] of its last line. *)
Theorem index_ignore_quoted_sound (text string : str) (begin_index : nat) :
  match index_ignore_quoted text string begin_index with
  | Ok g => begin_index <= g /\ occurs_at text string g /\
            g + length string <= length text
  | Raise e => string <> [] -> e = ValueError "not present"
  end.
Proof.
  destruct (index_ignore_quoted text string begin_index) as [g|e] eqn:H.
  - unfold index_ignore_quoted in H.
    apply index_ignore_quoted_loop_bounds in H as [Hb Hs].
    split; [lia|]. split; [exact Hs|]. lia.
  - intros Hs. unfold index_ignore_quoted in H.
    eapply index_ignore_quoted_loop_value_error; [exact Hs | | exact H]. lia.
Qed.

Lemma index_ignore_quoted_loop_first (text string : str) :
  forall n i,
    quote_free_from text i ->
    i + n + length string <= length text + 1 ->
    match index_ignore_quoted_loop text string None i n with
    | Ok g => i <= g < i + n /\ occurs_at text string g /\
              forall j, i <= j < g -> ~ occurs_at text string j
    | Raise e => n = 0 \/ string <> [] ->
                 e = ValueError "not present" /\
                 forall j, i <= j < i + n -> ~ occurs_at text string j
    end.
Proof.
  induction n as [|n IH]; intros i Q Hlen; simpl.
  - intros _. split; [reflexivity | intros j Hj; lia].
  - destruct (nth_error text i) as [c|] eqn:Hc.
    + destruct (Q i c (Nat.le_refl i) Hc) as [Nd Ns].
      apply Ascii.eqb_neq in Nd, Ns. rewrite Nd, Ns. cbn [orb andb].
      destruct (str_eqb (slice text i (i + length string)) string) eqn:E.
      * apply str_eqb_eq in E. split; [lia|]. split; [exact E | intros j Hj; lia].
      * apply str_eqb_neq in E.
        assert (quote_free_from text (S i)) as Q'
          by (intros j d Hj; apply Q; lia).
        specialize (IH (S i) Q'). 
        destruct (index_ignore_quoted_loop text string None (S i) n) as [g|e].
        -- destruct IH as (Hg & Ho & Hn); [lia|]. split; [lia|].
           split; [exact Ho|]. intros j Hj.
           destruct (Nat.eq_dec j i) as [->|]; [exact E | apply Hn; lia].
        -- intros Hs. destruct IH as (He & Hn); [lia | |].
           ++ destruct Hs as [Hs | Hs]; [discriminate | now right].
           ++ split; [exact He|]. intros j Hj.
              destruct (Nat.eq_dec j i) as [->|]; [exact E | apply Hn; lia].
    + intros [Hs | Hs]; [discriminate|]. apply nth_error_None in Hc.
      destruct string; [congruence | simpl in Hlen; lia].
Qed.

(** X2.  In a text with no quote character at or after [begin_index],
    [index_ignore_quoted] with a needle that is not empty behaves like
    [str.index]: it returns the first offset from [begin_index] on where
    the needle occurs, and raises [ValueError] exactly when there is
    none. *)
Theorem index_ignore_quoted_quote_free (text string : str) (begin_index : nat) :
  string <> [] ->
  quote_free_from text begin_index ->
  match index_ignore_quoted text string begin_index with
  | Ok g => begin_index <= g /\ occurs_at text string g /\
            forall j, begin_index <= j < g -> ~ occurs_at text string j
  | Raise e => e = ValueError "not present" /\
               forall j, begin_index <= j -> ~ occurs_at text string j
  end.
Proof.
  intros Hs Q. unfold index_ignore_quoted.
  set (n := length text + 1 - length string - begin_index).
  destruct (Nat.le_gt_cases (begin_index + length string) (length text))
    as [Hle | Hgt].
  - pose proof (index_ignore_quoted_loop_first text string n begin_index Q) as H.
    destruct (index_ignore_quoted_loop text string None begin_index n) as [g|e].
    + destruct H as (Hg & Ho & Hn); [unfold n; lia|]. repeat split; auto; lia.
    + destruct H as (He & Hn); [unfold n; lia | now right |].
      split; [exact He|]. intros j Hj O.
      destruct (Nat.lt_ge_cases j (begin_index + n)) as [L | G].
      * apply (Hn j); [lia | exact O].
      * apply slice_eq_length in O as [O | O]; [unfold n in G; lia | contradiction].
  - replace n with 0 by (unfold n; lia). simpl.
    split; [reflexivity|]. intros j Hj O.
    apply slice_eq_length in O as [O | O]; [lia | contradiction].
Qed.

Lemma index_ignore_quoted_quote_free_witness :
  let text : str := "<a href=x>y</a>" in
  index_ignore_quoted text ">" 0 = Ok 9 /\
  forall j, 0 <= j < 9 -> ~ occurs_at text ">" j.
Proof.
  cbv zeta.
  pose proof (index_ignore_quoted_quote_free "<a href=x>y</a>" ">" 0) as H.
  replace (index_ignore_quoted "<a href=x>y</a>" ">" 0) with (@Ok nat 9) in H
    by (vm_compute; reflexivity).
  destruct H as (_ & _ & H).
  - discriminate.
  - intros i c _ Hc. do 15 (destruct i as [|i]; [injection Hc as <-;
      split; discriminate|]). destruct i; discriminate.
  - split; [reflexivity | exact H].
Defined.

(** ** [find_tag] *)

(** X3.  The occurrence [find_tag] returns is an innermost one: no form
    of the tag starts inside its content, and a search in the content
    alone finds nothing. *)
Theorem find_tag_innermost (tag_name text : str) (s hs he e : nat) :
  find_tag tag_name text = Ok (Some (s, hs, he, e)) ->
  (forall j, hs <= j < he -> tag_form_at tag_name text j = false) /\
  find_tag tag_name (slice text hs he) = Ok None.
Proof.
  intros H. split; [|eapply find_tag_content_absent; eauto].
  apply find_tag_iff in H. inversion H as [| ? ? ? ? O F C E | | | |]; subst.
  destruct F as (_ & _ & N). exact N.
Qed.

Lemma find_tag_innermost_witness :
  let text : str := "a<--template>b<--template>c</--template>d</--template>" in
  find_tag "--template" text = Ok (Some (14, 26, 27, 40)) /\
  (forall j, 26 <= j < 27 -> tag_form_at "--template" text j = false) /\
  find_tag "--template" (slice text 26 27) = Ok None.
Proof.
  cbv zeta.
  assert (find_tag "--template"
            "a<--template>b<--template>c</--template>d</--template>"
          = Ok (Some (14, 26, 27, 40))) as H by (vm_compute; reflexivity).
  split; [exact H|]. exact (find_tag_innermost _ _ _ _ _ _ H).
Defined.

Lemma tag_slice_shape (p text : str) (i e : nat) :
  starts_with p (slice_from text i) = true ->
  ~ In ">"%char p ->
  tag_end text i = Some e ->
  exists mid, slice text i e = p ++ mid ++ [">"%char].
Proof.
  intros P N E. apply starts_with_app in P as [r P].
  apply tag_end_bounds in E as [Hb Hg].
  unfold slice, slice_from in *.
  assert (nth_error (skipn i text) (e - 1 - i) = Some ">"%char) as Hn.
  { rewrite nth_error_skipn. replace (i + (e - 1 - i)) with (e - 1) by lia.
    exact Hg. }
  apply nth_error_split in Hn as (l1 & l2 & L & Hl).
  assert (length p <= length l1) as Hp.
  { destruct (Nat.le_gt_cases (length p) (length l1)) as [|G]; [assumption|].
    exfalso. apply N.
    assert (nth_error (p ++ r) (length l1) = Some ">"%char) as X.
    { rewrite <- P, L, nth_error_app2, Nat.sub_diag by lia. reflexivity. }
    rewrite nth_error_app1 in X by lia. eapply nth_error_In; eauto. }
  exists (firstn (length l1 - length p) r).
  replace (e - i) with (S (length l1)) by lia.
  assert (firstn (length l1) (skipn i text) = l1) as F1.
  { rewrite L, firstn_app, Nat.sub_diag, firstn_all. simpl. apply app_nil_r. }
  assert (firstn (S (length l1)) (skipn i text) = l1 ++ [">"%char]) as F2.
  { rewrite L, firstn_app, firstn_all2 by lia.
    replace (S (length l1) - length l1) with 1 by lia. reflexivity. }
  rewrite F2, app_assoc. f_equal.
  transitivity (firstn (length l1) (skipn i text)); [symmetry; exact F1|].
  rewrite P, firstn_app, firstn_all2 by lia. reflexivity.
Qed.

(** X4.  For a tag name that holds no [>] and does not start with [/],
    the two tags of the occurrence [find_tag] returns have the expected
    shape: [text[start:html_start]] is [<], the name, some text and a
    final [>]; [text[html_end:end]] is [</], the name, some text and a
    final [>]. *)
Theorem find_tag_tag_slices (tag_name text : str) (s hs he e : nat) :
  starts_with "/" tag_name = false ->
  ~ In ">"%char tag_name ->
  find_tag tag_name text = Ok (Some (s, hs, he, e)) ->
  (exists mid, slice text s hs = lit "<" ++ tag_name ++ mid ++ lit ">") /\
  (exists mid, slice text he e = lit "</" ++ tag_name ++ mid ++ lit ">").
Proof.
  intros Hn Hg H. apply find_tag_iff in H.
  inversion H as [| ? ? ? ? O F C E | | | |]; subst.
  assert (tag_form_at tag_name text s = true /\ closing_at text s = false
          /\ tag_end text s = Some hs) as (Ts & Cs & Es).
  { destruct O as [? ? (_ & T & _) C' E' | ? ? ? ? _ (_ & T & _) C' E']; auto. }
  destruct F as (_ & Te & _). split.
  - rewrite (closing_at_closing_form _ _ _ Hn Ts) in Cs.
    unfold tag_form_at, tag_at in Ts. rewrite Cs in Ts. cbn [orb] in Ts.
    destruct (tag_slice_shape _ _ _ hs Ts) as [mid M]; auto.
    + cbn. intros [X | X]; [discriminate | contradiction].
    + exists mid. rewrite M. now rewrite <- !app_assoc.
  - rewrite (closing_at_closing_form _ _ _ Hn Te) in C.
    destruct (tag_slice_shape _ _ _ e C) as [mid M]; auto.
    + cbn. intros [X | [X | X]]; [discriminate | discriminate | contradiction].
    + exists mid. rewrite M. now rewrite <- !app_assoc.
Qed.

Lemma find_tag_tag_slices_witness :
  let text := lit "a<--template --name=" ++ dq "t>" ++ lit ">b</--template >c" in
  (exists mid, slice text 1 25 = lit "<" ++ lit "--template" ++ mid ++ lit ">") /\
  (exists mid, slice text 26 40 = lit "</" ++ lit "--template" ++ mid ++ lit ">").
Proof.
  cbv zeta. apply find_tag_tag_slices.
  - reflexivity.
  - vm_compute. intuition discriminate.
  - vm_compute. reflexivity.
Defined.

(** ** [parse_attributes] *)

Lemma attr_char_not_space (c : ascii) :
  is_attr_char c = true -> is_space c = false.
Proof.
  intros H. destruct (is_space c) eqn:E; [|reflexivity].
  apply space_not_attr_char in E. congruence.
Qed.

Lemma not_in_dquote (v : str) :
  ~ In dquote v <-> Forall (fun x => negb (Ascii.eqb x dquote) = true) v.
Proof.
  rewrite Forall_forall. split.
  - intros N x Hx. apply negb_true_iff, Ascii.eqb_neq. intros ->. contradiction.
  - intros F Hin. specialize (F _ Hin). now rewrite Ascii.eqb_refl in F.
Qed.

Lemma match_attribute_render (k v rest : str) :
  valid_attr (k, v) ->
  match_attribute (k ++ lit "=" ++ dq v ++ rest)
  = Some (k, v, drop_while is_space rest).
Proof.
  intros (Hk & Fk & Hv). cbn [fst snd] in *. apply not_in_dquote in Hv.
  unfold match_attribute, dq. cbn [app lit String.list_ascii_of_string].
  rewrite <- !app_assoc. cbn [app].
  rewrite take_while_app, drop_while_app; try assumption; try reflexivity.
  destruct k as [|c k]; [contradiction|].
  cbn [drop_while]. replace (is_space "=") with false by reflexivity.
  rewrite Ascii.eqb_refl. cbn [drop_while].
  replace (is_space dquote) with false by reflexivity.
  rewrite Ascii.eqb_refl.
  rewrite (take_while_app _ v), (drop_while_app _ v); try assumption;
    try (unfold stops; now rewrite Ascii.eqb_refl).
  reflexivity.
Qed.

Lemma drop_space_render (kv : str * str) (rest : str) :
  valid_attr kv ->
  drop_while is_space (render_attr kv ++ rest)
  = fst kv ++ lit "=" ++ dq (snd kv) ++ rest.
Proof.
  intros (Hk & Fk & _). unfold render_attr.
  cbn [app lit String.list_ascii_of_string drop_while].
  replace (is_space " ") with true by reflexivity.
  rewrite <- !app_assoc. cbn [app].
  apply drop_while_stops_id. destruct (fst kv) as [|c k]; [contradiction|].
  simpl. apply attr_char_not_space. now inversion Fk.
Qed.

Lemma parse_attributes_loop_render (tag : str) (attrs : list (str * str)) :
  Forall valid_attr attrs ->
  forall fuel ret,
    length (drop_while is_space (concat (map render_attr attrs))) < fuel ->
    parse_attributes_loop fuel tag
      (drop_while is_space (concat (map render_attr attrs))) ret
    = Ok (fold_left (fun d (kv : str * str) => Dict.set (fst kv) (snd kv) d)
            attrs ret).
Proof.
  induction 1 as [|[k v] attrs Hkv _ IH]; intros fuel ret Hf.
  - destruct fuel; [simpl in Hf; lia | reflexivity].
  - cbn [map concat] in *. rewrite drop_space_render in * by assumption.
    cbn [fst snd] in *. destruct fuel as [|fuel]; [lia|].
    cbn [parse_attributes_loop].
    pose proof Hkv as (Hk & Fk & Hv). cbn [fst snd] in *.
    rewrite match_attribute_render by assumption.
    destruct k as [|c k]; [contradiction|].
    cbn [app fold_left fst snd]. apply IH.
    pose proof (drop_while_length is_space (concat (map render_attr attrs))).
    cbn [app length] in Hf. rewrite !length_app in Hf. lia.
Qed.

Lemma render_body_no_slash (attrs : list (str * str)) :
  ~ ends_with_slash (concat (map render_attr attrs)).
Proof.
  destruct attrs as [|a attrs'] eqn:Ea.
  - intros [y E]. destruct y; discriminate.
  - rewrite <- Ea. assert (attrs <> []) as Hne by (rewrite Ea; discriminate).
    destruct (exists_last Hne) as (init & [k v] & ->).
    rewrite map_app, concat_app. cbn [map concat]. rewrite app_nil_r.
    set (body := concat (map render_attr init)).
    unfold render_attr, dq. cbn [fst snd]. intros [y E].
    replace (body ++ lit " " ++ k ++ lit "=" ++ dquote :: v ++ [dquote])
      with ((body ++ lit " " ++ k ++ lit "=" ++ dquote :: v) ++ [dquote]) in E
      by (repeat (rewrite <- ?app_assoc; cbn [app]); reflexivity).
    apply app_inj_tail in E as [_ E]. discriminate.
Qed.

Lemma dict_set_fresh {V} (k : str) (v : V) (d : Dict.t V) :
  ~ In k (Dict.keys d) -> Dict.set k v d = d ++ [(k, v)].
Proof.
  induction d as [|[k' v'] d IH]; simpl; [reflexivity|].
  intros N. destruct (str_eqb k k') eqn:E.
  - apply str_eqb_eq in E. subst. tauto.
  - rewrite IH by tauto. reflexivity.
Qed.

Lemma fold_set_nodup (attrs : list (str * str)) :
  forall d,
    NoDup (Dict.keys d ++ map fst attrs) ->
    fold_left (fun d (kv : str * str) => Dict.set (fst kv) (snd kv) d) attrs d
    = d ++ attrs.
Proof.
  induction attrs as [|[k v] attrs IH]; intros d N; simpl.
  - now rewrite app_nil_r.
  - simpl in N. pose proof (NoDup_remove_2 _ _ _ N) as Hk.
    rewrite dict_set_fresh by (intros X; apply Hk, in_or_app; now left).
    rewrite IH.
    + now rewrite <- app_assoc.
    + unfold Dict.keys in *. rewrite map_app. simpl. rewrite <- app_assoc.
      exact N.
Qed.

Lemma parse_attributes_render_dict (name : str) (attrs : list (str * str)) :
  name <> [] -> Forall (fun c => is_tag_char c = true) name ->
  Forall valid_attr attrs ->
  parse_attributes (render_tag name attrs) = Ok (dict_of attrs).
Proof.
  intros Hn Fn Fa.
  set (body := concat (map render_attr attrs)).
  assert (stops is_tag_char (body ++ [">"%char])) as S1.
  { unfold body. destruct attrs as [|kv attrs]; reflexivity. }
  assert (stops is_space (name ++ body ++ [">"%char])) as S2.
  { destruct Fn as [|c nm Hc _]; [contradiction|]. simpl.
    now apply tag_char_not_space. }
  assert (match_tag_open ("<"%char :: name ++ body ++ [">"%char])
          = Some (drop_while is_space body ++ [">"%char])) as O.
  { cbn [match_tag_open]. rewrite Ascii.eqb_refl.
    rewrite (drop_while_stops_id is_space _ S2).
    rewrite take_while_app, drop_while_app by assumption.
    destruct name; [contradiction|].
    now rewrite drop_while_app_stop. }
  assert (subn_tag_close (drop_while is_space body ++ [">"%char])
          = (drop_while is_space body, 1)) as C.
  { apply (subn_tag_close_end (lit ">")); [now right|]. right. intros E.
    apply (render_body_no_slash attrs). fold body.
    rewrite (take_drop_while is_space body).
    now apply ends_with_slash_suffix. }
  unfold parse_attributes, subn_tag.
  change (render_tag name attrs) with ("<"%char :: name ++ body ++ [">"%char]).
  rewrite O, C. cbn [Nat.eqb].
  apply parse_attributes_loop_render; [exact Fa | fold body; lia].
Qed.

(** X5.  Writing a tag out and parsing it is a round trip.  For a tag
    name of word characters and hyphens and attributes the parser can
    read (names among [$], word characters and hyphens, values without a
    double quote), the parser returns the dictionary the attributes build
    in order, a later one replacing an earlier one of the same name; when
    the names are distinct, that is the list itself. *)
Theorem parse_attributes_render (name : str) (attrs : list (str * str)) :
  name <> [] -> Forall (fun c => is_tag_char c = true) name ->
  Forall valid_attr attrs ->
  parse_attributes (render_tag name attrs) = Ok (dict_of attrs) /\
  (NoDup (map fst attrs) -> parse_attributes (render_tag name attrs) = Ok attrs).
Proof.
  intros Hn Fn Fa.
  pose proof (parse_attributes_render_dict name attrs Hn Fn Fa) as P.
  split; [exact P|]. intros N. rewrite P. f_equal. unfold dict_of.
  rewrite fold_set_nodup; [reflexivity | exact N].
Qed.

Lemma parse_attributes_render_witness :
  let attrs := [(lit "--name", lit "card"); (lit "$title", lit "a > b");
                (lit "--name", lit "other")] in
  parse_attributes (render_tag "--template" attrs)
  = Ok [(lit "--name", lit "other"); (lit "$title", lit "a > b")] /\
  parse_attributes (render_tag "--template" (tl attrs)) = Ok (tl attrs).
Proof.
  cbv zeta. split.
  - apply (parse_attributes_render "--template"
             [(lit "--name", lit "card"); (lit "$title", lit "a > b");
              (lit "--name", lit "other")]).
    + discriminate.
    + repeat constructor.
    + repeat constructor; cbn; intuition discriminate.
  - apply (parse_attributes_render "--template"
             [(lit "$title", lit "a > b"); (lit "--name", lit "other")]).
    + discriminate.
    + repeat constructor.
    + repeat constructor; cbn; intuition discriminate.
    + repeat constructor; cbn; intuition discriminate.
Defined.

Lemma match_attribute_valid (text k v rest : str) :
  match_attribute text = Some (k, v, rest) -> valid_attr (k, v).
Proof.
  unfold match_attribute.
  pose proof (take_while_all is_attr_char text) as Fk.
  destruct (take_while is_attr_char text) as [|c name] eqn:T; [discriminate|].
  destruct (drop_while is_space (drop_while is_attr_char text)) as [|e r];
    [discriminate|].
  destruct (Ascii.eqb e "="); [|discriminate].
  destruct (drop_while is_space r) as [|q r']; [discriminate|].
  destruct (Ascii.eqb q dquote); [|discriminate].
  pose proof (take_while_all (fun x => negb (Ascii.eqb x dquote)) r') as Fv.
  destruct (drop_while (fun x => negb (Ascii.eqb x dquote)) r'); [discriminate|].
  intros [= <- <- _]. repeat split; [discriminate | exact Fk |].
  now apply not_in_dquote.
Qed.

Lemma dict_set_valid (k v : str) (d : Dict.t str) :
  Forall valid_attr d -> valid_attr (k, v) -> Forall valid_attr (Dict.set k v d).
Proof.
  intros F H. induction F as [|[k' v'] d Hd Fd IH]; simpl.
  - constructor; [exact H | constructor].
  - destruct (str_eqb k k') eqn:E.
    + apply str_eqb_eq in E. subst. constructor; assumption.
    + constructor; assumption.
Qed.

Lemma parse_attributes_loop_valid (tag : str) :
  forall fuel text ret attrs,
    Forall valid_attr ret ->
    parse_attributes_loop fuel tag text ret = Ok attrs ->
    Forall valid_attr attrs.
Proof.
  induction fuel as [|fuel IH]; intros text ret attrs F H; simpl in H;
    [discriminate|].
  destruct text as [|c text]; [now injection H as <-|].
  destruct (match_attribute (c :: text)) as [[[k v] rest]|] eqn:M;
    [|discriminate].
  eapply IH; [|exact H]. apply dict_set_valid; [exact F|].
  eapply match_attribute_valid; eauto.
Qed.

Lemma match_tag_open_suffix (tag rest : str) :
  match_tag_open tag = Some rest ->
  starts_with "<" tag = true /\ exists c, tag = c ++ rest.
Proof.
  unfold match_tag_open. destruct tag as [|c r]; [discriminate|].
  destruct (Ascii.eqb_spec c "<") as [->|]; [|discriminate].
  destruct (take_while is_tag_char (drop_while is_space r)); [discriminate|].
  intros [= <-]. split; [reflexivity|].
  exists ("<"%char :: take_while is_space r
          ++ take_while is_tag_char (drop_while is_space r)
          ++ take_while is_space
               (drop_while is_tag_char (drop_while is_space r))).
  cbn [app]. f_equal. rewrite <- !app_assoc.
  rewrite <- !take_drop_while. reflexivity.
Qed.

Lemma match_tag_close_end (s rest : str) :
  match_tag_close s = Some rest ->
  (s = lit ">" \/ s = lit "/>" \/ s = ">"%char :: [newline]
   \/ s = "/"%char :: ">"%char :: [newline]) /\ length rest <= 1.
Proof.
  unfold match_tag_close. destruct s as [|c r]; [discriminate|].
  assert (forall x, at_dollar x = true -> x = [] \/ x = [newline]) as D.
  { intros [|a [|b x]]; simpl; try discriminate; auto.
    intros H. apply Ascii.eqb_eq in H. subst. auto. }
  destruct (Ascii.eqb_spec c "/") as [->|].
  - destruct r as [|d r']; [discriminate|].
    destruct (Ascii.eqb_spec d ">") as [->|]; [|discriminate].
    destruct (at_dollar r') eqn:A; [|discriminate]. intros [= <-].
    destruct (D _ A) as [-> | ->]; simpl; split; auto.
  - destruct (Ascii.eqb_spec c ">") as [->|]; [|discriminate].
    destruct (at_dollar r) eqn:A; [|discriminate]. intros [= <-].
    destruct (D _ A) as [-> | ->]; simpl; split; auto.
Qed.

Lemma subn_tag_close_count (s : str) :
  forall t n,
    subn_tag_close s = (t, n) ->
    n = 0 \/ (n = 1 /\ exists pre, s = pre ++ lit ">"
                                   \/ s = pre ++ ">"%char :: [newline]).
Proof.
  induction s as [|c s IH]; intros t n H; cbn [subn_tag_close] in H.
  - destruct (match_tag_close []) eqn:M; [discriminate M|].
    injection H as <- <-. now left.
  - destruct (match_tag_close (c :: s)) as [rest|] eqn:M.
    + injection H as <- <-. right. split; [reflexivity|].
      apply match_tag_close_end in M as [[-> | [-> | [-> | ->]]] _].
      * exists []. now left.
      * exists (lit "/"). now left.
      * exists []. now right.
      * exists (lit "/"). now right.
    + destruct (subn_tag_close s) as [t' n'] eqn:E. injection H as <- <-.
      destruct (IH _ _ eq_refl) as [-> | (-> & pre & [-> | ->])];
        [now left | right; split; [reflexivity|]; exists (c :: pre); auto ..].
Qed.

(** X6.  When [parse_attributes] accepts a tag, the tag starts with a
    [<] and ends with a [>], or with a [>] and a final newline; in the
    dictionary it returns no name occurs twice, every name is one or more
    characters among [$], word characters and hyphens, and no value holds
    a double quote; so the dictionary, written out as a tag, is parsed
    back to itself. *)
Theorem parse_attributes_accepts (tag : str) (attrs : Dict.t str) :
  parse_attributes tag = Ok attrs ->
  starts_with "<" tag = true /\
  (exists pre, tag = pre ++ lit ">" \/ tag = pre ++ ">"%char :: [newline]) /\
  NoDup (Dict.keys attrs) /\ Forall valid_attr attrs /\
  parse_attributes (render_tag "--field" attrs) = Ok attrs.
Proof.
  intros H. pose proof (parse_attributes_nodup _ _ H) as N.
  assert (Forall valid_attr attrs) as V.
  { unfold parse_attributes in H. destruct (subn_tag tag) as [text n].
    destruct (n =? 2); [|discriminate].
    eapply parse_attributes_loop_valid; [|exact H]. constructor. }
  assert (starts_with "<" tag = true /\
          exists pre, tag = pre ++ lit ">" \/ tag = pre ++ ">"%char :: [newline])
    as [S E].
  { unfold parse_attributes, subn_tag in H.
    destruct (match_tag_open tag) as [rest|] eqn:O.
    - apply match_tag_open_suffix in O as [S [c ->]]. split; [exact S|].
      destruct (subn_tag_close rest) as [t n] eqn:C.
      apply subn_tag_close_count in C as [-> | (-> & pre & [-> | ->])].
      + discriminate.
      + exists (c ++ pre). left. now rewrite app_assoc.
      + exists (c ++ pre). right. now rewrite app_assoc.
    - destruct (subn_tag_close tag) as [t n] eqn:C.
      apply subn_tag_close_count in C as [-> | (-> & _)]; discriminate. }
  repeat split; try assumption.
  rewrite parse_attributes_render_dict;
    [|discriminate | repeat constructor | exact V].
  f_equal. unfold dict_of. rewrite fold_set_nodup; [reflexivity | exact N].
Qed.

Lemma parse_attributes_accepts_witness :
  let tag := lit "< div  class = " ++ dq "a" ++ lit " id=" ++ dq "b>c"
             ++ lit " class=" ++ dq "z" ++ lit " />" in
  let attrs := [(lit "class", lit "z"); (lit "id", lit "b>c")] in
  parse_attributes tag = Ok attrs /\
  NoDup (Dict.keys attrs) /\ Forall valid_attr attrs /\
  parse_attributes (render_tag "--field" attrs) = Ok attrs.
Proof.
  cbv zeta.
  assert (parse_attributes
            (lit "< div  class = " ++ dq "a" ++ lit " id=" ++ dq "b>c"
             ++ lit " class=" ++ dq "z" ++ lit " />")
          = Ok [(lit "class", lit "z"); (lit "id", lit "b>c")]) as H
    by (vm_compute; reflexivity).
  split; [exact H|].
  destruct (parse_attributes_accepts _ _ H) as (_ & _ & N & V & R).
  repeat split; assumption.
Defined.

(** ** [process_template] *)

Lemma re_finditer_void_chained (open_ : str) :
  forall s pos skip,
    chained_matches (pos + skip) (re_finditer_void open_ s pos skip).
Proof.
  induction s as [|c s IH]; intros pos skip; cbn [re_finditer_void];
    [exact I|].
  destruct skip as [|k].
  - destruct (match_void_tag open_ (c :: s)) as [len|] eqn:M.
    + apply match_void_tag_length in M. cbn [chained_matches].
      split; [lia|]. split; [lia|].
      replace (pos + len) with (S pos + (len - 1)) by lia. apply IH.
    + specialize (IH (S pos) 0).
      destruct (re_finditer_void open_ s (S pos) 0) as [|[[si ei] t] r];
        [exact I|]. cbn [chained_matches] in *. intuition lia.
  - replace (pos + S k) with (S pos + k) by lia. apply IH.
Qed.

Lemma chained_matches_sorted (subs : list mapping) :
  forall cursor tags,
    chained_matches cursor tags ->
    map (fun m => (m_start m, m_end m)) subs
    = map (fun t : nat * nat * str => (fst (fst t), snd (fst t))) tags ->
    sort_by_start subs = subs /\ chained cursor subs.
Proof.
  induction subs as [|m subs IH]; intros cursor tags C E.
  - split; [reflexivity | exact I].
  - destruct tags as [|[[si ei] t] tags]; [discriminate|].
    cbn [map fst snd] in E. injection E as Es Ee E.
    cbn [chained_matches] in C. destruct C as (C1 & C2 & C3).
    destruct (IH _ _ C3 E) as [So Ch]. split.
    + cbn [sort_by_start fold_right]. fold (sort_by_start subs). rewrite So.
      destruct subs as [|m' subs]; [reflexivity|].
      cbn [insert_by_start]. destruct Ch as [Ch _].
      destruct (Nat.leb_spec (m_start m) (m_start m')); [reflexivity | lia].
    + cbn [chained]. split; [lia|]. rewrite Ee. exact Ch.
Qed.

Lemma map_result_spans (template : File) (fields : Dict.t str)
    (tags : list (nat * nat * str)) (subs : list mapping) :
  map_result
    (fun t : nat * nat * str =>
       let '(si, ei, tag) := t in
       v <- get_field_value template fields tag ;; Ok (mkMapping si ei v))
    tags = Ok subs ->
  map (fun m => (m_start m, m_end m)) subs
  = map (fun t : nat * nat * str => (fst (fst t), snd (fst t))) tags.
Proof.
  revert subs. induction tags as [|[[si ei] tag] tags IH]; intros subs H;
    simpl in H.
  - now injection H as <-.
  - destruct (get_field_value template fields tag); cbn [bind] in H;
      [|discriminate].
    destruct (map_result _ tags) as [bs|] eqn:M; cbn [bind] in H;
      [|discriminate].
    injection H as <-. cbn [map m_start m_end fst snd]. f_equal. now apply IH.
Qed.

Lemma field_error_not_overlap (template : File) (fields : Dict.t str)
    (tags : list (nat * nat * str)) (e : exn) :
  map_result
    (fun t : nat * nat * str =>
       let '(si, ei, tag) := t in
       v <- get_field_value template fields tag ;; Ok (mkMapping si ei v))
    tags = Raise e ->
  e <> doc_err template "overlapping tags".
Proof.
  intros M. apply map_result_raises in M as ([[si ei] tag] & _ & F).
  unfold get_field_value, get_field_dict in F.
  destruct (parse_attributes tag) as [attr|e'] eqn:P; cbn [bind] in F.
  - destruct (Dict.mem "--name" attr); cbn [bind] in F;
      [|injection F as <-; discriminate].
    destruct (Dict.get "--name" attr) as [name|];
      [|injection F as <-; discriminate].
    destruct (Dict.get name fields); [discriminate|].
    destruct (Dict.get "--default" attr); [discriminate|].
    cbn [bind] in F. injection F as <-. unfold doc_err. intros [= H].
    repeat (apply app_inv_head in H). discriminate.
  - injection F as <-. apply parse_attributes_raises in P. subst.
    discriminate.
Qed.

(** X7.  The overlapping-tags defect needs both kinds of tag: the matches
    of one pattern never overlap one another, so [process_template] raises
    it only for a template in which a field tag and a content-slot tag are
    both found. *)
Theorem process_template_overlap_needs_both (template : File)
    (fields : Dict.t str) (inner_html text : str) :
  kind template = Document text ->
  process_template template fields inner_html
  = Raise (doc_err template "overlapping tags") ->
  re_finditer_void "<--field" text 0 0 <> [] /\
  re_finditer_void "<--inner-html" text 0 0 <> [].
Proof.
  intros K H. unfold process_template in H. rewrite K in H.
  pose proof (re_finditer_void_chained "<--field" text 0 0) as Cf.
  pose proof (re_finditer_void_chained "<--inner-html" text 0 0) as Ci.
  destruct (map_result _ (re_finditer_void "<--field" text 0 0))
    as [subs|e] eqn:M; cbn [bind] in H.
  - pose proof (map_result_spans _ _ _ _ M) as Sp.
    split; intros E; rewrite E in *.
    + destruct subs; [|discriminate]. cbn [app] in H.
      unfold splice in H.
      destruct (chained_matches_sorted
                  (map (fun t : nat * nat * str =>
                          let '(si, ei, _) := t in mkMapping si ei inner_html)
                       (re_finditer_void "<--inner-html" text 0 0))
                  0 _ Ci) as [So Ch].
      { rewrite map_map. apply map_ext. now intros [[si ei] t]. }
      rewrite So in H.
      destruct (splice_loop_chained template text _ 0 [] Ch) as [r R].
      congruence.
    + cbn [map] in H. rewrite app_nil_r in H. unfold splice in H.
      destruct (chained_matches_sorted subs 0 _ Cf Sp) as [So Ch].
      rewrite So in H.
      destruct (splice_loop_chained template text _ 0 [] Ch) as [r R].
      congruence.
  - injection H as ->. now apply field_error_not_overlap in M.
Qed.

Lemma process_template_overlap_needs_both_witness :
  re_finditer_void "<--field"
    (lit "<--field --name=" ++ dq "a" ++ lit " --default="
     ++ dq "<--inner-html>" ++ lit ">") 0 0 <> [] /\
  re_finditer_void "<--inner-html"
    (lit "<--field --name=" ++ dq "a" ++ lit " --default="
     ++ dq "<--inner-html>" ++ lit ">") 0 0 <> [].
Proof.
  apply (process_template_overlap_needs_both
           (mkFile "t/t.html" "t.html" 5
              (Document (lit "<--field --name=" ++ dq "a"
                         ++ lit " --default=" ++ dq "<--inner-html>"
                         ++ lit ">")))
           Dict.empty "x" _ eq_refl).
  vm_compute. reflexivity.
Defined.

Lemma re_finditer_void_skip (open_ : str) (s : str) :
  forall a pos,
    re_finditer_void open_ (a ++ s) pos (length a)
    = re_finditer_void open_ s (pos + length a) 0.
Proof.
  induction a as [|c a IH]; intros pos; cbn [app length].
  - now rewrite Nat.add_0_r.
  - cbn [re_finditer_void]. rewrite IH. f_equal. lia.
Qed.

Lemma match_void_attr_render (kv : str * str) (rest : str) :
  void_attr kv -> match_void_attr (render_attr kv ++ rest) = Some rest.
Proof.
  destruct kv as [k v]. intros (Hk & Fk & Fv). cbn [fst snd] in *.
  unfold match_void_attr, render_attr, dq. cbn [fst snd].
  cbn [app lit String.list_ascii_of_string].
  rewrite <- !app_assoc. cbn [app take_while drop_while].
  replace (is_blank " ") with true by reflexivity.
  destruct k as [|c k]; [contradiction|].
  assert (is_blank c = false) as Bc.
  { destruct (is_blank c) eqn:E; [|reflexivity].
    apply blank_space in E. inversion Fk as [|? ? Hc _]; subst.
    apply tag_char_not_space in Hc. congruence. }
  cbn [app drop_while]. rewrite Bc.
  rewrite <- app_assoc. cbn [app].
  change (c :: k ++ "="%char :: dquote :: v ++ dquote :: rest)
    with ((c :: k) ++ "="%char :: dquote :: v ++ dquote :: rest).
  rewrite take_while_app, drop_while_app; try assumption; try reflexivity.
  cbn [drop_while]. replace (is_blank "=") with false by reflexivity.
  rewrite Ascii.eqb_refl. cbn [drop_while].
  replace (is_blank dquote) with false by reflexivity.
  rewrite Ascii.eqb_refl.
  rewrite (drop_while_app _ v); try assumption;
    try (unfold stops, is_value_char; now rewrite Ascii.eqb_refl).
Qed.

Lemma match_void_attrs_render (rest : str) (attrs : list (str * str)) :
  Forall void_attr attrs -> match_void_attr rest = None ->
  forall fuel,
    length attrs <= fuel ->
    match_void_attrs fuel (concat (map render_attr attrs) ++ rest) = rest.
Proof.
  intros F N. induction F as [|kv attrs Hkv _ IH]; intros fuel L.
  - destruct fuel; cbn [map concat app match_void_attrs]; [reflexivity|].
    now rewrite N.
  - destruct fuel as [|fuel]; [cbn [length] in L; lia|].
    cbn [map concat match_void_attrs]. rewrite <- app_assoc.
    rewrite match_void_attr_render by exact Hkv.
    apply IH. cbn [length] in L. lia.
Qed.

Lemma render_body_length (attrs : list (str * str)) :
  length attrs <= length (concat (map render_attr attrs)).
Proof.
  induction attrs as [|kv attrs IH]; cbn [map concat length]; [lia|].
  rewrite length_app. unfold render_attr at 1.
  cbn [app lit String.list_ascii_of_string length]. lia.
Qed.

Lemma match_void_tag_render (name : str) (attrs : list (str * str))
    (post : str) :
  Forall void_attr attrs ->
  match_void_tag ("<"%char :: name) (render_tag name attrs ++ post)
  = Some (length (render_tag name attrs)).
Proof.
  intros F. unfold match_void_tag, render_tag.
  change (lit "<" ++ name ++ concat (map render_attr attrs) ++ lit ">")
    with (("<"%char :: name) ++ concat (map render_attr attrs) ++ [">"%char]).
  rewrite <- !app_assoc.
  assert (starts_with ("<"%char :: name)
            (("<"%char :: name) ++ concat (map render_attr attrs)
             ++ [">"%char] ++ post) = true) as ->
    by (apply starts_with_app; eauto).
  rewrite skipn_app, skipn_all, Nat.sub_diag. cbn [skipn app].
  rewrite match_void_attrs_render; try assumption; try reflexivity.
  - change (match_void_close (">"%char :: post)) with (Some post).
    cbv iota. f_equal. cbn [app length]. rewrite !length_app. cbn [length].
    lia.
  - rewrite length_app. pose proof (render_body_length attrs). lia.
Qed.

Lemma splice_single (template : File) (pre tag post repl : str) :
  splice template (pre ++ tag ++ post)
    [mkMapping (length pre) (length pre + length tag) repl]
  = Ok (pre ++ repl ++ post).
Proof.
  unfold splice. cbn [sort_by_start fold_right insert_by_start splice_loop
                        m_start m_end m_repl].
  destruct (Nat.ltb_spec (length pre) 0); [lia|].
  rewrite concat_chars. cbn [concat app]. rewrite app_nil_r.
  unfold slice_from, slice.
  rewrite Nat.sub_0_r. cbn [skipn]. rewrite firstn_app, firstn_all, Nat.sub_diag.
  cbn [firstn]. rewrite app_nil_r, <- app_assoc. do 3 f_equal.
  rewrite (app_assoc pre tag post), <- length_app, skipn_app, skipn_all,
    Nat.sub_diag.
  reflexivity.
Qed.

Lemma occurrences_complete (p s : str) :
  p <> [] ->
  forall j pos,
    starts_with p (skipn j s) = true -> In (pos + j) (occurrences p s pos).
Proof.
  intros Hp. induction s as [|c s IH]; intros j pos H.
  - destruct j, p; cbn in H; congruence.
  - destruct j as [|j].
    + cbn [skipn] in H. cbn [occurrences]. rewrite H, Nat.add_0_r. now left.
    + cbn [skipn] in H. apply (IH j (S pos)) in H.
      replace (pos + S j) with (S pos + j) by lia.
      cbn [occurrences]. destruct (starts_with p (c :: s)); [now right|].
      exact H.
Qed.

Lemma starts_with_prefix (p o s : str) :
  starts_with (p ++ o) s = true -> starts_with p s = true.
Proof.
  rewrite !starts_with_app. intros [r ->]. exists (o ++ r).
  now rewrite app_assoc.
Qed.

(** No match starts where the marker that opens both patterns does not
    stand. *)
Lemma re_finditer_void_none (o : str) :
  forall s pos skip,
    (forall i, skip <= i -> starts_with "<--" (skipn i s) = false) ->
    re_finditer_void (lit "<--" ++ o) s pos skip = [].
Proof.
  induction s as [|c s IH]; intros pos skip N; cbn [re_finditer_void];
    [reflexivity|].
  destruct skip as [|k].
  - unfold match_void_tag.
    destruct (starts_with (lit "<--" ++ o) (c :: s)) eqn:E.
    + apply starts_with_prefix in E. pose proof (N 0 ltac:(lia)) as N0.
      cbn [skipn] in N0. congruence.
    + apply IH. intros i _. apply (N (S i)). lia.
  - apply IH. intros i Hi. apply (N (S i)). lia.
Qed.

Lemma re_finditer_void_walk (o : str) :
  forall n s pos,
    (forall i, i < n -> starts_with "<--" (skipn i s) = false) ->
    re_finditer_void (lit "<--" ++ o) s pos 0
    = re_finditer_void (lit "<--" ++ o) (skipn n s) (pos + n) 0.
Proof.
  induction n as [|n IH]; intros s pos N.
  - now rewrite Nat.add_0_r.
  - destruct s as [|c s]; [reflexivity|].
    cbn [skipn]. cbn [re_finditer_void]. unfold match_void_tag.
    destruct (starts_with (lit "<--" ++ o) (c :: s)) eqn:E.
    + apply starts_with_prefix in E. pose proof (N 0 ltac:(lia)) as N0.
      cbn [skipn] in N0. congruence.
    + rewrite (IH s (S pos)). { f_equal. lia. }
      intros i Hi. apply (N (S i)). lia.
Qed.

(** The matches in a text whose only marker opens [tag]. *)
Lemma re_finditer_void_single (o pre tag post : str) :
  occurrences "<--" (pre ++ tag ++ post) 0 = [length pre] ->
  re_finditer_void (lit "<--" ++ o) (pre ++ tag ++ post) 0 0
  = match match_void_tag (lit "<--" ++ o) (tag ++ post) with
    | Some len =>
      [(length pre, length pre + len, firstn len (tag ++ post))]
    | None => []
    end.
Proof.
  intros O.
  assert (forall i, starts_with "<--" (skipn i (pre ++ tag ++ post)) = true ->
                    i = length pre) as U.
  { intros i H. apply (occurrences_complete "<--" _ ltac:(discriminate) i 0) in H.
    rewrite O in H. destruct H as [H|[]]. now subst. }
  rewrite (re_finditer_void_walk o (length pre)).
  2:{ intros i Hi.
      destruct (starts_with "<--" (skipn i (pre ++ tag ++ post))) eqn:E;
        [|reflexivity]. apply U in E. lia. }
  rewrite skipn_length_app. cbn [Nat.add].
  assert (forall i, starts_with "<--" (skipn (S i) (tag ++ post)) = false)
    as T.
  { intros i.
    destruct (starts_with "<--" (skipn (S i) (tag ++ post))) eqn:E;
      [|reflexivity].
    assert (skipn (S i) (tag ++ post)
            = skipn (length pre + S i) (pre ++ tag ++ post)) as E'.
    { replace (length pre + S i) with (S i + length pre) by lia.
      now rewrite <- skipn_skipn_add, skipn_length_app. }
    rewrite E' in E. apply U in E. lia. }
  destruct (tag ++ post) as [|c r] eqn:Er.
  - destruct o; reflexivity.
  - cbn [re_finditer_void].
    destruct (match_void_tag (lit "<--" ++ o) (c :: r)) as [len|].
    + f_equal. apply re_finditer_void_none. intros i _. apply (T i).
    + apply re_finditer_void_none. intros i _. apply (T i).
Qed.

Lemma firstn_length_app {A} (a r : list A) : firstn (length a) (a ++ r) = a.
Proof.
  now rewrite firstn_app, firstn_all, Nat.sub_diag, app_nil_r.
Qed.

(** X8.  A template whose only placeholder is a content-slot tag, with or
    without attributes, comes back with the inner HTML in the place of the
    tag and everything else as it was; the inner HTML is inserted as it
    is, whatever it contains, and the fields provided play no part. *)
Theorem process_template_content_slot (template : File) (fields : Dict.t str)
    (inner_html pre post : str) (attrs : list (str * str)) :
  kind template = Document (pre ++ render_tag "--inner-html" attrs ++ post) ->
  Forall void_attr attrs ->
  occurrences "<--" (pre ++ render_tag "--inner-html" attrs ++ post) 0
  = [length pre] ->
  process_template template fields inner_html = Ok (pre ++ inner_html ++ post).
Proof.
  intros K F O. unfold process_template. rewrite K. cbv zeta.
  set (tag := render_tag "--inner-html" attrs) in *.
  assert (re_finditer_void "<--field" (pre ++ tag ++ post) 0 0 = []) as ->.
  { change (lit "<--field") with (lit "<--" ++ lit "field").
    rewrite re_finditer_void_single by exact O. reflexivity. }
  assert (re_finditer_void "<--inner-html" (pre ++ tag ++ post) 0 0
          = [(length pre, length pre + length tag, tag)]) as ->.
  { change (lit "<--inner-html") with (lit "<--" ++ lit "inner-html").
    rewrite re_finditer_void_single by exact O.
    change (lit "<--" ++ lit "inner-html")
      with ("<"%char :: lit "--inner-html").
    unfold tag. rewrite match_void_tag_render by exact F.
    now rewrite firstn_length_app. }
  cbn [map_result bind map app]. apply splice_single.
Qed.

Lemma process_template_content_slot_witness :
  process_template
    (mkFile "t/page.html" "page.html" 5
       (Document (lit "<main>" ++ render_tag "--inner-html" [] ++ lit "</main>")))
    (Dict.set (lit "title") (lit "unused") Dict.empty) "<--field --name="
  = Ok (lit "<main>" ++ lit "<--field --name=" ++ lit "</main>").
Proof.
  apply (process_template_content_slot _ _ _ "<main>" "</main>" []).
  - reflexivity.
  - constructor.
  - reflexivity.
Defined.

(** X9.  A template whose only placeholder is a field tag comes back with
    the tag replaced and everything else as it was: by the value provided
    for the field named by [--name]; when none is provided, by the value
    of [--default]; and with neither, the template is rejected with the
    message that the field is required. *)
Theorem process_template_field (template : File) (fields : Dict.t str)
    (inner_html pre post name : str) (attrs : list (str * str)) :
  kind template = Document (pre ++ render_tag "--field" attrs ++ post) ->
  Forall void_attr attrs ->
  occurrences "<--" (pre ++ render_tag "--field" attrs ++ post) 0
  = [length pre] ->
  Dict.get "--name" (dict_of attrs) = Some name ->
  process_template template fields inner_html =
  match Dict.get name fields with
  | Some value => Ok (pre ++ value ++ post)
  | None =>
    match Dict.get "--default" (dict_of attrs) with
    | Some value => Ok (pre ++ value ++ post)
    | None =>
      Raise (doc_err template (lit "field `" ++ name ++ lit "` required"))
    end
  end.
Proof.
  intros K F O N. unfold process_template. rewrite K. cbv zeta.
  assert (parse_attributes (render_tag "--field" attrs) = Ok (dict_of attrs))
    as P.
  { apply parse_attributes_render_dict; [discriminate | repeat constructor |].
    eapply Forall_impl; [|exact F]. intros [k v] (Hk & Fk & Fv).
    cbn [fst snd] in *. split; [exact Hk|]. split.
    - eapply Forall_impl; [|exact Fk]. apply tag_char_attr_char.
    - apply not_in_dquote. eapply Forall_impl; [|exact Fv].
      apply value_char_not_quote. }
  set (tag := render_tag "--field" attrs) in *.
  assert (re_finditer_void "<--inner-html" (pre ++ tag ++ post) 0 0 = [])
    as ->.
  { change (lit "<--inner-html") with (lit "<--" ++ lit "inner-html").
    rewrite re_finditer_void_single by exact O. reflexivity. }
  assert (re_finditer_void "<--field" (pre ++ tag ++ post) 0 0
          = [(length pre, length pre + length tag, tag)]) as ->.
  { change (lit "<--field") with (lit "<--" ++ lit "field").
    rewrite re_finditer_void_single by exact O.
    change (lit "<--" ++ lit "field") with ("<"%char :: lit "--field").
    unfold tag. rewrite match_void_tag_render by exact F.
    now rewrite firstn_length_app. }
  cbn [map_result]. rewrite (get_field_value_cases _ _ _ _ P), N.
  destruct (Dict.get name fields) as [value|].
  - cbn [bind map app]. apply splice_single.
  - destruct (Dict.get "--default" (dict_of attrs)) as [value|].
    + cbn [bind map app]. apply splice_single.
    + reflexivity.
Qed.

Lemma process_template_field_witness :
  process_template
    (mkFile "t/head.html" "head.html" 5
       (Document (lit "<h1>"
                  ++ render_tag "--field"
                       [(lit "--name", lit "title"); (lit "--default", lit "Home")]
                  ++ lit "</h1>")))
    Dict.empty "x"
  = Ok (lit "<h1>" ++ lit "Home" ++ lit "</h1>").
Proof.
  apply (process_template_field _ Dict.empty "x" "<h1>" "</h1>" "title"
           [(lit "--name", lit "title"); (lit "--default", lit "Home")]).
  - reflexivity.
  - repeat constructor; discriminate.
  - reflexivity.
  - reflexivity.
Defined.

(** X10.  A template in which the marker that opens both placeholders
    does not occur is returned unchanged, whatever fields and inner HTML
    are passed. *)
Theorem process_template_no_placeholder (template : File)
    (fields : Dict.t str) (inner_html text : str) :
  kind template = Document text ->
  occurrences "<--" text 0 = [] ->
  process_template template fields inner_html = Ok text.
Proof.
  intros K O. unfold process_template. rewrite K. cbv zeta.
  assert (forall i, 0 <= i -> starts_with "<--" (skipn i text) = false) as U.
  { intros i _. destruct (starts_with "<--" (skipn i text)) eqn:E;
      [|reflexivity].
    apply (occurrences_complete "<--" _ ltac:(discriminate) i 0) in E.
    rewrite O in E. destruct E. }
  change (lit "<--field") with (lit "<--" ++ lit "field").
  change (lit "<--inner-html") with (lit "<--" ++ lit "inner-html").
  rewrite !re_finditer_void_none by exact U.
  cbn [map_result bind map app]. unfold splice.
  cbn [sort_by_start fold_right splice_loop]. rewrite concat_chars.
  reflexivity.
Qed.

Lemma process_template_no_placeholder_witness :
  process_template
    (mkFile "t/foot.html" "foot.html" 5
       (Document "<footer><!-- fixed --></footer>"))
    (Dict.set (lit "year") (lit "2024") Dict.empty) "<p>"
  = Ok (lit "<footer><!-- fixed --></footer>").
Proof.
  apply process_template_no_placeholder; reflexivity.
Defined.

(** ** [template_ident] *)

Lemma match_html_suffix_shape (s rest : str) :
  match_html_suffix s = Some rest ->
  at_dollar rest = true /\
  (s = lit ".html" ++ rest \/ s = lit ".htm" ++ rest).
Proof.
  unfold match_html_suffix.
  destruct (starts_with ".html" s) eqn:E5; cbn [andb].
  - destruct (at_dollar (skipn 5 s)) eqn:D5.
    + intros [= <-]. split; [exact D5|]. left.
      apply starts_with_app in E5 as [r ->]. reflexivity.
    + destruct (starts_with ".htm" s) eqn:E4; cbn [andb]; [|discriminate].
      destruct (at_dollar (skipn 4 s)) eqn:D4; [|discriminate].
      intros [= <-]. split; [exact D4|]. right.
      apply starts_with_app in E4 as [r ->]. reflexivity.
  - destruct (starts_with ".htm" s) eqn:E4; cbn [andb]; [|discriminate].
    destruct (at_dollar (skipn 4 s)) eqn:D4; [|discriminate].
    intros [= <-]. split; [exact D4|]. right.
    apply starts_with_app in E4 as [r ->]. reflexivity.
Qed.

Lemma at_dollar_cases (s : str) :
  at_dollar s = true -> s = [] \/ s = [newline].
Proof.
  destruct s as [|c [|d s]]; cbn [at_dollar]; intros H;
    [now left | right | discriminate].
  apply Ascii.eqb_eq in H. now subst.
Qed.

Lemma match_html_suffix_inside (c : ascii) (stem suffix : str) :
  suffix = lit ".html" \/ suffix = lit ".htm" ->
  match_html_suffix (c :: stem ++ suffix) = None.
Proof.
  intros Hs.
  destruct (match_html_suffix (c :: stem ++ suffix)) as [rest|] eqn:M;
    [exfalso | reflexivity].
  apply match_html_suffix_shape in M as [D E].
  apply at_dollar_cases in D.
  assert (length (c :: stem ++ suffix) = 1 + (length stem + length suffix))
    as L by (cbn [length]; now rewrite length_app).
  assert (rev (c :: stem ++ suffix) = rev suffix ++ rev stem ++ [c]) as R
    by (cbn [rev]; now rewrite rev_app_distr, app_assoc).
  destruct D as [-> | ->], E as [E|E], Hs as [-> | ->]; rewrite E in L, R;
    cbn in L, R; try lia; discriminate.
Qed.

Lemma sub_html_suffix_strips (stem suffix : str) :
  suffix = lit ".html" \/ suffix = lit ".htm" ->
  sub_html_suffix (stem ++ suffix) = stem.
Proof.
  intros Hs. induction stem as [|c stem IH].
  - destruct Hs as [-> | ->]; reflexivity.
  - cbn [app sub_html_suffix].
    rewrite (match_html_suffix_inside c stem suffix Hs). now rewrite IH.
Qed.

(** X11.  The identifier of a template is its relative path without the
    final [.html] or [.htm], whatever the rest of the path is; so
    [card.html] and [card.htm] are referred to by the same name. *)
Theorem template_ident_strips_suffix (template : File) (stem : str) :
  relpath template = stem ++ lit ".html" \/
  relpath template = stem ++ lit ".htm" ->
  template_ident template = stem.
Proof.
  unfold template_ident.
  intros [-> | ->]; apply sub_html_suffix_strips; [now left | now right].
Qed.

Lemma template_ident_strips_suffix_witness :
  template_ident (mkFile "t/a.html.htm" "a.html.htm" 3 (Document "x"))
  = lit "a.html".
Proof.
  apply (template_ident_strips_suffix _ "a.html"). right. reflexivity.
Defined.

(** ** [create_page_builds] *)

Lemma map_result_Forall2 {A B} (f : A -> result B) (l : list A) :
  forall bs, map_result f l = Ok bs -> Forall2 (fun a b => f a = Ok b) l bs.
Proof.
  induction l as [|a l IH]; intros bs H; cbn [map_result] in H.
  - injection H as <-. constructor.
  - destruct (f a) as [b|] eqn:F; cbn [bind] in H; [|discriminate].
    destruct (map_result f l) as [bs'|]; cbn [bind] in H; [|discriminate].
    injection H as <-. constructor; [exact F | now apply IH].
Qed.

Lemma Forall2_In_r {A B} (R : A -> B -> Prop) (l : list A) (l' : list B) (b : B) :
  Forall2 R l l' -> In b l' -> exists a, In a l /\ R a b.
Proof.
  induction 1 as [|x y l l' Hxy _ IH]; intros I; [destruct I|].
  destruct I as [<- | I].
  - exists x. split; [now left | exact Hxy].
  - destruct (IH I) as (a & Ia & Ra). exists a. split; [now right | exact Ra].
Qed.

Lemma Forall2_In_l {A B} (R : A -> B -> Prop) (l : list A) (l' : list B) (a : A) :
  Forall2 R l l' -> In a l -> exists b, In b l' /\ R a b.
Proof.
  induction 1 as [|x y l l' Hxy _ IH]; intros I; [destruct I|].
  destruct I as [<- | I].
  - exists y. split; [now left | exact Hxy].
  - destruct (IH I) as (b & Ib & Rb). exists b. split; [now right | exact Rb].
Qed.

(** The builds planned: one for each source page, in the order of the
    listing, then those not required taken out. *)
Lemma create_page_builds_all (src_pages built_files templates_list : list File)
    (out : str) (force_rebuild : bool) (builds : list PageBuild) :
  create_page_builds src_pages built_files templates_list out force_rebuild
  = Ok builds ->
  exists all,
    Forall2
      (fun page b =>
         exists used,
           get_templates_used
             (fold_left (fun d doc => Dict.set (template_ident doc) doc d)
                templates_list Dict.empty) page = Ok used /\
           b = new_PageBuild page out (get_existing built_files page) used)
      src_pages all /\
    builds = filter (is_required force_rebuild) all.
Proof.
  unfold create_page_builds. cbv zeta.
  destruct (map_result _ src_pages) as [all|] eqn:M; cbn [bind];
    [|discriminate].
  intros [= <-]. exists all. split; [|reflexivity].
  apply map_result_Forall2 in M.
  eapply Forall2_impl; [|exact M]. cbv beta. intros page b H.
  destruct (get_templates_used _ page) as [used|]; cbn [bind] in H;
    [|discriminate].
  injection H as <-. now exists used.
Qed.

Lemma fold_set_last {V} (ident : V -> str) (n : str) (t : V) (l : list V) :
  forall d0,
    Dict.get n (fold_left (fun d doc => Dict.set (ident doc) doc d) l d0)
    = Some t ->
    (exists l1 l2, l = l1 ++ t :: l2 /\ ident t = n /\
                   Forall (fun t' => ident t' <> n) l2) \/
    (Dict.get n d0 = Some t /\ Forall (fun t' => ident t' <> n) l).
Proof.
  induction l as [|x l IH] using rev_ind; intros d0 H.
  - right. split; [exact H | constructor].
  - rewrite fold_left_app in H. cbn [fold_left] in H.
    destruct (list_eq_dec ascii_dec n (ident x)) as [E|N].
    + subst n. rewrite dict_get_set_same in H. injection H as <-.
      left. exists l, []. split; [reflexivity|]. split; [reflexivity|].
      constructor.
    + rewrite dict_get_set_other in H by exact N.
      destruct (IH _ H) as [(l1 & l2 & -> & Ht & F) | [G F]].
      * left. exists l1, (l2 ++ [x]). rewrite <- app_assoc. split;
          [reflexivity|]. split; [exact Ht|].
        apply Forall_app. split; [exact F|]. constructor; [congruence|].
        constructor.
      * right. split; [exact G|]. apply Forall_app. split; [exact F|].
        constructor; [congruence | constructor].
Qed.

Lemma get_templates_used_entries (templates : Dict.t File) (page : File)
    (used : Dict.t File) (n : str) (t : File) :
  get_templates_used templates page = Ok used ->
  Dict.get n used = Some t -> Dict.get n templates = Some t.
Proof.
  unfold get_templates_used.
  destruct (template_names page) as [names|]; cbn [bind]; [|discriminate].
  assert (forall k v, Dict.get k (@Dict.empty File) = Some v ->
                      Dict.get k templates = Some v) as I0 by discriminate.
  revert I0. generalize (@Dict.empty File) as ret.
  induction names as [|name names IH]; intros ret I H G.
  - injection H as <-. now apply I.
  - destruct (Dict.get name templates) as [t'|] eqn:E; [|discriminate].
    apply (IH (Dict.set name t' ret)); [|exact H | exact G].
    intros k v Hk. destruct (list_eq_dec ascii_dec k name) as [->|N].
    + rewrite dict_get_set_same in Hk. congruence.
    + rewrite dict_get_set_other in Hk by exact N. now apply I.
Qed.

(** X12.  The templates a planned build holds are taken from the template
    listing by identifier: a template held under a name has that name for
    identifier, and when several templates of the listing share the
    identifier it is the last of them. *)
Theorem create_page_builds_templates
    (src_pages built_files templates_list : list File) (out : str)
    (force_rebuild : bool) (builds : list PageBuild) (b : PageBuild)
    (n : str) (t : File) :
  create_page_builds src_pages built_files templates_list out force_rebuild
  = Ok builds ->
  In b builds -> Dict.get n (templates b) = Some t ->
  template_ident t = n /\
  exists l1 l2, templates_list = l1 ++ t :: l2 /\
                Forall (fun t' => template_ident t' <> n) l2.
Proof.
  intros C I G. apply create_page_builds_all in C as (all & F & ->).
  apply filter_In in I as [I _].
  destruct (Forall2_In_r _ _ _ _ F I) as (page & _ & used & U & ->).
  cbn [templates new_PageBuild] in G.
  apply (get_templates_used_entries _ _ _ _ _ U) in G.
  apply fold_set_last in G as [(l1 & l2 & E & Ht & Fl) | [G _]];
    [|discriminate].
  split; [exact Ht|]. now exists l1, l2.
Qed.

Lemma create_page_builds_templates_witness :
  template_ident (mkFile "t/card.htm" "card.htm" 6 (Document "two"))
  = lit "card" /\
  exists l1 l2,
    [mkFile "t/card.html" "card.html" 5 (Document "one");
     mkFile "t/card.htm" "card.htm" 6 (Document "two")]
    = l1 ++ mkFile "t/card.htm" "card.htm" 6 (Document "two") :: l2 /\
    Forall (fun t' => template_ident t' <> lit "card") l2.
Proof.
  apply (create_page_builds_templates
           [mkFile "d/index.html" "index.html" 9
              (Document (lit "<--template --name=" ++ dq "card"
                         ++ lit ">hello</--template>"))]
           []
           [mkFile "t/card.html" "card.html" 5 (Document "one");
            mkFile "t/card.htm" "card.htm" 6 (Document "two")]
           "out" false
           [new_PageBuild
              (mkFile "d/index.html" "index.html" 9
                 (Document (lit "<--template --name=" ++ dq "card"
                            ++ lit ">hello</--template>")))
              "out" None
              [(lit "card", mkFile "t/card.htm" "card.htm" 6 (Document "two"))]]
           (new_PageBuild
              (mkFile "d/index.html" "index.html" 9
                 (Document (lit "<--template --name=" ++ dq "card"
                            ++ lit ">hello</--template>")))
              "out" None
              [(lit "card", mkFile "t/card.htm" "card.htm" 6 (Document "two"))])).
  - vm_compute. reflexivity.
  - left. reflexivity.
  - reflexivity.
Defined.

(** X13.  What is planned, page by page: with a forced rebuild every
    source page gets a build, in the order of the listing; without it, a
    page that has no built file of the same relative path still gets one;
    and every build planned is for a source page, goes to the output
    directory given, and replaces the first built file of the same
    relative path, if there is one. *)
Theorem create_page_builds_selection
    (src_pages built_files templates_list : list File) (out : str)
    (force_rebuild : bool) (builds : list PageBuild) :
  create_page_builds src_pages built_files templates_list out force_rebuild
  = Ok builds ->
  (force_rebuild = true -> map src builds = src_pages) /\
  (forall page, In page src_pages ->
                (forall f, In f built_files -> relpath f <> relpath page) ->
                In page (map src builds)) /\
  (forall b, In b builds ->
     In (src b) src_pages /\ out_path b = out /\
     match replace b with
     | Some f =>
       exists l1 l2, built_files = l1 ++ f :: l2 /\
                     relpath f = relpath (src b) /\
                     forall f', In f' l1 -> relpath f' <> relpath (src b)
     | None => forall f, In f built_files -> relpath f <> relpath (src b)
     end).
Proof.
  intros C. apply create_page_builds_all in C as (all & F & ->).
  split; [|split].
  - intros ->. clear - F.
    induction F as [|page b l l' (used & _ & ->) _ IH]; [reflexivity|].
    cbn [filter is_required map]. cbn [src new_PageBuild]. now f_equal.
  - intros page I N.
    destruct (Forall2_In_l _ _ _ _ F I) as (b & Ib & used & _ & ->).
    apply in_map_iff. eexists. split; [|apply filter_In; split; [exact Ib|]].
    + reflexivity.
    + unfold is_required. destruct force_rebuild; [reflexivity|].
      cbn [replace new_PageBuild]. unfold get_existing.
      destruct (find _ built_files) as [f|] eqn:E; [|reflexivity].
      apply find_some in E as [If Ef]. apply str_eqb_eq in Ef.
      now apply N in If.
  - intros b I. apply filter_In in I as [I _].
    destruct (Forall2_In_r _ _ _ _ F I) as (page & Ip & used & _ & ->).
    cbn [src out_path replace new_PageBuild].
    split; [exact Ip|]. split; [reflexivity|].
    unfold get_existing. clear.
    induction built_files as [|f fs IH]; cbn [find]; [intros f []|].
    destruct (str_eqb (relpath f) (relpath page)) eqn:E.
    + apply str_eqb_eq in E. exists [], fs. split; [reflexivity|].
      split; [exact E|]. intros f' [].
    + apply str_eqb_neq in E.
      destruct (find _ fs) as [g|].
      * destruct IH as (l1 & l2 & -> & Eg & N). exists (f :: l1), l2.
        split; [reflexivity|]. split; [exact Eg|].
        intros f' [<- | I']; [exact E | now apply N].
      * intros f' [<- | I']; [exact E | now apply IH].
Qed.

Lemma create_page_builds_selection_witness :
  map src
    [new_PageBuild (mkFile "d/a.css" "a.css" 1 Blob) "out"
       (Some (mkFile "out/a.css" "a.css" 7 Blob)) []]
  = [mkFile "d/a.css" "a.css" 1 Blob].
Proof.
  apply (create_page_builds_selection
           [mkFile "d/a.css" "a.css" 1 Blob]
           [mkFile "out/a.css" "a.css" 7 Blob] [] "out" true).
  - vm_compute. reflexivity.
  - reflexivity.
Defined.

Lemma get_templates_used_none (templates : Dict.t File) (page : File) :
  template_names page = Ok [] ->
  get_templates_used templates page = Ok Dict.empty.
Proof. unfold get_templates_used. now intros ->. Qed.

(** X14.  A planned build whose source is not a document, or is a
    document in which no template tag is found, holds no template and is
    not to be processed: [process] hands it back as it is, for the writer
    to copy the source file. *)
Theorem create_page_builds_pass_through
    (src_pages built_files templates_list : list File) (out : str)
    (force_rebuild : bool) (builds : list PageBuild) (b : PageBuild)
    (depth : nat) :
  create_page_builds src_pages built_files templates_list out force_rebuild
  = Ok builds ->
  In b builds ->
  kind (src b) = Blob \/
  (exists content, kind (src b) = Document content /\
                   find_tag "--template" content = Ok None) ->
  templates b = Dict.empty /\ processed b = None /\ process depth b = Ok b.
Proof.
  intros C I K. apply create_page_builds_all in C as (all & F & ->).
  apply filter_In in I as [I _].
  destruct (Forall2_In_r _ _ _ _ F I) as (page & _ & used & U & ->).
  cbn [src new_PageBuild] in K.
  assert (template_names page = Ok []) as T.
  { destruct K as [K | (content & K & N)].
    - unfold template_names. now rewrite K.
    - rewrite (template_names_first_only _ _ K). now rewrite N. }
  rewrite (get_templates_used_none _ _ T) in U. injection U as <-.
  unfold new_PageBuild, process. cbn [templates processed].
  rewrite andb_false_r. auto.
Qed.

Lemma create_page_builds_pass_through_witness :
  templates (new_PageBuild (mkFile "d/a.css" "a.css" 1 Blob) "out" None [])
  = Dict.empty /\
  processed (new_PageBuild (mkFile "d/a.css" "a.css" 1 Blob) "out" None [])
  = None /\
  process 10 (new_PageBuild (mkFile "d/a.css" "a.css" 1 Blob) "out" None [])
  = Ok (new_PageBuild (mkFile "d/a.css" "a.css" 1 Blob) "out" None []).
Proof.
  apply (create_page_builds_pass_through
           [mkFile "d/a.css" "a.css" 1 Blob] [] [] "out" false
           [new_PageBuild (mkFile "d/a.css" "a.css" 1 Blob) "out" None []]).
  - vm_compute. reflexivity.
  - left. reflexivity.
  - left. reflexivity.
Defined.

(** ** [process] *)

(** X15.  When [process] returns, the build is the one it was given but
    for the processed text: a build not to be processed comes back as it
    is, and one to be processed now holds the expansion of its source, in
    which no template tag is left. *)
Theorem process_result (depth : nat) (b b' : PageBuild) :
  process depth b = Ok b' ->
  src b' = src b /\ out_path b' = out_path b /\ replace b' = replace b /\
  templates b' = templates b /\
  match processed b with
  | None => processed b' = None
  | Some _ =>
    exists content text,
      kind (src b) = Document content /\
      process_html depth content (templates b) = Ok text /\
      processed b' = Some (Some text) /\
      find_tag "--template" text = Ok None
  end.
Proof.
  unfold process. destruct (processed b) as [p|] eqn:P.
  - destruct (kind (src b)) as [content|] eqn:K; [|discriminate].
    destruct (process_html depth content (templates b)) as [text|e] eqn:H.
    + intros [= <-]. cbn [src out_path replace templates processed].
      repeat (split; [reflexivity|]). exists content, text.
      split; [reflexivity|]. split; [exact H|]. split; [reflexivity|].
      exact (process_html_no_tag _ _ _ _ H).
    + destruct e; discriminate.
  - intros [= <-]. rewrite P. repeat (split; [reflexivity|]). reflexivity.
Qed.

Lemma process_result_witness :
  exists content text,
    kind (mkFile "d/index.html" "index.html" 9
            (Document (lit "<--template --name=" ++ dq "card"
                       ++ lit ">hello</--template>")))
    = Document content /\
    process_html 10 content
      [(lit "card",
        mkFile "t/card.html" "card.html" 5
          (Document (lit "<b><--inner-html></b>")))]
    = Ok text /\
    Some (Some (lit "<b>hello</b>")) = Some (Some text) /\
    find_tag "--template" text = Ok None.
Proof.
  apply (process_result 10
           (new_PageBuild
              (mkFile "d/index.html" "index.html" 9
                 (Document (lit "<--template --name=" ++ dq "card"
                            ++ lit ">hello</--template>")))
              "out" None
              [(lit "card",
                mkFile "t/card.html" "card.html" 5
                  (Document (lit "<b><--inner-html></b>")))])
           (mkPageBuild
              (mkFile "d/index.html" "index.html" 9
                 (Document (lit "<--template --name=" ++ dq "card"
                            ++ lit ">hello</--template>")))
              "out" None
              [(lit "card",
                mkFile "t/card.html" "card.html" 5
                  (Document (lit "<b><--inner-html></b>")))]
              (Some (Some (lit "<b>hello</b>"))))).
  vm_compute. reflexivity.
Defined.

Lemma get_field_value_kinds (template : File) (fields : Dict.t str)
    (tag : str) (e : exn) :
  get_field_value template fields tag = Raise e ->
  (exists msg, e = DocumentError msg) \/ (exists msg, e = BuildError msg).
Proof.
  unfold get_field_value, get_field_dict, Dict.mem.
  destruct (parse_attributes tag) as [attr|e'] eqn:P; cbn [bind].
  - destruct (Dict.get "--name" attr) as [name|] eqn:G; cbn [bind].
    + rewrite G. destruct (Dict.get name fields); [discriminate|].
      destruct (Dict.get "--default" attr); [discriminate|].
      intros [= <-]. left. unfold doc_err. eauto.
    + intros [= <-]. right. unfold build_error. eauto.
  - intros [= <-]. apply parse_attributes_raises in P. subst. left.
    unfold invalid_tag. eauto.
Qed.

Lemma process_template_kinds (template : File) (fields : Dict.t str)
    (inner_html : str) (e : exn) :
  process_template template fields inner_html = Raise e ->
  (exists msg, e = DocumentError msg) \/ (exists msg, e = BuildError msg) \/
  e = AttributeError.
Proof.
  unfold process_template. destruct (kind template) as [text|];
    [|intros [= <-]; tauto].
  destruct (map_result _ _) as [subs|e'] eqn:M; cbn [bind].
  - intros H. apply splice_loop_raises in H. subst. left. unfold doc_err.
    eauto.
  - intros [= <-]. apply map_result_raises in M as ([[si ei] tag] & _ & F).
    destruct (get_field_value template fields tag) eqn:G; cbn [bind] in F;
      [discriminate|].
    injection F as <-. apply get_field_value_kinds in G. tauto.
Qed.

Lemma expand_step_kinds (text : str) (templates : Dict.t File) (e : exn) :
  expand_step text templates = Raise e ->
  (exists msg, e = DocumentError msg) \/ (exists msg, e = BuildError msg) \/
  (exists name, e = KeyError name /\ Dict.get name templates = None) \/
  e = AttributeError.
Proof.
  unfold expand_step.
  destruct (find_tag "--template" text) as [[[[[s hs] he] e']|]|e'] eqn:F;
    cbn [bind]; [|discriminate|].
  - destruct (parse_attributes (slice text s hs)) as [attr|e''] eqn:P;
      cbn [bind].
    + destruct (Dict.get "--name" attr) as [name|];
        [|intros [= <-]; left; eauto].
      destruct (Dict.get name templates) as [template|] eqn:T;
        [|intros [= <-]; right; right; left; eauto].
      destruct (usage_fields attr) as [fields|e3] eqn:U; cbn [bind].
      * destruct (process_template template fields (slice text hs he))
          as [repl|e4] eqn:R; cbn [bind]; [discriminate|].
        intros [= <-]. apply process_template_kinds in R. tauto.
      * intros [= <-]. apply usage_fields_raises in U. tauto.
    + intros [= <-]. apply parse_attributes_raises in P. subst. left.
      unfold invalid_tag. eauto.
  - intros [= <-]. apply find_tag_raises in F. tauto.
Qed.

Lemma process_html_kinds (templates : Dict.t File) :
  forall depth text e,
    process_html depth text templates = Raise e ->
    (exists msg, e = DocumentError msg) \/ (exists msg, e = BuildError msg) \/
    (exists name, e = KeyError name /\ Dict.get name templates = None) \/
    e = AttributeError \/ e = RecursionError.
Proof.
  induction depth as [|depth IH]; intros text e H.
  - injection H as <-. tauto.
  - rewrite process_html_unfold in H.
    destruct (expand_step text templates) as [[text'|]|e'] eqn:E.
    + now apply IH in H.
    + discriminate.
    + injection H as <-. apply expand_step_kinds in E. tauto.
Qed.

(** X16.  What [process] can raise.  A defect of the document met while
    expanding is raised again as a build error; besides build errors, the
    only exceptions that leave [process] are the key error for a template
    name that the build does not hold, the attribute error for a template
    that is not a document, and the recursion error. *)
Theorem process_raises (depth : nat) (b : PageBuild) (e : exn) :
  process depth b = Raise e ->
  (exists msg, e = BuildError msg) \/
  (exists name, e = KeyError name /\ Dict.get name (templates b) = None) \/
  e = AttributeError \/ e = RecursionError.
Proof.
  unfold process. destruct (processed b); [|discriminate].
  destruct (kind (src b)) as [content|]; [|intros [= <-]; tauto].
  destruct (process_html depth content (templates b)) as [text|e'] eqn:H;
    [discriminate|].
  apply process_html_kinds in H
    as [[msg ->] | [[msg ->] | [(name & -> & N) | [-> | ->]]]];
    intros [= <-]; unfold build_error; eauto 6.
Qed.

Lemma process_raises_witness :
  (exists msg, KeyError "nope" = BuildError msg) \/
  (exists name, KeyError "nope" = KeyError name /\
                Dict.get name (@Dict.empty File) = None) \/
  KeyError "nope" = AttributeError \/ KeyError "nope" = RecursionError.
Proof.
  apply (process_raises 10
           (mkPageBuild
              (mkFile "d/index.html" "index.html" 9
                 (Document (lit "<--template --name=" ++ dq "nope"
                            ++ lit ">x</--template>")))
              "out" None Dict.empty (Some None))).
  vm_compute. reflexivity.
Defined.

(** ** [run] *)

(** X17.  A dry run never calls the writer and never returns 2; it
    returns what the run without the option returns, except that it
    returns 0 where that run fails while writing. *)
Theorem run_dry_run (depth : nat)
    (save_raises : list PageBuild -> PageBuild -> option str)
    (src_pages built_files templates_list : list File) (out : str)
    (force_rebuild : bool) :
  let dry := run depth save_raises src_pages built_files templates_list out
               true force_rebuild in
  let real := run depth save_raises src_pages built_files templates_list out
                false force_rebuild in
  save_calls dry = [] /\ returned dry <> Ok 2%Z /\
  (returned real <> Ok 2%Z -> returned dry = returned real) /\
  (returned real = Ok 2%Z -> returned dry = Ok 0%Z).
Proof.
  unfold run.
  destruct (bind _ _) as [[|b builds]|e]; cbn [returned save_calls].
  - repeat split; congruence.
  - destruct (save_all save_raises [] (b :: builds)) as [calls [err|]];
      cbn [returned]; repeat split; congruence.
  - destruct e; cbn [returned save_calls]; repeat split; congruence.
Qed.

Lemma save_all_spec
    (save_raises : list PageBuild -> PageBuild -> option str)
    (page_builds : list PageBuild) :
  forall saved,
    match save_all save_raises saved page_builds with
    | (calls, None) =>
      calls = saved ++ page_builds /\
      forall d b r, page_builds = d ++ b :: r ->
                    save_raises (saved ++ d) b = None
    | (calls, Some err) =>
      exists d b r,
        page_builds = d ++ b :: r /\ calls = saved ++ d ++ [b] /\
        save_raises (saved ++ d) b = Some err /\
        forall d1 x d2, d = d1 ++ x :: d2 ->
                        save_raises (saved ++ d1) x = None
    end.
Proof.
  induction page_builds as [|b0 l IH]; intros saved; cbn [save_all].
  - split; [now rewrite app_nil_r|]. intros [|x d] b r H; discriminate.
  - destruct (save_raises saved b0) as [err|] eqn:E.
    + exists [], b0, l. rewrite app_nil_r. repeat split; try assumption.
      intros [|y d1] x d2 H; discriminate.
    + specialize (IH (saved ++ [b0])).
      destruct (save_all save_raises (saved ++ [b0]) l) as [calls [err|]].
      * destruct IH as (d & b & r & -> & -> & Hb & Hd).
        exists (b0 :: d), b, r. rewrite <- !app_assoc in *. cbn [app] in *.
        repeat split; try assumption.
        intros [|y d1] x d2 H; injection H as <- H.
        -- now rewrite app_nil_r.
        -- subst d. specialize (Hd d1 x d2 eq_refl).
           now rewrite <- app_assoc in Hd.
      * destruct IH as [-> Hd]. rewrite <- app_assoc. split; [reflexivity|].
        intros [|y d] b r H; injection H as <- H.
        -- now rewrite app_nil_r.
        -- subst l. specialize (Hd d b r eq_refl).
           now rewrite <- app_assoc in Hd.
Qed.

(** X18.  The write phase.  Once planning and expansion have given the
    builds, a run that is not dry calls the writer on them in order and
    stops at the first call that raises: it returns 0 after a call for
    every build, none of which raised, and 2 after the call that raised,
    the builds before it written and those after it never attempted. *)
Theorem run_write_order (depth : nat)
    (save_raises : list PageBuild -> PageBuild -> option str)
    (src_pages built_files templates_list : list File) (out : str)
    (force_rebuild : bool) (page_builds : list PageBuild) :
  (builds <- create_page_builds src_pages built_files templates_list
               out force_rebuild ;;
   map_result (process depth) builds) = Ok page_builds ->
  let o := run depth save_raises src_pages built_files templates_list out
             false force_rebuild in
  (returned o = Ok 0%Z /\ save_calls o = page_builds /\
   forall d b r, page_builds = d ++ b :: r -> save_raises d b = None) \/
  (returned o = Ok 2%Z /\
   exists d b r err,
     page_builds = d ++ b :: r /\ save_calls o = d ++ [b] /\
     save_raises d b = Some err /\
     forall d1 x d2, d = d1 ++ x :: d2 -> save_raises d1 x = None).
Proof.
  unfold run. intros ->. destruct page_builds as [|b0 l].
  - left. cbn [returned save_calls]. repeat split.
    intros [|x d] b r H; discriminate.
  - pose proof (save_all_spec save_raises (b0 :: l) []) as S.
    destruct (save_all save_raises [] (b0 :: l)) as [calls [err|]];
      cbn [returned save_calls].
    + right. split; [reflexivity|].
      destruct S as (d & b & r & E & -> & Hb & Hd). exists d, b, r, err.
      cbn [app] in *. auto.
    + left. destruct S as [-> Hd]. cbn [app] in *. auto.
Qed.

Lemma run_write_order_witness :
  let a := mkFile "d/a.css" "a.css" 1 Blob in
  let b := mkFile "d/b.css" "b.css" 1 Blob in
  let c := mkFile "d/c.css" "c.css" 1 Blob in
  let save_raises :=
    fun (_ : list PageBuild) (x : PageBuild) =>
      if str_eqb (relpath (src x)) "b.css" then Some (lit "disk full")
      else None in
  let o := run 10 save_raises [a; b; c] [] [] "out" false false in
  (returned o = Ok 0%Z /\
   save_calls o = [new_PageBuild a "out" None []; new_PageBuild b "out" None [];
                   new_PageBuild c "out" None []] /\
   forall d x r,
     [new_PageBuild a "out" None []; new_PageBuild b "out" None [];
      new_PageBuild c "out" None []] = d ++ x :: r ->
     save_raises d x = None) \/
  (returned o = Ok 2%Z /\
   exists d x r err,
     [new_PageBuild a "out" None []; new_PageBuild b "out" None [];
      new_PageBuild c "out" None []] = d ++ x :: r /\
     save_calls o = d ++ [x] /\
     save_raises d x = Some err /\
     forall d1 y d2, d = d1 ++ y :: d2 -> save_raises d1 y = None).
Proof.
  cbv zeta.
  apply (run_write_order 10
           (fun (_ : list PageBuild) (x : PageBuild) =>
              if str_eqb (relpath (src x)) "b.css" then Some (lit "disk full")
              else None)
           [mkFile "d/a.css" "a.css" 1 Blob; mkFile "d/b.css" "b.css" 1 Blob;
            mkFile "d/c.css" "c.css" 1 Blob] [] [] "out" false).
  vm_compute. reflexivity.
Defined.

(** ** [index_ignore_quoted]: quoted text *)

Lemma index_ignore_quoted_loop_walk (text string : str) :
  forall k i n,
    (forall j c, i <= j < i + k -> nth_error text j = Some c ->
                 c <> dquote /\ c <> squote) ->
    (forall j, i <= j < i + k -> ~ occurs_at text string j) ->
    i + k <= length text ->
    index_ignore_quoted_loop text string None i n
    = if k <=? n
      then index_ignore_quoted_loop text string None (i + k) (n - k)
      else Raise (ValueError "not present").
Proof.
  induction k as [|k IH]; intros i n Q O L.
  - cbn [Nat.leb]. now rewrite Nat.add_0_r, Nat.sub_0_r.
  - destruct n as [|n]; [reflexivity|].
    cbn [index_ignore_quoted_loop Nat.leb Nat.sub].
    destruct (nth_error text i) as [c|] eqn:Hc;
      [|apply nth_error_None in Hc; lia].
    destruct (Q i c ltac:(lia) Hc) as [Nd Ns].
    apply Ascii.eqb_neq in Nd, Ns. rewrite Nd, Ns. cbn [orb andb].
    assert (str_eqb (slice text i (i + length string)) string = false) as ->
      by (apply str_eqb_neq, O; lia).
    rewrite (IH (S i) n).
    + now replace (S i + k) with (i + S k) by lia.
    + intros j d Hj. apply Q. lia.
    + intros j Hj. apply O. lia.
    + lia.
Qed.

Lemma index_ignore_quoted_loop_walk_quoted (text string : str) (q : ascii) :
  forall k i n,
    (forall j c, i <= j < i + k -> nth_error text j = Some c -> c <> q) ->
    i + k <= length text ->
    index_ignore_quoted_loop text string (Some q) i n
    = if k <=? n
      then index_ignore_quoted_loop text string (Some q) (i + k) (n - k)
      else Raise (ValueError "not present").
Proof.
  induction k as [|k IH]; intros i n Q L.
  - cbn [Nat.leb]. now rewrite Nat.add_0_r, Nat.sub_0_r.
  - destruct n as [|n]; [reflexivity|].
    cbn [index_ignore_quoted_loop Nat.leb Nat.sub].
    destruct (nth_error text i) as [c|] eqn:Hc;
      [|apply nth_error_None in Hc; lia].
    pose proof (Q i c ltac:(lia) Hc) as Nq.
    apply Ascii.eqb_neq in Nq. rewrite Nq.
    rewrite (IH (S i) n).
    + now replace (S i + k) with (i + S k) by lia.
    + intros j d Hj. apply Q. lia.
    + lia.
Qed.

(** X19.  Quoted text is passed over.  When the first quote character at
    or after [begin_index] is not preceded by a backslash and the needle
    does not occur before it, the search goes on after the next occurrence
    of the same quote character as if it had started there: whatever
    stands between the two quotes is ignored, occurrences of the needle
    and quote characters of the other kind included. *)
Theorem index_ignore_quoted_skips_quoted (pre v rest string : str)
    (q : ascii) (begin_index : nat) :
  q = dquote \/ q = squote ->
  begin_index <= length pre ->
  Forall (fun c => c <> dquote /\ c <> squote) (skipn begin_index pre) ->
  (forall pre', pre <> pre' ++ [backslash]) ->
  ~ In q v ->
  (forall j, begin_index <= j < length pre ->
             ~ occurs_at (pre ++ q :: v ++ q :: rest) string j) ->
  index_ignore_quoted (pre ++ q :: v ++ q :: rest) string begin_index
  = index_ignore_quoted (pre ++ q :: v ++ q :: rest) string
      (length pre + length v + 2).
Proof.
  intros Hq Hb Fq Hbs Hv Ho.
  set (text := pre ++ q :: v ++ q :: rest) in *.
  assert (length text = length pre + length v + 2 + length rest) as Lt.
  { unfold text. rewrite length_app. cbn [length]. rewrite length_app.
    cbn [length]. lia. }
  assert (forall j, j < length pre -> nth_error text j = nth_error pre j)
    as Npre by (intros j Hj; unfold text; now rewrite nth_error_app1).
  assert (nth_error text (length pre) = Some q) as Nq1.
  { unfold text. rewrite nth_error_app2, Nat.sub_diag by lia. reflexivity. }
  assert (forall j, j < length v ->
                    nth_error text (length pre + 1 + j) = nth_error v j)
    as Nv.
  { intros j Hj. unfold text. rewrite nth_error_app2 by lia.
    replace (length pre + 1 + j - length pre) with (S j) by lia.
    cbn [nth_error]. now rewrite nth_error_app1. }
  assert (nth_error text (length pre + 1 + length v) = Some q) as Nq2.
  { unfold text. rewrite nth_error_app2 by lia.
    replace (length pre + 1 + length v - length pre) with (S (length v))
      by lia.
    cbn [nth_error]. rewrite nth_error_app2, Nat.sub_diag by lia.
    reflexivity. }
  unfold index_ignore_quoted.
  set (n := length text + 1 - length string - begin_index).
  rewrite (index_ignore_quoted_loop_walk text string
             (length pre - begin_index) begin_index n).
  2:{ intros j c Hj Hc. rewrite Npre in Hc by lia.
      rewrite Forall_forall in Fq. apply Fq.
      apply nth_error_In with (n := j - begin_index).
      rewrite nth_error_skipn.
      now replace (begin_index + (j - begin_index)) with j by lia. }
  2:{ intros j Hj. apply Ho. lia. }
  2:{ lia. }
  replace (begin_index + (length pre - begin_index)) with (length pre) by lia.
  destruct (Nat.leb_spec (length pre - begin_index) n) as [L1|L1].
  2:{ replace (length text + 1 - length string
               - (length pre + length v + 2)) with 0 by (unfold n in L1; lia).
      reflexivity. }
  destruct (n - (length pre - begin_index)) as [|n1] eqn:E1.
  { replace (length text + 1 - length string
             - (length pre + length v + 2)) with 0 by (unfold n in *; lia).
    reflexivity. }
  cbn [index_ignore_quoted_loop]. rewrite Nq1.
  assert ((Ascii.eqb q dquote || Ascii.eqb q squote) = true) as ->
    by (destruct Hq as [-> | ->]; reflexivity).
  assert ((0 <? length pre) &&
          match nth_error text (length pre - 1) with
          | Some p => Ascii.eqb p backslash
          | None => false
          end = false) as ->.
  { destruct (Nat.ltb_spec 0 (length pre)) as [Lp|Lp]; [|reflexivity].
    cbn [andb]. rewrite Npre by lia.
    destruct (nth_error pre (length pre - 1)) as [p|] eqn:Hp; [|reflexivity].
    apply Ascii.eqb_neq. intros ->.
    destruct (exists_last (l := pre)) as (pre' & x & E);
      [intros ->; cbn in Lp; lia|].
    rewrite E in Hp. rewrite length_app in Hp. cbn [length] in Hp.
    rewrite nth_error_app2 in Hp by lia.
    replace (length pre' + 1 - 1 - length pre') with 0 in Hp by lia.
    injection Hp as ->. exact (Hbs pre' E). }
  cbn [negb andb].
  rewrite (index_ignore_quoted_loop_walk_quoted text string q
             (length v) (S (length pre)) n1).
  2:{ intros j c Hj Hc.
      replace j with (length pre + 1 + (j - S (length pre))) in Hc by lia.
      rewrite Nv in Hc by lia. intros ->. apply Hv.
      eapply nth_error_In; eauto. }
  2:{ lia. }
  destruct (Nat.leb_spec (length v) n1) as [L2|L2].
  2:{ replace (length text + 1 - length string
               - (length pre + length v + 2)) with 0 by (unfold n in *; lia).
      reflexivity. }
  destruct (n1 - length v) as [|n2] eqn:E2.
  { replace (length text + 1 - length string
             - (length pre + length v + 2)) with 0 by (unfold n in *; lia).
    reflexivity. }
  cbn [index_ignore_quoted_loop].
  replace (S (length pre) + length v) with (length pre + 1 + length v) by lia.
  rewrite Nq2, Ascii.eqb_refl.
  f_equal; unfold n in *; lia.
Qed.

Lemma index_ignore_quoted_skips_quoted_witness :
  index_ignore_quoted (lit "<a t=" ++ dquote :: lit "x>'" ++ dquote :: lit ">z")
    ">" 1
  = index_ignore_quoted (lit "<a t=" ++ dquote :: lit "x>'" ++ dquote :: lit ">z")
      ">" (length (lit "<a t=") + length (lit "x>'") + 2).
Proof.
  apply (index_ignore_quoted_skips_quoted "<a t=" "x>'" ">z" ">" dquote 1).
  - now left.
  - cbn. lia.
  - repeat constructor; discriminate.
  - intros pre' E. apply (f_equal (@rev ascii)) in E.
    rewrite rev_app_distr in E. discriminate E.
  - cbn. intros [H|[H|[H|[]]]]; discriminate H.
  - intros j Hj. cbn in Hj.
    do 5 (destruct j as [|j]; [try lia; vm_compute; discriminate|]). lia.
Defined.

(** ** [find_tag] and [process_html] on a usage written out *)

Lemma attr_char_plain (c : ascii) :
  is_attr_char c = true ->
  c <> dquote /\ c <> squote /\ c <> ">"%char /\ c <> "/"%char
  /\ c <> backslash.
Proof.
  destruct c as [[] [] [] [] [] [] [] []]; vm_compute; intros H;
    try discriminate H; repeat split; discriminate.
Qed.

Lemma nth_error_segment (text seg rest : str) (i j : nat) :
  skipn i text = seg ++ rest -> j < length seg ->
  nth_error text (i + j) = nth_error seg j.
Proof.
  intros E Hj. rewrite <- nth_error_skipn, E. now apply nth_error_app1.
Qed.

Lemma skipn_segment (text seg rest : str) (i : nat) :
  skipn i text = seg ++ rest ->
  skipn (i + length seg) text = rest.
Proof.
  intros E. rewrite Nat.add_comm, <- skipn_skipn_add, E.
  apply skipn_length_app.
Qed.

Lemma skipn_segment_length (text seg rest : str) (i : nat) :
  skipn i text = seg ++ rest -> seg <> [] ->
  i + length seg + length rest = length text.
Proof.
  intros E Hs. assert (length (skipn i text) = length seg + length rest) as L
    by now rewrite E, length_app.
  rewrite length_skipn in L.
  destruct seg; [congruence|]. cbn [length] in *. lia.
Qed.

(** The scan for [>] over a stretch without quote or [>], then a value
    between double quotes. *)
Lemma index_ignore_quoted_loop_value (text a v rest : str) (i n : nat) :
  skipn i text = a ++ dquote :: v ++ dquote :: rest ->
  a <> [] ->
  Forall (fun c => c <> dquote /\ c <> squote /\ c <> ">"%char
                   /\ c <> backslash) a ->
  ~ In dquote v ->
  index_ignore_quoted_loop text ">" None i n
  = if length a + length v + 2 <=? n
    then index_ignore_quoted_loop text ">" None
           (i + (length a + length v + 2)) (n - (length a + length v + 2))
    else Raise (ValueError "not present").
Proof.
  intros E Ha Fa Hv.
  assert (i + length (a ++ dquote :: v ++ [dquote]) + length rest
          = length text) as Lt.
  { apply skipn_segment_length.
    - rewrite E, <- !app_assoc. cbn [app]. now rewrite <- app_assoc.
    - destruct a; [congruence | discriminate]. }
  rewrite length_app in Lt. cbn [length] in Lt. rewrite length_app in Lt.
  cbn [length] in Lt.
  assert (forall j, j < length a -> nth_error text (i + j) = nth_error a j)
    as Na by (intros j Hj; now apply (nth_error_segment _ _ _ _ _ E)).
  assert (nth_error text (i + length a) = Some dquote) as Nq1.
  { rewrite <- nth_error_skipn, E, nth_error_app2, Nat.sub_diag by lia.
    reflexivity. }
  assert (forall j, j < length v ->
                    nth_error text (i + length a + 1 + j) = nth_error v j)
    as Nv.
  { intros j Hj. replace (i + length a + 1 + j) with (i + (length a + S j))
      by lia.
    rewrite <- nth_error_skipn, E, nth_error_app2 by lia.
    replace (length a + S j - length a) with (S j) by lia.
    cbn [nth_error]. now rewrite nth_error_app1. }
  assert (nth_error text (i + length a + 1 + length v) = Some dquote) as Nq2.
  { replace (i + length a + 1 + length v)
      with (i + (length a + S (length v))) by lia.
    rewrite <- nth_error_skipn, E, nth_error_app2 by lia.
    replace (length a + S (length v) - length a) with (S (length v)) by lia.
    cbn [nth_error]. rewrite nth_error_app2, Nat.sub_diag by lia.
    reflexivity. }
  rewrite Forall_forall in Fa.
  rewrite (index_ignore_quoted_loop_walk text ">" (length a) i n).
  2:{ intros j c Hj Hc.
      replace j with (i + (j - i)) in Hc by lia. rewrite Na in Hc by lia.
      apply nth_error_In in Hc. apply Fa in Hc. tauto. }
  2:{ intros j Hj O. change (slice text j (j + 1) = [">"%char]) in O.
      apply slice_one in O.
      replace j with (i + (j - i)) in O by lia. rewrite Na in O by lia.
      apply nth_error_In in O. apply Fa in O. tauto. }
  2:{ lia. }
  destruct (Nat.leb_spec (length a) n) as [L1|L1].
  2:{ destruct (Nat.leb_spec (length a + length v + 2) n); [lia|].
      reflexivity. }
  destruct (n - length a) as [|n1] eqn:E1.
  { destruct (Nat.leb_spec (length a + length v + 2) n); [lia|].
    reflexivity. }
  cbn [index_ignore_quoted_loop]. rewrite Nq1, Ascii.eqb_refl. cbn [orb].
  assert ((0 <? i + length a) &&
          match nth_error text (i + length a - 1) with
          | Some p => Ascii.eqb p backslash
          | None => false
          end = false) as ->.
  { destruct (exists_last Ha) as (a' & x & Ea).
    assert (length a = length a' + 1) as La
      by (rewrite Ea, length_app; reflexivity).
    replace (i + length a - 1) with (i + length a') by lia.
    rewrite Na by lia.
    assert (nth_error a (length a') = Some x) as ->
      by (rewrite Ea, nth_error_app2, Nat.sub_diag by lia; reflexivity).
    assert (In x a) as Ix by (rewrite Ea; apply in_or_app; right; now left).
    apply Fa in Ix. destruct Ix as (_ & _ & _ & Nb).
    apply Ascii.eqb_neq in Nb. rewrite Nb. apply andb_false_r. }
  cbn [negb andb].
  rewrite (index_ignore_quoted_loop_walk_quoted text ">" dquote
             (length v) (S (i + length a)) n1).
  2:{ intros j c Hj Hc.
      replace j with (i + length a + 1 + (j - S (i + length a))) in Hc by lia.
      rewrite Nv in Hc by lia. intros ->. apply Hv.
      eapply nth_error_In; eauto. }
  2:{ lia. }
  destruct (Nat.leb_spec (length v) n1) as [L2|L2].
  2:{ destruct (Nat.leb_spec (length a + length v + 2) n); [lia|].
      reflexivity. }
  destruct (n1 - length v) as [|n2] eqn:E2.
  { destruct (Nat.leb_spec (length a + length v + 2) n); [lia|].
    reflexivity. }
  cbn [index_ignore_quoted_loop].
  replace (S (i + length a) + length v) with (i + length a + 1 + length v)
    by lia.
  rewrite Nq2, Ascii.eqb_refl.
  destruct (Nat.leb_spec (length a + length v + 2) n); [|lia].
  f_equal; lia.
Qed.

Lemma index_ignore_quoted_loop_attrs (text : str) (attrs : list (str * str)) :
  Forall valid_attr attrs ->
  forall rest i n,
    skipn i text = concat (map render_attr attrs) ++ rest ->
    index_ignore_quoted_loop text ">" None i n
    = if length (concat (map render_attr attrs)) <=? n
      then index_ignore_quoted_loop text ">" None
             (i + length (concat (map render_attr attrs)))
             (n - length (concat (map render_attr attrs)))
      else Raise (ValueError "not present").
Proof.
  induction 1 as [|[k v] attrs (Hk & Fk & Hv) _ IH]; intros rest i n E.
  - cbn [map concat length Nat.leb]. now rewrite Nat.add_0_r, Nat.sub_0_r.
  - cbn [map concat fst snd] in *.
    set (body := concat (map render_attr attrs)) in *.
    assert (render_attr (k, v)
            = (" "%char :: k ++ ["="%char]) ++ dquote :: v ++ [dquote]) as Er.
    { unfold render_attr, dq. cbn [fst snd app lit String.list_ascii_of_string].
      now rewrite <- app_assoc. }
    assert (length (render_attr (k, v))
            = length (" "%char :: k ++ ["="%char]) + length v + 2) as Lr.
    { rewrite Er, !length_app. cbn [length]. rewrite !length_app.
      cbn [length]. lia. }
    rewrite (index_ignore_quoted_loop_value text
               (" "%char :: k ++ ["="%char]) v (body ++ rest) i n).
    + rewrite length_app, Lr.
      set (K := length (" "%char :: k ++ ["="%char]) + length v + 2) in *.
      destruct (Nat.leb_spec K n) as [L1|L1].
      * rewrite (IH rest (i + K) (n - K)).
        -- destruct (Nat.leb_spec (length body) (n - K)),
             (Nat.leb_spec (K + length body) n); try lia; [|reflexivity].
           f_equal; lia.
        -- rewrite <- Lr. rewrite <- app_assoc in E.
           now apply (skipn_segment _ _ _ _ E).
      * destruct (Nat.leb_spec (K + length body) n); [lia | reflexivity].
    + rewrite E, Er, <- !app_assoc. cbn [app]. now rewrite <- !app_assoc.
    + discriminate.
    + constructor; [repeat split; discriminate|].
      apply Forall_app. split.
      * eapply Forall_impl; [|exact Fk]. intros c Hc.
        apply attr_char_plain in Hc. tauto.
      * constructor; [repeat split; discriminate | constructor].
    + exact Hv.
Qed.

(** The [>] that ends a tag written out is found from the start of the
    tag, whatever its attribute values hold. *)
Lemma index_ignore_quoted_rendered (text a rest : str)
    (attrs : list (str * str)) (i : nat) :
  skipn i text = a ++ concat (map render_attr attrs) ++ ">"%char :: rest ->
  Forall (fun c => c <> dquote /\ c <> squote /\ c <> ">"%char) a ->
  Forall valid_attr attrs ->
  index_ignore_quoted text ">" i
  = Ok (i + length a + length (concat (map render_attr attrs))).
Proof.
  intros E Fa Fv. set (body := concat (map render_attr attrs)) in *.
  assert (i + length (a ++ body ++ [">"%char]) + length rest = length text)
    as Lt.
  { apply skipn_segment_length.
    - rewrite E, <- !app_assoc. reflexivity.
    - destruct a; [destruct body|]; discriminate. }
  rewrite !length_app in Lt. cbn [length] in Lt.
  unfold index_ignore_quoted. change (length (lit ">")) with 1.
  set (n := length text + 1 - 1 - i).
  rewrite Forall_forall in Fa.
  rewrite (index_ignore_quoted_loop_walk text ">" (length a) i n).
  2:{ intros j c Hj Hc. replace j with (i + (j - i)) in Hc by lia.
      rewrite (nth_error_segment _ _ _ _ _ E) in Hc by lia.
      apply nth_error_In in Hc. apply Fa in Hc. tauto. }
  2:{ intros j Hj O. change (slice text j (j + 1) = [">"%char]) in O.
      apply slice_one in O.
      replace j with (i + (j - i)) in O by lia.
      rewrite (nth_error_segment _ _ _ _ _ E) in O by lia.
      apply nth_error_In in O. apply Fa in O. tauto. }
  2:{ lia. }
  destruct (Nat.leb_spec (length a) n) as [L1|L1]; [|unfold n in L1; lia].
  assert (skipn (i + length a) text = body ++ ">"%char :: rest) as E2
    by now apply (skipn_segment _ _ _ _ E).
  rewrite (index_ignore_quoted_loop_attrs text attrs Fv (">"%char :: rest)
             (i + length a) (n - length a) E2).
  fold body.
  destruct (Nat.leb_spec (length body) (n - length a)) as [L2|L2];
    [|unfold n in L2; lia].
  assert (skipn (i + length a + length body) text = ">"%char :: rest) as E3
    by now apply (skipn_segment _ _ _ _ E2).
  destruct (n - length a - length body) as [|n3] eqn:E4;
    [unfold n in E4; lia|].
  cbn [index_ignore_quoted_loop].
  assert (nth_error text (i + length a + length body) = Some ">"%char) as Hc.
  { rewrite <- (Nat.add_0_r (i + length a + length body)).
    rewrite <- nth_error_skipn, E3. reflexivity. }
  rewrite Hc. cbn [orb andb].
  replace (Ascii.eqb ">" dquote) with false by reflexivity.
  replace (Ascii.eqb ">" squote) with false by reflexivity.
  cbn [orb andb].
  assert (str_eqb (slice text (i + length a + length body)
                     (i + length a + length body + length (lit ">")))
            (lit ">") = true) as ->.
  { apply str_eqb_eq. apply (proj2 (slice_one text _ ">"%char)). exact Hc. }
  reflexivity.
Qed.

Lemma tag_char_plain (name : str) :
  Forall (fun c => is_tag_char c = true) name ->
  Forall (fun c => c <> dquote /\ c <> squote /\ c <> ">"%char) name.
Proof.
  intros F. eapply Forall_impl; [|exact F]. intros c Hc.
  apply tag_char_attr_char, attr_char_plain in Hc. tauto.
Qed.

(** A usage written out, in a text that holds no other form of the tag,
    is the occurrence the tag locator describes. *)
Lemma rendered_usage_spec (name pre inner post : str)
    (attrs : list (str * str)) :
  name <> [] -> Forall (fun c => is_tag_char c = true) name ->
  Forall valid_attr attrs ->
  let open_ := render_tag name attrs in
  let close := lit "</" ++ name ++ lit ">" in
  let text := pre ++ open_ ++ inner ++ close ++ post in
  occurrences (lit "<" ++ name) text 0 = [length pre] ->
  occurrences (lit "</" ++ name) text 0
  = [length pre + length open_ + length inner] ->
  find_tag_spec name text
    (Ok (Some (length pre, length pre + length open_,
               length pre + length open_ + length inner,
               length pre + length open_ + length inner + length close))).
Proof.
  intros Hn Fn Fa open_ close text O1 O2.
  set (body := concat (map render_attr attrs)).
  assert (open_ = ("<"%char :: name) ++ body ++ [">"%char]) as Eo
    by reflexivity.
  assert (close = ("<"%char :: "/"%char :: name) ++ [">"%char]) as Ec
    by reflexivity.
  assert (length open_ = S (length name) + length body + 1) as Lo
    by (rewrite Eo, !length_app; cbn [length]; lia).
  assert (length close = S (S (length name)) + 1) as Lc
    by (rewrite Ec, !length_app; cbn [length]; lia).
  assert (skipn (length pre) text = open_ ++ inner ++ close ++ post) as S1
    by apply skipn_length_app.
  assert (skipn (length pre + length open_) text = inner ++ close ++ post)
    as S2 by now apply (skipn_segment _ _ _ _ S1).
  assert (skipn (length pre + length open_ + length inner) text
          = close ++ post) as S3 by now apply (skipn_segment _ _ _ _ S2).
  assert (forall j, tag_form_at name text j = true ->
                    j = length pre \/
                    j = length pre + length open_ + length inner) as U.
  { intros j H. unfold tag_form_at, tag_at, slice_from in H.
    apply orb_true_iff in H as [H|H].
    - apply (occurrences_complete (lit "</" ++ name) text) with (pos := 0)
        in H; [|discriminate].
      rewrite O2 in H. destruct H as [H|[]]. right. now subst.
    - apply (occurrences_complete (lit "<" ++ name) text) with (pos := 0)
        in H; [|discriminate].
      rewrite O1 in H. destruct H as [H|[]]. left. now subst. }
  assert (tag_form_at name text (length pre) = true) as T1.
  { unfold tag_form_at, tag_at, slice_from. rewrite S1, Eo.
    apply orb_true_iff. right. apply starts_with_app.
    rewrite <- app_assoc. eauto. }
  assert (tag_form_at name text
            (length pre + length open_ + length inner) = true) as T2.
  { unfold tag_form_at, tag_at, slice_from. rewrite S3, Ec.
    apply orb_true_iff. left. apply starts_with_app.
    rewrite <- app_assoc. eauto. }
  assert (tag_end text (length pre) = Some (length pre + length open_))
    as E1.
  { unfold tag_end.
    rewrite (index_ignore_quoted_rendered text ("<"%char :: name)
               (inner ++ close ++ post) attrs (length pre)).
    - f_equal. fold body. cbn [length]. lia.
    - rewrite S1, Eo, <- !app_assoc. reflexivity.
    - constructor; [repeat split; discriminate | now apply tag_char_plain].
    - exact Fa. }
  assert (tag_end text (length pre + length open_ + length inner)
          = Some (length pre + length open_ + length inner + length close))
    as E2.
  { unfold tag_end.
    rewrite (index_ignore_quoted_rendered text
               ("<"%char :: "/"%char :: name) post []
               (length pre + length open_ + length inner)).
    - f_equal. cbn [map concat length]. lia.
    - rewrite S3, Ec, <- !app_assoc. reflexivity.
    - constructor; [repeat split; discriminate|].
      constructor; [repeat split; discriminate | now apply tag_char_plain].
    - constructor. }
  destruct name as [|c name']; [congruence|].
  assert (closing_at text (length pre) = false) as C1.
  { unfold closing_at.
    rewrite (nth_error_segment text ["<"%char; c]
               (name' ++ body ++ [">"%char] ++ inner ++ close ++ post)
               (length pre) 1).
    - cbn [nth_error]. apply Ascii.eqb_neq. inversion Fn as [|? ? Hc _]; subst.
      apply tag_char_attr_char, attr_char_plain in Hc. tauto.
    - rewrite S1, Eo, <- !app_assoc. reflexivity.
    - cbn [length]. lia. }
  assert (closing_at text (length pre + length open_ + length inner) = true)
    as C2.
  { unfold closing_at.
    rewrite (nth_error_segment text ["<"%char; "/"%char]
               ((c :: name') ++ [">"%char] ++ post)
               (length pre + length open_ + length inner) 1).
    - reflexivity.
    - rewrite S3, Ec, <- !app_assoc. reflexivity.
    - cbn [length]. lia. }
  apply spec_found.
  - apply opened_first; [|exact C1 | exact E1].
    split; [lia|]. split; [exact T1|]. intros j Hj.
    destruct (tag_form_at (c :: name') text j) eqn:T; [|reflexivity].
    apply U in T. lia.
  - split; [lia|]. split; [exact T2|]. intros j Hj.
    destruct (tag_form_at (c :: name') text j) eqn:T; [|reflexivity].
    apply U in T. lia.
  - exact C2.
  - exact E2.
Qed.

(** X20.  Round trip for the tag locator.  In a text made of a usage
    written out - an opening tag with its attributes, a content, the
    closing tag - between a prefix and a suffix, and that holds no other
    form of the tag, [find_tag] returns the offsets of the four seams,
    whatever the attribute values hold ([>] and single quotes
    included). *)
Theorem find_tag_rendered (name pre inner post : str)
    (attrs : list (str * str)) :
  name <> [] -> Forall (fun c => is_tag_char c = true) name ->
  Forall valid_attr attrs ->
  let open_ := render_tag name attrs in
  let close := lit "</" ++ name ++ lit ">" in
  let text := pre ++ open_ ++ inner ++ close ++ post in
  occurrences (lit "<" ++ name) text 0 = [length pre] ->
  occurrences (lit "</" ++ name) text 0
  = [length pre + length open_ + length inner] ->
  find_tag name text
  = Ok (Some (length pre, length pre + length open_,
              length pre + length open_ + length inner,
              length pre + length open_ + length inner + length close)).
Proof.
  intros Hn Fn Fa open_ close text O1 O2.
  apply find_tag_complete.
  now apply rendered_usage_spec.
Qed.

Lemma find_tag_rendered_witness :
  find_tag "b"
    (lit "x<i>" ++ render_tag "b" [(lit "t", lit "a>'b")] ++ lit "<u>y</u>"
     ++ (lit "</" ++ lit "b" ++ lit ">") ++ lit "</i>")
  = Ok (Some (4, 16, 24, 28)).
Proof.
  apply (find_tag_rendered "b" "x<i>" "<u>y</u>" "</i>" [(lit "t", lit "a>'b")]).
  - discriminate.
  - repeat constructor.
  - repeat constructor; cbn; try discriminate;
      intros H; repeat (destruct H as [H|H]; [discriminate H|]); exact H.
  - reflexivity.
  - reflexivity.
Defined.

(** X21.  One usage, end to end.  For a document that holds a single
    usage written out, of a template that the mapping holds, with the
    fields its attributes give, [process_html] returns the document with
    the usage replaced by what [process_template] makes of the template,
    the fields and the content of the usage - provided no form of the
    template tag is left in that text. *)
Theorem process_html_single_usage (depth : nat) (pre inner post n repl : str)
    (attrs : list (str * str)) (templates : Dict.t File) (template : File)
    (fields : Dict.t str) :
  Forall valid_attr attrs ->
  let open_ := render_tag "--template" attrs in
  let text := pre ++ open_ ++ inner ++ lit "</--template>" ++ post in
  occurrences "<--template" text 0 = [length pre] ->
  occurrences "</--template" text 0
  = [length pre + length open_ + length inner] ->
  Dict.get "--name" (dict_of attrs) = Some n ->
  Dict.get n templates = Some template ->
  usage_fields (dict_of attrs) = Ok fields ->
  process_template template fields inner = Ok repl ->
  find_tag "--template" (pre ++ repl ++ post) = Ok None ->
  process_html (S (S depth)) text templates = Ok (pre ++ repl ++ post).
Proof.
  intros Fa open_ text O1 O2 Hn Ht Hu Hp Hf.
  assert (find_tag "--template" text
          = Ok (Some (length pre, length pre + length open_,
                      length pre + length open_ + length inner,
                      length pre + length open_ + length inner
                      + length (lit "</--template>")))) as F.
  { apply find_tag_complete.
    apply (rendered_usage_spec "--template" pre inner post attrs);
      [discriminate | repeat constructor | exact Fa | exact O1 | exact O2]. }
  assert (skipn (length pre) text
          = open_ ++ inner ++ lit "</--template>" ++ post) as S1
    by apply skipn_length_app.
  assert (skipn (length pre + length open_) text
          = inner ++ lit "</--template>" ++ post)
    as S2 by now apply (skipn_segment _ _ _ _ S1).
  assert (skipn (length pre + length open_ + length inner) text
          = lit "</--template>" ++ post) as S3
    by now apply (skipn_segment _ _ _ _ S2).
  assert (skipn (length pre + length open_ + length inner
                 + length (lit "</--template>")) text = post) as S4
    by now apply (skipn_segment _ _ _ _ S3).
  rewrite process_html_unfold. unfold expand_step. rewrite F. cbn [bind].
  assert (slice text (length pre) (length pre + length open_) = open_) as ->.
  { unfold slice. rewrite S1.
    replace (length pre + length open_ - length pre) with (length open_)
      by lia.
    apply firstn_length_app. }
  assert (slice text (length pre + length open_)
            (length pre + length open_ + length inner) = inner) as ->.
  { unfold slice. rewrite S2.
    replace (length pre + length open_ + length inner
             - (length pre + length open_)) with (length inner) by lia.
    apply firstn_length_app. }
  assert (slice text 0 (length pre) = pre) as ->.
  { unfold slice. rewrite Nat.sub_0_r. cbn [skipn]. apply firstn_length_app. }
  unfold slice_from. rewrite S4.
  unfold open_. rewrite parse_attributes_render_dict;
    [|discriminate | repeat constructor | exact Fa].
  cbn [bind]. rewrite Hn, Ht, Hu. cbn [bind]. rewrite Hp. cbn [bind].
  now apply process_html_base.
Qed.

Lemma process_html_single_usage_witness :
  process_html 2
    (lit "<body>"
     ++ render_tag "--template"
          [(lit "--name", lit "card"); (lit "$title", lit "Hi")]
     ++ lit "<p>text</p>" ++ lit "</--template>" ++ lit "</body>")
    [(lit "card",
      mkFile "t/card.html" "card.html" 5
        (Document (lit "<h1><--field --name=" ++ dq "title"
                   ++ lit "></h1><--inner-html>")))]
  = Ok (lit "<body>" ++ lit "<h1>Hi</h1><p>text</p>" ++ lit "</body>").
Proof.
  apply (process_html_single_usage 0 "<body>" "<p>text</p>" "</body>" "card"
           "<h1>Hi</h1><p>text</p>"
           [(lit "--name", lit "card"); (lit "$title", lit "Hi")]
           _
           (mkFile "t/card.html" "card.html" 5
              (Document (lit "<h1><--field --name=" ++ dq "title"
                         ++ lit "></h1><--inner-html>")))
           [(lit "title", lit "Hi")]).
  - repeat constructor; cbn; try discriminate;
      intros H; repeat (destruct H as [H|H]; [discriminate H|]); exact H.
  - reflexivity.
  - reflexivity.
  - reflexivity.
  - reflexivity.
  - reflexivity.
  - vm_compute. reflexivity.
  - vm_compute. reflexivity.
Defined.

(** ** [create_page_builds]: the names checked *)

Lemma get_templates_used_names (templates : Dict.t File) (page : File)
    (used : Dict.t File) :
  get_templates_used templates page = Ok used ->
  exists names,
    template_names page = Ok names /\
    forall n, In n names -> exists t, Dict.get n templates = Some t.
Proof.
  unfold get_templates_used.
  destruct (template_names page) as [names|]; cbn [bind]; [|discriminate].
  intros H. exists names. split; [reflexivity|].
  revert H. generalize (@Dict.empty File) as ret.
  induction names as [|name names IH]; intros ret H n I; [destruct I|].
  destruct (Dict.get name templates) as [t|] eqn:E; [|discriminate].
  destruct I as [<- | I]; [eauto|]. exact (IH _ H n I).
Qed.

(** X22.  A plan is only made when every source page passes the check of
    its template names, the pages that are up to date included: for each
    page of the listing the scan for names has succeeded, and every name
    it collected is the identifier of a template of the listing. *)
Theorem create_page_builds_names_known
    (src_pages built_files templates_list : list File) (out : str)
    (force_rebuild : bool) (builds : list PageBuild) (page : File) :
  create_page_builds src_pages built_files templates_list out force_rebuild
  = Ok builds ->
  In page src_pages ->
  exists names,
    template_names page = Ok names /\
    forall n, In n names ->
              exists t, In t templates_list /\ template_ident t = n.
Proof.
  intros C I. apply create_page_builds_all in C as (all & F & _).
  destruct (Forall2_In_l _ _ _ _ F I) as (b & _ & used & U & _).
  apply get_templates_used_names in U as (names & T & K).
  exists names. split; [exact T|]. intros n Hn.
  destruct (K n Hn) as [t G].
  apply fold_set_last in G as [(l1 & l2 & -> & Ht & _) | [G _]];
    [|discriminate].
  exists t. split; [|exact Ht]. apply in_or_app. right. now left.
Qed.

Lemma create_page_builds_names_known_witness :
  exists names,
    template_names
      (mkFile "d/index.html" "index.html" 1
         (Document (lit "<--template --name=" ++ dq "card"
                    ++ lit ">hello</--template>")))
    = Ok names /\
    forall n, In n names ->
      exists t,
        In t [mkFile "t/card.html" "card.html" 5 (Document "one")] /\
        template_ident t = n.
Proof.
  apply (create_page_builds_names_known
           [mkFile "d/index.html" "index.html" 1
              (Document (lit "<--template --name=" ++ dq "card"
                         ++ lit ">hello</--template>"))]
           [mkFile "out/index.html" "index.html" 9 (Document "one:hello")]
           [mkFile "t/card.html" "card.html" 5 (Document "one")]
           "out" false []).
  - vm_compute. reflexivity.
  - left. reflexivity.
Defined.
